(** * Satellite-data acquisition pipeline of server.js

    A shallow embedding of the three stateful pieces of [server.js]:
    the token manager ([SentinelHubService.getAccessToken]), the
    multipart decoder ([extractBoundary], [parseMultipartResponse]) and
    the result cache with its hourly sweep, together with the
    orchestrator [getSatelliteData] and the [POST /api/satellite-data]
    handler that drive them; then the scheduled token refresh, the two
    cache endpoints, and [FloodModelingService] with the
    [POST /api/flood-analysis] handler.

    Conventions.
    - A Node [Buffer] is a [list byte]; indices are [Z], as they are JS
      numbers that the source compares with [-1] and subtracts from.
    - A JS string is a [string] of 8-bit code units.  [Buffer.from(s)] and
      [buf.toString()] are then the byte-wise conversions, which is what
      UTF-8 does on ASCII text (HTTP header blocks, Content-IDs and
      boundary tokens are ASCII).  On bytes or characters outside ASCII
      Node's conversions differ from these.
    - The object [parts] of the decoder is the finite map of its own
      properties.  A part named [__proto__] does not add a property but
      replaces the prototype of [parts]; the prototype is not modelled, so
      the statements about the result of decoding are made for buffers in
      which no part has that name.
    - Instants ([Date.now()]) are integer milliseconds in [Z].
    - The numbers of the flood model are binary64 floats.
    - What the outside world supplies during a call (clock readings,
      replies of the two remote endpoints, the randomised analysis) is an
      explicit argument of the embedded function. *)

From Stdlib Require Import ZArith List Strings.String Strings.Ascii Strings.Byte QArith.Qcanon ZifyBool.
From Stdlib Require Import Floats.
From stdpp Require Import base option list gmap strings numbers pretty.

Open Scope Z_scope.

(** ** Node built-ins used by the decoder *)

Abbreviation Buffer := (list byte).

(** [Buffer.from(s)] for an ASCII string: one byte per character.  (On
    other characters Node writes the UTF-8 encoding, of several bytes.) *)
Definition Buffer_from (s : string) : Buffer := list_byte_of_string s.

(** [buf.toString()] for an ASCII buffer: one character per byte.  (Node
    decodes UTF-8: bytes outside ASCII are combined, or replaced by U+FFFD
    where they are not valid UTF-8.) *)
Definition toString (b : Buffer) : string := string_of_list_byte b.

Definition CR : byte := x0d.
Definition LF : byte := x0a.
Definition CRLF : Buffer := [CR; LF].
(** [Buffer.from("\r\n\r\n")] *)
Definition CRLFCRLF : Buffer := [CR; LF; CR; LF].

Definition blen (b : Buffer) : Z := Z.of_nat (length b).

(** Does [pat] occur in [buf] at offset 0? *)
Fixpoint starts_with (pat buf : Buffer) : bool :=
  match pat, buf with
  | [], _ => true
  | _ :: _, [] => false
  | p :: pat', b :: buf' => Byte.eqb p b && starts_with pat' buf'
  end.

(** Offset of the first occurrence of [pat] in [buf]. *)
Fixpoint search (pat buf : Buffer) : option nat :=
  if starts_with pat buf then Some 0%nat
  else match buf with
       | [] => None
       | _ :: buf' => S <$> search pat buf'
       end.

(** A byte offset as Node normalises it: negative offsets count from the
    end, and the result is clamped to [0 .. length]. *)
Definition clamp_offset (b : Buffer) (i : Z) : nat :=
  Z.to_nat (if i <? 0 then Z.max 0 (blen b + i) else Z.min i (blen b)).

(** [buf.indexOf(value, byteOffset)]: index of the first occurrence of
    [value] at or after [byteOffset], or [-1]. *)
Definition indexOf (buf value : Buffer) (byteOffset : Z) : Z :=
  let from := clamp_offset buf byteOffset in
  match search value (drop from buf) with
  | Some i => Z.of_nat (from + i)
  | None => -1
  end.

(** [buf.slice(start, end)]: the bytes in [start .. end), empty when
    [end <= start]. *)
Definition slice (buf : Buffer) (start end_ : Z) : Buffer :=
  let s := clamp_offset buf start in
  let e := clamp_offset buf end_ in
  take (e - s) (drop s buf).

(** ** Regular expressions of the decoder *)

(** [strip_literal p s] is [Some r] when [s = p ++ r]. *)
Fixpoint strip_literal (p s : string) : option string :=
  match p, s with
  | EmptyString, _ => Some s
  | String _ _, EmptyString => None
  | String a p', String b s' =>
      if Ascii.eqb a b then strip_literal p' s' else None
  end.

(** Longest prefix of [s] free of the character [c], and what follows. *)
Fixpoint span_not (c : ascii) (s : string) : string * string :=
  match s with
  | EmptyString => (EmptyString, EmptyString)
  | String a s' =>
      if Ascii.eqb a c then (EmptyString, s)
      else let '(run, rest) := span_not c s' in (String a run, rest)
  end.

(** One attempt of [lit ([^c]+)] anchored at the head of [s], with what
    follows the captured run. *)
Definition capture_at (lit : string) (c : ascii) (s : string)
  : option (string * string) :=
  match strip_literal lit s with
  | Some r =>
      match span_not c r with
      | (String a run, rest) => Some (String a run, rest)
      | (EmptyString, _) => None
      end
  | None => None
  end.

(** [headers.match(/Content-ID: <([^>]+)>/)]: capture group 1 of the
    leftmost match. *)
Fixpoint match_content_id (headers : string) : option string :=
  match capture_at "Content-ID: <" ">" headers with
  | Some (id, String _ _) => Some id
  | _ =>
      match headers with
      | EmptyString => None
      | String _ headers' => match_content_id headers'
      end
  end.

(** [contentType.match(/boundary=([^;]+)/)]: capture group 1 of the
    leftmost match. *)
Fixpoint match_boundary (contentType : string) : option string :=
  match capture_at "boundary=" ";" contentType with
  | Some (b, _) => Some b
  | None =>
      match contentType with
      | EmptyString => None
      | String _ contentType' => match_boundary contentType'
      end
  end.

(** ** The decoded parts: a JS object literal used as a map *)

(** The own properties of the object [parts]. *)
Abbreviation Parts := (gmap string Buffer).

(** [parts[contentId] = content] on an object created by [{}], as far as
    the own properties go: every key becomes an own property except
    ["__proto__"], which is the prototype accessor; assigning a Buffer to
    it adds no own property.  It also replaces the prototype of [parts]
    by that Buffer, and from then on an assignment to a key that the
    Buffer's prototype chain holds read-only ([length], [byteLength],
    [byteOffset], [buffer], [parent], [offset], [BYTES_PER_ELEMENT])
    throws a TypeError in the strict-mode class body.  The prototype is
    not part of [Parts]: this is the assignment of the code as long as no
    part is named [__proto__]. *)
Definition obj_set (contentId : string) (content : Buffer) (parts : Parts)
  : Parts :=
  if decide (contentId = "__proto__"%string) then parts
  else <[contentId := content]> parts.

(** ** SentinelHubService.extractBoundary and parseMultipartResponse *)

(** [`--${boundary}`] where [boundary] is the result of
    [extractBoundary]: [null] is interpolated as the text "null". *)
Definition interpolate (boundary : option string) : string :=
  match boundary with
  | Some b => b
  | None => "null"%string
  end.

Definition extractBoundary (contentType : string) : option string :=
  match_boundary contentType.

(** The [while] loop of [parseMultipartResponse].  Each iteration moves
    [pos] forward, so the loop is run on a counter that bounds the number
    of iterations; [None] means the counter ran out. *)
Fixpoint parse_loop (fuel : nat) (buffer boundaryBuffer : Buffer) (end_ : Z)
    (pos : Z) (parts : Parts) : option Parts :=
  match fuel with
  | O => None
  | S fuel' =>
      if negb ((negb (pos =? -1)) && (pos <? end_)) then Some parts
      else
        let headersEnd := indexOf buffer CRLFCRLF pos in
        if headersEnd =? -1 then Some parts
        else
          let headers :=
            toString (slice buffer (pos + blen boundaryBuffer + 2) headersEnd) in
          let parts' :=
            match match_content_id headers with
            | Some contentId =>
                let nextBoundary :=
                  indexOf buffer boundaryBuffer (headersEnd + 4) in
                let contentEnd :=
                  if negb (nextBoundary =? -1) then nextBoundary - 4
                  else end_ - 2 in
                let content := slice buffer (headersEnd + 4) contentEnd in
                obj_set contentId content parts
            | None => parts
            end in
          parse_loop fuel' buffer boundaryBuffer end_
            (indexOf buffer boundaryBuffer (headersEnd + 4)) parts'
  end.

Definition parseMultipartResponse (buffer : Buffer) (boundary : option string)
  : option Parts :=
  let boundaryBuffer := Buffer_from ("--" ++ interpolate boundary) in
  let endBoundaryBuffer := Buffer_from ("--" ++ interpolate boundary ++ "--") in
  let start := 0 in
  let end_ := indexOf buffer endBoundaryBuffer 0 in
  let end_ := if end_ =? -1 then blen buffer else end_ in
  let pos := indexOf buffer boundaryBuffer start in
  parse_loop (S (length buffer)) buffer boundaryBuffer end_ pos ∅.

(** ** A reference encoder (not part of server.js)

    The multipart body a test would synthesise for named parts, as
    RFC 2046 lays it out: every part is the dash-boundary line, a
    Content-ID header, an empty line, the body and a line break; the
    closing marker is the dash-boundary followed by two dashes. *)

Definition encode_part (boundary : string) (p : string * Buffer) : Buffer :=
  Buffer_from ("--" ++ boundary) ++ CRLF
  ++ Buffer_from ("Content-ID: <" ++ p.1 ++ ">") ++ CRLFCRLF
  ++ p.2 ++ CRLF.

Definition encode_parts (boundary : string) (ps : list (string * Buffer))
  : Buffer :=
  concat (map (encode_part boundary) ps).

Definition closing_marker (boundary : string) : Buffer :=
  Buffer_from ("--" ++ boundary ++ "--").

Definition encode_multipart (boundary : string) (ps : list (string * Buffer))
  : Buffer :=
  encode_parts boundary ps ++ closing_marker boundary.

(** ** JSON values and the JS coercions applied to them *)

Set Warnings "-register-all".

Inductive jsnum :=
  | Finite (q : Qc)
  | PosInfinity
  | NegInfinity
  | NaN.

Inductive jsval :=
  | JUndefined
  | JNull
  | JBool (b : bool)
  | JNum (n : jsnum)
  | JStr (s : string)
  | JArr (items : list jsval)
  | JObj (fields : list (string * jsval)).

(** ToBoolean, as applied by [!v], [v && ...] and [v ? ... : ...]. *)
Definition truthy (v : jsval) : bool :=
  match v with
  | JUndefined | JNull => false
  | JBool b => b
  | JNum (Finite q) => negb (bool_decide (q = 0%Qc))
  | JNum NaN => false
  | JNum _ => true
  | JStr s => negb (bool_decide (s = ""%string))
  | JArr _ | JObj _ => true
  end.

(** [Array.isArray(v)] *)
Definition isArray (v : jsval) : bool :=
  match v with JArr _ => true | _ => false end.

(** [v[name]] for a value that is neither [null] nor [undefined]: an own
    field of an object ([fields] lists the properties of the parsed
    object, each key once); none of the names looked up in this program
    is found on a primitive or an array. *)
Fixpoint field (name : string) (fields : list (string * jsval)) : jsval :=
  match fields with
  | [] => JUndefined
  | (k, v) :: fields' =>
      if bool_decide (k = name) then v else field name fields'
  end.

Definition get_property (v : jsval) (name : string) : jsval :=
  match v with
  | JObj fields => field name fields
  | _ => JUndefined
  end.

(** [sep]-separated concatenation, [Array.prototype.join] on strings. *)
Fixpoint join_strings (sep : string) (l : list string) : string :=
  match l with
  | [] => ""
  | [s] => s
  | s :: l' => s ++ sep ++ join_strings sep l'
  end.

(** Does ToString complete on a JSON value?  On a primitive it does.  On
    a plain object it calls the [toString] found on the object, which is
    [Object.prototype.toString] unless the object has an own field of
    that name; such a field, coming from JSON, is not callable, the
    inherited [valueOf] returns the object itself, and the conversion
    ends in a TypeError.  On an array it is [join], which converts every
    element other than [null] and [undefined]. *)
Fixpoint stringifies (v : jsval) : bool :=
  match v with
  | JArr items => forallb stringifies items
  | JObj fields =>
      negb (existsb (fun kv => String.eqb kv.1 "toString") fields)
  | _ => true
  end.

(** ** Base64, [buf.toString("base64")] *)

Definition b64_alphabet : string :=
  "ABCDEFGHIJKLMNOPQRSTUVWXYZabcdefghijklmnopqrstuvwxyz0123456789+/".

Definition b64_digit (n : N) : ascii :=
  match String.get (N.to_nat n) b64_alphabet with
  | Some c => c
  | None => "="%char
  end.

Fixpoint base64 (b : Buffer) : string :=
  match b with
  | [] => ""
  | [x] =>
      let n := Byte.to_N x in
      String (b64_digit (N.shiftr n 2))
        (String (b64_digit (N.shiftl (N.land n 3) 4)) "==")
  | [x; y] =>
      let n := N.lor (N.shiftl (Byte.to_N x) 8) (Byte.to_N y) in
      String (b64_digit (N.shiftr n 10))
        (String (b64_digit (N.land (N.shiftr n 4) 63))
           (String (b64_digit (N.shiftl (N.land n 15) 2)) "="))
  | x :: y :: z :: rest =>
      let n := N.lor (N.shiftl (Byte.to_N x) 16)
                 (N.lor (N.shiftl (Byte.to_N y) 8) (Byte.to_N z)) in
      String (b64_digit (N.shiftr n 18))
        (String (b64_digit (N.land (N.shiftr n 12) 63))
           (String (b64_digit (N.land (N.shiftr n 6) 63))
              (String (b64_digit (N.land n 63)) (base64 rest))))
  end.

(** ** Results, errors and what a fetch produces *)

Inductive Error :=
  | JsError (message : string)     (* [new Error(message)] *)
  | AxiosError (message : string)  (* rejection of [axios.post] *)
  | TypeError.                     (* raised by the runtime *)

Inductive Outcome (A : Type) :=
  | Returned (a : A)
  | Thrown (e : Error).
Arguments Returned {A} a.
Arguments Thrown {A} e.

(** The object built by [analyzeSentinelData]: placeholder indicators
    drawn from [Math.random()], opaque to the pipeline. *)
Record Analysis := {
  a_ndvi : jsnum;
  a_ndwi : jsnum;
  floodRisk : jsnum;
  waterPercentage : jsnum;
  vegetationPercentage : jsnum;
  urbanPercentage : jsnum;
  barePercentage : jsnum;
  a_cloudCoverage : jsnum;
  surfaceTemperature : string;
  floodDepth : string;
}.

Record Metadata := {
  md_timestamp : string;
  md_bbox : jsval;
  md_cloudCoverage : jsval;
  md_source : string;
}.

(** The object [result] of [getSatelliteData]; [None] is [null]. *)
Record Payload := {
  truecolor : option string;
  ndvi : option string;
  ndwi : option string;
  scl : option string;
  metadata : Metadata;
  analysis : Analysis;
}.

(** ** Process-wide state *)

(** [this.tokenExpiry]: [null] until the first exchange, then the number
    [Date.now() + expires_in * 1000], which is [NaN] when the reply
    carries no [expires_in]. *)
Inductive Expiry :=
  | ExpNull
  | ExpAt (t : Z)
  | ExpNaN.

(** [expiry > now] as JS evaluates it ([null] converts to 0, any
    comparison with [NaN] is false). *)
Definition expiry_gt (e : Expiry) (now : Z) : bool :=
  match e with
  | ExpNull => 0 >? now
  | ExpAt t => t >? now
  | ExpNaN => false
  end.

Record Service := {
  clientId : jsval;
  clientSecret : jsval;
  token : jsval;
  tokenExpiry : Expiry;
}.

(** What [new SentinelHubService()] builds. *)
Definition new_service (clientId clientSecret : jsval) : Service :=
  {| clientId := clientId; clientSecret := clientSecret;
     token := JNull; tokenExpiry := ExpNull |}.

(** A value of the [cache] map: [{ timestamp, data }]. *)
Record CacheEntry := {
  timestamp : Z;
  data : Payload;
}.

Abbreviation Cache := (gmap string CacheEntry).

(** Accesses to the two remote endpoints and to the cache, in the order
    in which they are made. *)
Inductive Event :=
  | TokenExchange (grant_type : string) (client_id client_secret : jsval)
  | ProcessRequest (authorization : string) (bbox width height maxCloudCoverage : jsval)
  | CacheHas (key : string)
  | CacheGet (key : string)
  | CacheSet (key : string).

Definition is_network (ev : Event) : bool :=
  match ev with
  | TokenExchange _ _ _ | ProcessRequest _ _ _ _ _ => true
  | _ => false
  end.


Record World := {
  service : Service;
  cache : Cache;
  trace : list Event;
}.

(** ** Computations over the world

    An [async] function is a state transformer that either returns or
    throws; [None] is reserved for a loop counter that ran out. *)

Definition M (A : Type) : Type := World -> option (Outcome A * World).

Definition ret {A} (a : A) : M A := fun w => Some (Returned a, w).

Definition throw {A} (e : Error) : M A := fun w => Some (Thrown e, w).

Definition bind {A B} (m : M A) (k : A -> M B) : M B :=
  fun w =>
    match m w with
    | Some (Returned a, w') => k a w'
    | Some (Thrown e, w') => Some (Thrown e, w')
    | None => None
    end.

(** [try { m } catch (error) { handler error }] *)
Definition try_catch {A} (m : M A) (handler : Error -> M A) : M A :=
  fun w =>
    match m w with
    | Some (Thrown e, w') => handler e w'
    | r => r
    end.

Definition terminating {A} (o : option A) : M A :=
  fun w =>
    match o with
    | Some a => Some (Returned a, w)
    | None => None
    end.

Definition emit (ev : Event) : M unit :=
  fun w =>
    Some (Returned tt,
          {| service := service w; cache := cache w; trace := trace w ++ [ev] |}).

Definition get_service : M Service := fun w => Some (Returned (service w), w).

Definition set_service (s : Service) : M unit :=
  fun w => Some (Returned tt, {| service := s; cache := cache w; trace := trace w |}).

Definition get_cache : M Cache := fun w => Some (Returned (cache w), w).

Definition set_cache (c : Cache) : M unit :=
  fun w => Some (Returned tt, {| service := service w; cache := c; trace := trace w |}).

Declare Scope js_scope.
Delimit Scope js_scope with js.
Notation "'let!' x ':=' m 'in' k" := (bind m (fun x => k))
  (at level 10, x name, m at level 100, k at level 200) : js_scope.
Notation "'let!' ' x ':=' m 'in' k" := (bind m (fun x => k))
  (at level 10, x strict pattern, m at level 100, k at level 200) : js_scope.
Notation "m ';;' k" := (bind m (fun _ => k))
  (at level 100, k at level 200, right associativity) : js_scope.
Open Scope js_scope.

(** [cache.has(key)], [cache.get(key)], [cache.set(key, value)] *)
Definition cache_has (key : string) : M bool :=
  emit (CacheHas key);;
  let! c := get_cache in
  ret (bool_decide (is_Some (c !! key))).

Definition cache_get (key : string) : M (option CacheEntry) :=
  emit (CacheGet key);;
  let! c := get_cache in
  ret (c !! key).

Definition cache_set (key : string) (value : CacheEntry) : M unit :=
  emit (CacheSet key);;
  let! c := get_cache in
  set_cache (<[key := value]> c).

(** ** SentinelHubService.getAccessToken *)

(** [response.data] of the token endpoint, reduced to the two fields the
    code reads: [access_token] as it arrives ([JUndefined] when absent)
    and [expires_in], a whole number of seconds ([None] when absent, in
    which case [expires_in * 1000] is [NaN]).  Replies whose [expires_in]
    is another JSON value (a fraction, a string, an object, on which the
    multiplication of line 89 may even throw after line 88 has stored
    the token) are outside this type. *)
Record TokenData := {
  access_token : jsval;
  expires_in : option Z;
}.

(** What [await axios.post(tokenUrl, ...)] does: reject (non-2xx status,
    network failure), or resolve with a response whose [data] is an
    object, or resolve with a response whose [data] is [null]. *)
Inductive TokenReply :=
  | TokenRejected (message : string)
  | TokenResolved (data : option TokenData).

(** The three things the world supplies to one call: [Date.now()] at the
    validity test, the reply of the endpoint, and [Date.now()] when the
    reply is stored. *)
Record TokenEnv := {
  te_now : Z;
  te_reply : TokenReply;
  te_now_stored : Z;
}.

Definition expiry_after (now : Z) (expires_in : option Z) : Expiry :=
  match expires_in with
  | Some seconds => ExpAt (now + seconds * 1000)
  | None => ExpNaN
  end.

Definition getAccessToken (env : TokenEnv) : M jsval :=
  let! this := get_service in
  if truthy (token this) && expiry_gt (tokenExpiry this) (te_now env)
  then ret (token this)
  else
    try_catch
      (emit (TokenExchange "client_credentials" (clientId this) (clientSecret this));;
       let! response_data :=
         match te_reply env with
         | TokenRejected message => throw (AxiosError message)
         | TokenResolved d => ret d
         end in
       match response_data with
       | None => throw TypeError
       | Some d =>
           set_service
             {| clientId := clientId this; clientSecret := clientSecret this;
                token := access_token d;
                tokenExpiry := expiry_after (te_now_stored env) (expires_in d) |};;
           ret (access_token d)
       end)
      (fun error => throw (JsError "Authentication failed with Sentinel Hub")).

(** ** The orchestrator, the request handler and the cache sweep *)

(** What [await axios.post(processUrl, ...)] does: reject, or resolve
    with the [content-type] response header ([None] when the header is
    absent) and the body as a [Buffer]. *)
Inductive ProcessReply :=
  | ProcessRejected (message : string)
  | ProcessResolved (content_type : option string) (body : Buffer).

(** What the world supplies to one call of [getSatelliteData]. *)
Record FetchEnv := {
  fe_now_lookup : Z;          (* [Date.now()] at the freshness test *)
  fe_token : TokenEnv;        (* for the nested [getAccessToken] *)
  fe_reply : ProcessReply;    (* reply of the processing endpoint *)
  fe_iso_time : string;       (* [new Date().toISOString()] *)
  fe_analysis : Analysis;     (* outcome of [analyzeSentinelData] *)
  fe_now_stored : Z;          (* [Date.now()] at [cache.set] *)
}.

Section Pipeline.

(** [String(n)] for a JS number. *)
Variable num_to_string : jsnum -> string.

(** The numeric value of [process.env.CACHE_DURATION || 3600000]. *)
Variable CACHE_DURATION : Z.

(** The string that ToString yields on a JSON value on which it
    completes (see [stringifies]); [Array.prototype.join] renders [null]
    and [undefined] elements as the empty string. *)
Fixpoint js_to_string (v : jsval) : string :=
  match v with
  | JUndefined => "undefined"
  | JNull => "null"
  | JBool true => "true"
  | JBool false => "false"
  | JNum n => num_to_string n
  | JStr s => s
  | JArr items =>
      join_strings ","
        (List.map (fun e => match e with
                            | JUndefined | JNull => ""%string
                            | _ => js_to_string e
                            end) items)
  | JObj _ => "[object Object]"
  end.

(** [const { width = 512, height = 512, maxCloudCoverage = 30 } = options]
    with the parameter default [options = {}]. *)
Definition with_default (v : jsval) (d : Z) : jsval :=
  match v with
  | JUndefined => JNum (Finite (Qc_of_Z d))
  | _ => v
  end.

Definition destructure_options (options : jsval) : M (jsval * jsval * jsval) :=
  match options with
  | JNull => throw TypeError
  | _ =>
      ret (with_default (get_property options "width") 512,
           with_default (get_property options "height") 512,
           with_default (get_property options "maxCloudCoverage") 30)
  end.

(** ToString as a template literal or [join] applies it: the string, or
    a TypeError. *)
Definition ToString (v : jsval) : M string :=
  if stringifies v then ret (js_to_string v) else throw TypeError.

(** The text of [`${bbox.join(",")}-${width}-${height}`] for an array
    [bbox], when the three conversions complete. *)
Definition key_string (bbox width height : jsval) : string :=
  js_to_string bbox ++ "-" ++ js_to_string width ++ "-" ++ js_to_string height.

(** [const cacheKey = `${bbox.join(",")}-${width}-${height}`].  Only an
    array has a [join] method: on anything else the call throws; [join]
    and the two interpolations convert to string, from left to right. *)
Definition cacheKey (bbox width height : jsval) : M string :=
  match bbox with
  | JArr _ =>
      let! joined := ToString bbox in
      let! w := ToString width in
      let! h := ToString height in
      ret (joined ++ "-" ++ w ++ "-" ++ h)%string
  | _ => throw TypeError
  end.

(** [parts.name ? `data:${mime};base64,${parts.name.toString("base64")}` : null];
    a Buffer is an object, hence truthy even when empty. *)
Definition data_uri (mime : string) (part : option Buffer) : option string :=
  match part with
  | Some content => Some ("data:" ++ mime ++ ";base64," ++ base64 content)%string
  | None => None
  end.

(** The "Check cache" block: the payload of the entry under [key] when
    there is one and it is younger than [CACHE_DURATION]. *)
Definition lookup_cache (now : Z) (key : string) : M (option Payload) :=
  let! hit := cache_has key in
  if hit then
    let! cached := cache_get key in
    match cached with
    | Some entry =>
        if now - timestamp entry <? CACHE_DURATION
        then ret (Some (data entry))
        else ret None
    | None => ret None
    end
  else ret None.

(** The object [result], with [result.analysis] filled in. *)
Definition build_result (env : FetchEnv) (bbox maxCloudCoverage : jsval)
    (parts : Parts) : Payload :=
  {| truecolor := data_uri "image/png" (parts !! "truecolor"%string);
     ndvi := data_uri "image/tiff" (parts !! "ndvi"%string);
     ndwi := data_uri "image/tiff" (parts !! "ndwi"%string);
     scl := data_uri "image/tiff" (parts !! "scl"%string);
     metadata :=
       {| md_timestamp := fe_iso_time env;
          md_bbox := bbox;
          md_cloudCoverage := maxCloudCoverage;
          md_source := "Sentinel-2 L2A" |};
     analysis := fe_analysis env |}.

(** The body of the [try] block: authenticate, write the credential into
    the [Authorization] header ([`Bearer ${token}`], a conversion to
    string), call the processing endpoint, decode, assemble, store. *)
Definition fetch_and_store (env : FetchEnv) (key : string)
    (bbox width height maxCloudCoverage : jsval) : M Payload :=
  let! tok := getAccessToken (fe_token env) in
  let! bearer := ToString tok in
  emit (ProcessRequest ("Bearer " ++ bearer)
          bbox width height maxCloudCoverage);;
  let! response :=
    match fe_reply env with
    | ProcessRejected message => throw (AxiosError message)
    | ProcessResolved content_type body => ret (content_type, body)
    end in
  let! boundary :=
    match response.1 with
    | Some content_type => ret (extractBoundary content_type)
    | None => throw TypeError
    end in
  let! parts := terminating (parseMultipartResponse response.2 boundary) in
  let result := build_result env bbox maxCloudCoverage parts in
  cache_set key {| timestamp := fe_now_stored env; data := result |};;
  ret result.

Definition getSatelliteData (env : FetchEnv) (bbox options : jsval) : M Payload :=
  let! '(width, height, maxCloudCoverage) := destructure_options options in
  let! key := cacheKey bbox width height in
  let! fresh := lookup_cache (fe_now_lookup env) key in
  match fresh with
  | Some payload => ret payload
  | None =>
      try_catch
        (fetch_and_store env key bbox width height maxCloudCoverage)
        (fun error => throw error)
  end.

(** The error text of the 400 reply. *)
Definition invalid_bbox_message : string :=
  "Invalid bbox. Expected [minLon, minLat, maxLon, maxLat]".

(** Replies of the [POST /api/satellite-data] handler. *)
Inductive Response :=
  | BadRequest (error : string)              (* status 400 *)
  | Success (payload : Payload)              (* status 200 *)
  | ServerError (error : Error).             (* status 500 *)

(** The handler body, [req.body] being the parsed JSON of the request. *)
Definition post_satellite_data (env : FetchEnv) (body : jsval) : M Response :=
  try_catch
    (let! '(bbox, options) :=
       match body with
       | JUndefined | JNull => throw TypeError
       | _ => ret (get_property body "bbox", get_property body "options")
       end in
     if negb (truthy bbox) || negb (isArray bbox)
        || negb (match bbox with
                 | JArr items => bool_decide (length items = 4%nat)
                 | _ => false
                 end)
     then ret (BadRequest invalid_bbox_message)
     else
       let! payload := getSatelliteData env bbox options in
       ret (Success payload))
    (fun error => ret (ServerError error)).

(** One step of the sweep loop: [if (now - value.timestamp > maxAge)
    { cache.delete(key); removed++ }]. *)
Definition sweep_entry (maxAge now : Z) (st : Cache * nat)
    (kv : string * CacheEntry) : Cache * nat :=
  if now - timestamp kv.2 >? maxAge
  then (delete kv.1 st.1, S st.2)
  else st.

(** [for (const [key, value] of cache.entries()) ...]: every entry is
    visited once; deleting the visited entry does not disturb the
    iteration. *)
Definition sweep (maxAge now : Z) (c : Cache) : Cache * nat :=
  foldl (sweep_entry maxAge now) (c, 0%nat) (map_to_list c).

(** The hourly cron task; the value returned is the count it logs. *)
Definition clean_cache (now : Z) : M nat :=
  let! c := get_cache in
  let '(c', removed) := sweep CACHE_DURATION now c in
  set_cache c';;
  ret removed.

(** The cache key of a request. *)
Definition request_key (bbox options : jsval) : string :=
  key_string bbox
    (with_default (get_property options "width") 512)
    (with_default (get_property options "height") 512).

(** No entry for the key is live at the instant [now]. *)
Definition cache_miss (c : Cache) (key : string) (now : Z) : Prop :=
  forall e, c !! key = Some e -> ~ (now - timestamp e < CACHE_DURATION).

Definition process_event (tok bbox wd ht mcc : jsval) : Event :=
  ProcessRequest ("Bearer " ++ js_to_string tok) bbox wd ht mcc.

End Pipeline.

(** ** The scheduled token refresh and the cache endpoints *)

(** The scheduled refresh task (cron pattern [*/50 * * * *]):
    [await getAccessToken()] inside a [try] whose [catch] only logs.
    The boolean tells which of the two messages is logged. *)
Definition refresh_token (env : TokenEnv) : M bool :=
  try_catch (getAccessToken env;; ret true) (fun error => ret false).

(** [POST /api/cache/clear]: [cache.clear()], then a reply that carries
    [cache.size]. *)
Definition post_cache_clear : M nat :=
  set_cache ∅;;
  let! c := get_cache in
  ret (size c).

(** [Math.min(...values)] on integers, for a list that the engine
    accepts as an argument list; without arguments it is [Infinity]. *)
Inductive Minimum :=
  | MinInfinity
  | MinOf (t : Z).

Definition Math_min (values : list Z) : Minimum :=
  match values with
  | [] => MinInfinity
  | t :: values' => MinOf (foldl Z.min t values')
  end.

(** The reply of [GET /api/cache/stats]; [None] is [null].  The keys
    are listed in the order of [map_to_list]: the insertion order that
    the source's [Map] iterates in is not recorded in [Cache]. *)
Record CacheStats := {
  cs_size : nat;
  cs_keys : list string;
  cs_oldestEntry : option Minimum;
}.

Definition get_cache_stats : M CacheStats :=
  let! c := get_cache in
  ret {| cs_size := size c;
         cs_keys := (map_to_list c).*1;
         cs_oldestEntry :=
           if bool_decide (0 < size c)%nat
           then Some (Math_min ((fun kv => timestamp kv.2) <$> map_to_list c))
           else None |}.

Set Warnings "-inexact-float".

(** ** FloodModelingService and [POST /api/flood-analysis]

    The numbers of this service are JS numbers, that is binary64
    floats: they are the primitive floats of Rocq, whose operations
    round as the IEEE 754 operations of JS do. *)

(** [v || d] for a [v] that is a number or is absent: [0], [-0] and
    [NaN] are falsy. *)
Definition or_number (v : option float) (d : float) : float :=
  match v with
  | Some x => if PrimFloat.is_zero x || PrimFloat.is_nan x then d else x
  | None => d
  end.

(** [v || d] for a [v] that is a string or is absent: the empty string
    is falsy. *)
Definition or_string (v : option string) (d : string) : string :=
  match v with
  | Some EmptyString | None => d
  | Some s => s
  end.

(** [Math.max(x, y)] and [Math.min(x, y)]: [NaN] if an argument is
    [NaN]; [+0] is larger than [-0]. *)
Definition Math_max_num (x y : float) : float :=
  if PrimFloat.is_nan x || PrimFloat.is_nan y then PrimFloat.nan
  else if PrimFloat.ltb x y then y
  else if PrimFloat.ltb y x then x
  else if PrimFloat.get_sign x then y else x.

Definition Math_min_num (x y : float) : float :=
  if PrimFloat.is_nan x || PrimFloat.is_nan y then PrimFloat.nan
  else if PrimFloat.ltb x y then x
  else if PrimFloat.ltb y x then y
  else if PrimFloat.get_sign x then x else y.

(** The float of a non-negative integer below [2^63]. *)
Definition float_of_Z (n : Z) : float := PrimFloat.of_uint63 (Uint63.of_Z n).

(** [Math.round(x)]: the integer closest to [x], the larger one in a
    tie; [-0] for [-0.5 <= x < 0]; zeros, infinities and [NaN] are
    returned as they are.  A finite [x] is [±m * 2^e]: it is an integer
    when [0 <= e], and [floor (x + 1/2)] is computed on integers
    otherwise. *)
Definition Math_round (x : float) : float :=
  match Prim2SF x with
  | S754_finite s m e =>
      if (0 <=? e)%Z then x
      else
        let k := (- e)%Z in
        let twice := if s then (- (2 * Z.pos m))%Z else (2 * Z.pos m)%Z in
        let n := ((twice + 2 ^ k) / 2 ^ (k + 1))%Z in
        if (n =? 0)%Z then (if s then PrimFloat.neg_zero else PrimFloat.zero)
        else if (n <? 0)%Z then PrimFloat.opp (float_of_Z (- n))
        else float_of_Z n
  | _ => x
  end.

(** [terrainData], for fields that are numbers and a string when they
    are present. *)
Record TerrainData := {
  elevation : option float;
  distanceToRiver : option float;
  soilType : option string;
}.

Definition calculateFloodRisk (terrainData : TerrainData) (waterLevel : float)
  : float :=
  let elevation := or_number (elevation terrainData) 0 in
  let distanceToRiver := or_number (distanceToRiver terrainData) 1000 in
  let soilType := or_string (soilType terrainData) "clay" in
  let risk := 0%float in
  let risk :=
    if PrimFloat.ltb elevation waterLevel then (risk + 0.5)%float
    else if PrimFloat.ltb elevation (waterLevel + 2) then (risk + 0.3)%float
    else risk in
  let risk :=
    if PrimFloat.ltb distanceToRiver 100 then (risk + 0.4)%float
    else if PrimFloat.ltb distanceToRiver 500 then (risk + 0.2)%float
    else risk in
  let risk :=
    if String.eqb soilType "clay" then (risk + 0.2)%float
    else if String.eqb soilType "sand" then (risk - 0.1)%float
    else risk in
  Math_min_num 1 (Math_max_num 0 risk).

Record RiskZone := {
  rz_radius : float;
  rz_risk : float;
  rz_color : string;
}.

(** The body of the loop of [generateRiskZones] for one [i]. *)
Definition risk_zone (maxDistance i : float) : RiskZone :=
  {| rz_radius := ((i + 1) * (maxDistance / 3))%float;
     rz_risk := (1 - i * 0.3)%float;
     rz_color := if PrimFloat.eqb i 0 then "#ff5252"
                 else if PrimFloat.eqb i 1 then "#ffeb3b" else "#4caf50" |}.

(** [for (let i = 0; i < 3; i++) zones.push(...)]; [source] is not
    used. *)
Definition generateRiskZones (maxDistance : float) : list RiskZone :=
  [risk_zone maxDistance 0; risk_zone maxDistance 1; risk_zone maxDistance 2].

Record FloodPrediction := {
  affectedArea : float;
  maxDistance : float;
  timeToReach : float;
  riskZones : list RiskZone;
}.

Definition Math_PI : float := 3.141592653589793%float.

(** The terrain that the handler passes: a mock. *)
Definition mock_terrain : TerrainData :=
  {| elevation := Some 5%float; distanceToRiver := Some 200%float;
     soilType := Some "clay"%string |}.

(** The [data] of a 200 reply of [POST /api/flood-analysis]. *)
Record FloodAnalysis := {
  currentRisk : float;
  prediction : FloodPrediction;
  satelliteAnalysis : Analysis;
  affectedBuildings : float;
  recommendedEvacuation : bool;
}.

Inductive FloodResponse :=
  | FloodBadRequest (error : string)         (* status 400 *)
  | FloodSuccess (analysed : FloodAnalysis)  (* status 200 *)
  | FloodServerError (error : Error).        (* status 500 *)

Section FloodAnalysisHandler.

Variable num_to_string : jsnum -> string.
Variable CACHE_DURATION : Z.

(** [Math.pow], which the language leaves to the implementation. *)
Variable Math_pow : float -> float -> float.

(** [waterSource] and [terrain] are not used. *)
Definition predictFloodSpread (hours : float) : FloodPrediction :=
  let spreadRate := 0.1%float in
  let maxDistance := (spreadRate * hours)%float in
  {| affectedArea := (Math_PI * Math_pow maxDistance 2)%float;
     maxDistance := maxDistance;
     timeToReach := hours;
     riskZones := generateRiskZones maxDistance |}.

(** The handler, for a body whose [bbox] is any JSON value and whose
    [waterLevel] is a number or is absent. *)
Definition post_flood_analysis (env : FetchEnv) (bbox : jsval)
    (waterLevel : option float) : M FloodResponse :=
  try_catch
    (if negb (truthy bbox) then ret (FloodBadRequest "bbox required")
     else
       let! satelliteData :=
         getSatelliteData num_to_string CACHE_DURATION env bbox JUndefined in
       let floodRisk := calculateFloodRisk mock_terrain (or_number waterLevel 1) in
       let floodPrediction := predictFloodSpread 24 in
       ret (FloodSuccess
              {| currentRisk := floodRisk;
                 prediction := floodPrediction;
                 satelliteAnalysis := analysis satelliteData;
                 affectedBuildings := Math_round (floodRisk * 42);
                 recommendedEvacuation := PrimFloat.ltb 0.7 floodRisk |}))
    (fun error => ret (FloodServerError error)).

End FloodAnalysisHandler.

(** ** Auxiliary notions used in the statements *)

(** Iterations left from a position: none after [-1], otherwise at most
    the number of bytes that remain. *)
Definition remaining (buffer : Buffer) (pos : Z) : nat :=
  if pos =? -1 then 0%nat else Z.to_nat (blen buffer - pos).

(** [s] has no occurrence of the character [c]. *)
Definition free_of (c : ascii) (s : string) : Prop :=
  span_not c s = (s, EmptyString).

Definition marker (boundary : option string) : Buffer :=
  Buffer_from ("--" ++ interpolate boundary).

Definition end_marker (boundary : option string) : Buffer :=
  Buffer_from ("--" ++ interpolate boundary ++ "--").

(** A body without its last two bytes. *)
Definition trim2 (body : Buffer) : Buffer := take (length body - 2) body.

Definition content_id_header (id : string) : Buffer :=
  Buffer_from ("Content-ID: <" ++ id ++ ">").

(** The offsets [1 .. length E - 1] at none of which [bb] occurs in
    [E ++ bb]. *)
Definition marker_only_at_ends (bb E : Buffer) : bool :=
  forallb (fun j => negb (starts_with bb (drop j (E ++ bb))))
    (seq 1 (length E - 1)).

(** A part that the encoding delimits unambiguously: the Content-ID is
    not empty and has no [>], the first empty line of the encoded part is
    the one that ends its header, and the boundary marker occurs in the
    encoded part followed by a marker only at its two ends. *)
Definition part_ok (boundary : string) (p : string * Buffer) : Prop :=
  let bb := marker (Some boundary) in
  let E := encode_part boundary p in
  p.1 <> EmptyString
  /\ free_of ">" p.1
  /\ search CRLFCRLF E = Some (length bb + 2 + length (content_id_header p.1))%nat
  /\ marker_only_at_ends bb E = true.

(** What the decoder stores for a part that a marker follows. *)
Definition store_trimmed (parts : Parts) (p : string * Buffer) : Parts :=
  obj_set p.1 (trim2 p.2) parts.

(** No part is named [__proto__]: the text [Content-ID: <__proto__>]
    occurs nowhere in the buffer. *)
Definition plain_names (buffer : Buffer) : Prop :=
  indexOf buffer (content_id_header "__proto__") 0 = -1.

(** The header block that the decoder reads for the part whose boundary
    marker begins at [pos]: what lies between the line break after the
    marker and the next header delimiter. *)
Definition header_block (buffer : Buffer) (boundary : option string) (pos : Z)
  : string :=
  toString (slice buffer (pos + blen (marker boundary) + 2)
              (indexOf buffer CRLFCRLF pos)).

(** No part of the buffer carries a Content-ID: wherever a boundary
    marker begins and a header delimiter follows it, the header block in
    between has none. *)
Definition no_content_ids (buffer : Buffer) (boundary : option string) : Prop :=
  forall pos : nat,
    starts_with (marker boundary) (drop pos buffer) = true ->
    indexOf buffer CRLFCRLF (Z.of_nat pos) <> -1 ->
    match_content_id (header_block buffer boundary (Z.of_nat pos)) = None.

(** Every header block that the decoder reads is ASCII text, on which
    [toString] is Node's conversion. *)
Definition ascii_headers (buffer : Buffer) (boundary : option string) : Prop :=
  forall pos : nat,
    starts_with (marker boundary) (drop pos buffer) = true ->
    indexOf buffer CRLFCRLF (Z.of_nat pos) <> -1 ->
    forallb (fun b => (Byte.to_N b <? 128)%N)
      (slice buffer (Z.of_nat pos + blen (marker boundary) + 2)
         (indexOf buffer CRLFCRLF (Z.of_nat pos))) = true.

(** A part written with an arbitrary header line, which may or may not
    be a Content-ID, and a sequence of such parts. *)
Definition encode_headed (boundary : string) (p : string * Buffer) : Buffer :=
  Buffer_from ("--" ++ boundary) ++ CRLF
  ++ Buffer_from p.1 ++ CRLFCRLF
  ++ p.2 ++ CRLF.

Definition encode_all_headed (boundary : string) (ps : list (string * Buffer))
  : Buffer :=
  concat (map (encode_headed boundary) ps).

(** Such a part is delimited unambiguously: the first empty line of the
    encoded part is the one that ends its header, and the boundary marker
    occurs in the encoded part followed by a marker only at its two
    ends. *)
Definition headed_ok (boundary : string) (p : string * Buffer) : Prop :=
  let bb := marker (Some boundary) in
  let E := encode_headed boundary p in
  search CRLFCRLF E = Some (length bb + 2 + length (Buffer_from p.1))%nat
  /\ marker_only_at_ends bb E = true.

(** What the decoder does with such a part when a marker follows it:
    nothing when the header line has no Content-ID. *)
Definition store_headed (parts : Parts) (p : string * Buffer) : Parts :=
  match match_content_id p.1 with
  | Some id => obj_set id (trim2 p.2) parts
  | None => parts
  end.

(** The parts whose header line carries a Content-ID. *)
Definition named_parts (ps : list (string * Buffer)) : list (string * Buffer) :=
  filter (fun p => is_Some (match_content_id p.1)) ps.

(** An entry is stale when its age exceeds [maxAge]. *)
Definition stale (maxAge now : Z) (e : CacheEntry) : Prop :=
  maxAge < now - timestamp e.

#[global] Instance stale_dec maxAge now e : Decision (stale maxAge now e) :=
  Z_lt_dec maxAge (now - timestamp e).

(** [cache.set] for each entry of a list, in order. *)
Definition cache_set_all (entries : list (string * CacheEntry)) (c : Cache)
  : Cache :=
  foldl (fun c kv => <[kv.1 := kv.2]> c) c entries.

(** A rendering of numbers for the examples: [String(n)] on the integers
    of magnitude below 1e21 (above, JS switches to exponent notation),
    the infinities and [NaN]. *)
Definition render_number (n : jsnum) : string :=
  match n with
  | Finite q =>
      let num := QArith_base.Qnum (Qcanon.this q) in
      let den := QArith_base.Qden (Qcanon.this q) in
      if bool_decide (den = 1%positive) then pretty num
      else pretty num +:+ "/" +:+ pretty (Zpos den)
  | PosInfinity => "Infinity"
  | NegInfinity => "-Infinity"
  | NaN => "NaN"
  end.

Definition JInt (z : Z) : jsval := JNum (Finite (Qc_of_Z z)).

(** The world right after start-up. *)
Definition boot : World :=
  {| service := new_service (JStr "id") (JStr "secret"); cache := ∅; trace := [] |}.

Definition no_analysis : Analysis :=
  {| a_ndvi := NaN; a_ndwi := NaN; floodRisk := NaN; waterPercentage := NaN;
     vegetationPercentage := NaN; urbanPercentage := NaN; barePercentage := NaN;
     a_cloudCoverage := NaN; surfaceTemperature := "NaN"; floodDepth := "0.00" |}.

(** The exchange request sent for a service. *)
Definition exchange_event (s : Service) : Event :=
  TokenExchange "client_credentials" (clientId s) (clientSecret s).

(** The service after a credential and its expiry have been stored. *)
Definition with_token (s : Service) (tok : jsval) (exp : Expiry) : Service :=
  {| clientId := clientId s; clientSecret := clientSecret s;
     token := tok; tokenExpiry := exp |}.

(** The world after one more access has been recorded. *)
Definition logged (evs : list Event) (w : World) : World :=
  {| service := service w; cache := cache w; trace := trace w ++ evs |}.

(** The cached credential is usable at [now]. *)
Definition token_valid (s : Service) (now : Z) : bool :=
  truthy (token s) && expiry_gt (tokenExpiry s) now.

(** [getAccessToken] will return a credential: a usable one is cached, or
    the endpoint resolves with an object. *)
Definition token_available (s : Service) (env : TokenEnv) : Prop :=
  token_valid s (te_now env) = true
  \/ exists d, te_reply env = TokenResolved (Some d).

(** The credential that [getAccessToken] hands out, if any: the cached
    one while it is usable, otherwise the [access_token] of the reply. *)
Definition credential (s : Service) (env : TokenEnv) : option jsval :=
  if token_valid s (te_now env) then Some (token s)
  else match te_reply env with
       | TokenResolved (Some d) => Some (access_token d)
       | _ => None
       end.

(** The cache key of a request can be computed: [bbox] is an array and
    the three conversions to string of line 109 complete. *)
Definition key_renders (bbox options : jsval) : bool :=
  isArray bbox && stringifies bbox
  && stringifies (with_default (get_property options "width") 512)
  && stringifies (with_default (get_property options "height") 512).

Definition auth_failed : Error :=
  JsError "Authentication failed with Sentinel Hub".

(** The spec's BoundingBox: four finite numbers with [minLon < maxLon]
    and [minLat < maxLat]. *)
Definition well_formed_bbox (bbox : jsval) : Prop :=
  match bbox with
  | JArr [JNum (Finite minLon); JNum (Finite minLat);
          JNum (Finite maxLon); JNum (Finite maxLat)] =>
      (minLon < maxLon)%Qc /\ (minLat < maxLat)%Qc
  | _ => False
  end.

(** The cache accesses of the "Check cache" block. *)
Definition lookup_events (c : Cache) (key : string) : list Event :=
  match c !! key with
  | Some _ => [CacheHas key; CacheGet key]
  | None => [CacheHas key]
  end.


(** One part named [a] with body [xyz], as a test would encode it. *)
Definition one_part : list (string * Buffer) := [("a"%string, Buffer_from "xyz")].

Definition two_parts : list (string * Buffer) :=
  [("truecolor"%string, Buffer_from "PNGDATA"); ("ndvi"%string, [x00; xff; x0d; x0a; x2d])].

(** A part that carries a Content-Type but no Content-ID. *)
Definition anonymous_part : Buffer :=
  Buffer_from "--b" ++ CRLF ++ Buffer_from "Content-Type: image/png"
  ++ CRLFCRLF ++ Buffer_from "abc" ++ CRLF.

(** A part without a Content-ID whose body holds the text of one. *)
Definition anonymous_naming_body : Buffer :=
  Buffer_from "--b" ++ CRLF ++ Buffer_from "Content-Type: image/png"
  ++ CRLFCRLF ++ Buffer_from "Content-ID: <x>" ++ CRLF ++ closing_marker "b".

(** Four parts, given by header and body: the first and the third have
    no Content-ID, the fourth has a header of two lines. *)
Definition mixed_parts : list (string * Buffer) :=
  [("Content-Type: image/png"%string, Buffer_from "Content-ID: <x>");
   ("Content-ID: <a>"%string, Buffer_from "xyz");
   ("Content-Type: text/plain"%string, Buffer_from "abc");
   (("Content-Type: image/tiff"
     ++ String "013"%char (String "010"%char "Content-ID: <ndvi>"))%string,
    [x00; xff; x0d; x0a; x2d])].

Definition entry_at (t : Z) : CacheEntry :=
  {| timestamp := t;
     data := {| truecolor := None; ndvi := None; ndwi := None; scl := None;
                metadata := {| md_timestamp := ""; md_bbox := JNull;
                               md_cloudCoverage := JNull; md_source := "" |};
                analysis := no_analysis |} |}.

Definition old_entries : list (string * CacheEntry) :=
  [("k1"%string, entry_at 0); ("k2"%string, entry_at 10); ("k3"%string, entry_at 20)].

Definition young_cache : Cache := {[ "k0"%string := entry_at 4000000 ]}.

(** A world in which a credential obtained at instant 1005 with a
    lifetime of 3600 s is cached. *)
Definition warm : World :=
  {| service := with_token (service boot) (JStr "tok") (ExpAt 3601005);
     cache := ∅; trace := [] |}.

Definition token_env (now : Z) (reply : TokenReply) : TokenEnv :=
  {| te_now := now; te_reply := reply; te_now_stored := now + 5 |}.

Definition granted (tok : jsval) (secs : option Z) : TokenReply :=
  TokenResolved (Some {| access_token := tok; expires_in := secs |}).

Definition fetch_env (now : Z) (tr : TokenReply) (pr : ProcessReply) : FetchEnv :=
  {| fe_now_lookup := now; fe_token := token_env now tr; fe_reply := pr;
     fe_iso_time := "2026-01-01T00:00:00.000Z"; fe_analysis := no_analysis;
     fe_now_stored := now + 10 |}.

Definition multipart_reply (body : Buffer) : ProcessReply :=
  ProcessResolved (Some "multipart/mixed; boundary=b"%string) body.

(** A bbox with [minLon > maxLon] and [minLat > maxLat]. *)
Definition inverted_bbox : jsval := JArr [JInt 10; JInt 10; JInt 5; JInt 5].

Definition request (bbox : jsval) : jsval := JObj [("bbox"%string, bbox)].

(** A well-formed bbox and options that set only the cloud-coverage
    bound. *)
Definition sample_bbox : jsval := JArr [JInt 13; JInt 52; JInt 14; JInt 53].

Definition cloud_bound (percent : Z) : jsval :=
  JObj [("maxCloudCoverage"%string, JInt percent)].

(** The reply that carries the two parts of [two_parts]. *)
Definition two_part_reply : ProcessReply :=
  multipart_reply (encode_multipart "b" two_parts).

(** A reply cut off inside the header of its second part. *)
Definition truncated_body : Buffer :=
  encode_parts "b" [("truecolor"%string, Buffer_from "PNGDATA")]
  ++ Buffer_from "--b" ++ CRLF ++ Buffer_from "Content-ID: <nd".

(** The JSON value [{"toString": 1}], on which ToString throws. *)
Definition unprintable : jsval := JObj [("toString"%string, JInt 1)].

(** A cache that holds, under the key of [sample_bbox], an entry stored
    at the instant [t]. *)
Definition cached_at (t : Z) : World :=
  {| service := service warm;
     cache := {[ "13,52,14,53-512-512"%string := entry_at t ]};
     trace := [] |}.

(** * Properties *)

(** ** Searching in buffers *)

Lemma starts_with_app (pat buf : Buffer) :
  starts_with pat buf = true <-> exists r, buf = pat ++ r.
Proof.
  revert buf. induction pat as [|p pat IH]; intros buf; simpl.
  - split; [intros _; by exists buf | done].
  - destruct buf as [|b buf].
    + split; [done | intros [r Hr]; discriminate].
    + rewrite andb_true_iff, IH. split.
      * intros [Hpb [r ->]]. apply Byte.byte_dec_bl in Hpb as ->. by exists r.
      * intros [r Hr]. injection Hr as -> ->. split; [by apply Byte.byte_dec_lb | by exists r].
Qed.

Lemma starts_with_length (pat buf : Buffer) :
  starts_with pat buf = true -> (length pat <= length buf)%nat.
Proof.
  intros [r ->]%starts_with_app. rewrite length_app. lia.
Qed.

Lemma search_Some (pat buf : Buffer) (i : nat) :
  search pat buf = Some i ->
  starts_with pat (drop i buf) = true
  /\ (i + length pat <= length buf)%nat
  /\ forall j, (j < i)%nat -> starts_with pat (drop j buf) = false.
Proof.
  revert i. induction buf as [|b buf IH]; intros i; simpl.
  - destruct (starts_with pat []) eqn:Hs; [|done].
    intros [= <-]. split; [done|]. split; [by apply starts_with_length in Hs | lia].
  - destruct (starts_with pat (b :: buf)) eqn:Hs.
    + intros [= <-]. split; [done|]. split; [by apply starts_with_length in Hs | lia].
    + destruct (search pat buf) as [i'|] eqn:Hi'; [|done].
      intros [= <-]. destruct (IH i' eq_refl) as (H1 & H2 & H3).
      split; [done|]. split; [simpl; lia|].
      intros [|j] Hj; [done|]. simpl. apply H3. lia.
Qed.

Lemma search_None (pat buf : Buffer) (j : nat) :
  search pat buf = None -> starts_with pat (drop j buf) = false.
Proof.
  revert j. induction buf as [|b buf IH]; intros j; simpl.
  - destruct (starts_with pat []) eqn:Hs; [done|]. by rewrite drop_nil.
  - destruct (starts_with pat (b :: buf)) eqn:Hs; [done|].
    destruct (search pat buf) eqn:Hi'; [done|]. intros _.
    destruct j as [|j]; [done|]. simpl. by apply IH.
Qed.

(** The first occurrence is found: a search fails only if there is none. *)
Lemma search_first (pat buf : Buffer) (i : nat) :
  starts_with pat (drop i buf) = true ->
  (forall j, (j < i)%nat -> starts_with pat (drop j buf) = false) ->
  search pat buf = Some i.
Proof.
  intros Hi Hlt. destruct (search pat buf) as [k|] eqn:Hk.
  - apply search_Some in Hk as (Hk1 & _ & Hk3).
    destruct (Nat.lt_trichotomy k i) as [Hlt'|[->|Hgt]]; [|done|].
    + rewrite (Hlt k Hlt') in Hk1. done.
    + rewrite (Hk3 i Hgt) in Hi. done.
  - rewrite (search_None _ _ i Hk) in Hi. done.
Qed.

Lemma clamp_offset_nonneg (buf : Buffer) (i : Z) :
  0 <= i -> clamp_offset buf i = Z.to_nat (Z.min i (blen buf)).
Proof.
  intros Hi. unfold clamp_offset. destruct (i <? 0) eqn:E; [lia|done].
Qed.

Lemma clamp_offset_le (buf : Buffer) (i : Z) :
  (clamp_offset buf i <= length buf)%nat.
Proof.
  unfold clamp_offset, blen. destruct (i <? 0) eqn:E; lia.
Qed.

(** An index returned by [indexOf] is [-1] or a position at or after the
    offset at which the whole needle fits. *)
Lemma indexOf_range (buf value : Buffer) (from : Z) :
  indexOf buf value from = -1
  \/ (Z.of_nat (clamp_offset buf from) <= indexOf buf value from
      /\ indexOf buf value from + blen value <= blen buf).
Proof.
  unfold indexOf. pose proof (clamp_offset_le buf from) as Hc.
  destruct (search value (drop (clamp_offset buf from) buf)) as [i|] eqn:Hs; [right|by left].
  apply search_Some in Hs as (_ & Hlen & _). rewrite length_drop in Hlen.
  unfold blen. lia.
Qed.

Lemma indexOf_found (buf value : Buffer) (from : Z) :
  indexOf buf value from <> -1 ->
  0 <= from <= blen buf ->
  from <= indexOf buf value from
  /\ indexOf buf value from + blen value <= blen buf
  /\ starts_with value (drop (Z.to_nat (indexOf buf value from)) buf) = true.
Proof.
  intros Hne Hfrom. unfold indexOf in *.
  rewrite clamp_offset_nonneg in * by lia.
  replace (Z.min from (blen buf)) with from in * by lia.
  destruct (search value (drop (Z.to_nat from) buf)) as [i|] eqn:Hs; [|done].
  apply search_Some in Hs as (Hst & Hlen & _). rewrite length_drop in Hlen.
  rewrite drop_drop in Hst. unfold blen in *.
  split; [lia|]. split; [lia|]. by rewrite Nat2Z.id.
Qed.

(** ** The decoder loop terminates *)

Arguments indexOf : simpl never.
Arguments slice : simpl never.
Arguments match_content_id : simpl never.
Arguments toString : simpl never.
Arguments Buffer_from : simpl never.

(** One unfolding of the loop, in the shape of the source. *)
Lemma parse_loop_unfold fuel buffer bb end_ pos parts :
  parse_loop (S fuel) buffer bb end_ pos parts =
  if negb (negb (pos =? -1) && (pos <? end_)) then Some parts
  else
    let headersEnd := indexOf buffer CRLFCRLF pos in
    if headersEnd =? -1 then Some parts
    else
      let parts' :=
        match match_content_id
                (toString (slice buffer (pos + blen bb + 2) headersEnd)) with
        | Some contentId =>
            let nextBoundary := indexOf buffer bb (headersEnd + 4) in
            let contentEnd :=
              if negb (nextBoundary =? -1) then nextBoundary - 4 else end_ - 2 in
            obj_set contentId (slice buffer (headersEnd + 4) contentEnd) parts
        | None => parts
        end in
      parse_loop fuel buffer bb end_ (indexOf buffer bb (headersEnd + 4)) parts'.
Proof. reflexivity. Qed.

(** The header delimiter found from a position [pos >= 0] lies at or after
    [pos], and the next boundary search starts strictly later. *)
Lemma headersEnd_bounds (buffer : Buffer) (pos : Z) :
  0 <= pos ->
  indexOf buffer CRLFCRLF pos <> -1 ->
  pos <= indexOf buffer CRLFCRLF pos
  /\ indexOf buffer CRLFCRLF pos + 4 <= blen buffer.
Proof.
  intros Hpos Hne.
  destruct (indexOf_range buffer CRLFCRLF pos) as [|[H1 H2]]; [done|].
  rewrite clamp_offset_nonneg in H1 by done.
  change (blen CRLFCRLF) with 4 in H2. lia.
Qed.

Lemma next_boundary_bounds (buffer bb : Buffer) (h : Z) :
  0 <= h -> h + 4 <= blen buffer ->
  indexOf buffer bb (h + 4) = -1
  \/ (h + 4 <= indexOf buffer bb (h + 4)
      /\ indexOf buffer bb (h + 4) + blen bb <= blen buffer).
Proof.
  intros Hh Hlen.
  destruct (indexOf_range buffer bb (h + 4)) as [|[H1 H2]]; [by left|right].
  rewrite clamp_offset_nonneg in H1 by lia. lia.
Qed.

Lemma parse_loop_total (buffer bb : Buffer) (end_ : Z) (fuel : nat) :
  forall pos parts,
    pos = -1 \/ 0 <= pos ->
    (remaining buffer pos < fuel)%nat ->
    is_Some (parse_loop fuel buffer bb end_ pos parts).
Proof.
  induction fuel as [|fuel IH]; intros pos parts Hpos Hfuel; [lia|].
  rewrite parse_loop_unfold.
  destruct (negb _) eqn:Hguard; [by eexists|].
  apply negb_false_iff, andb_true_iff in Hguard as [Hne Hlt].
  apply negb_true_iff, Z.eqb_neq in Hne.
  destruct Hpos as [?|Hpos]; [done|].
  cbv zeta. destruct (indexOf buffer CRLFCRLF pos =? -1) eqn:Hh; [by eexists|].
  apply Z.eqb_neq in Hh.
  destruct (headersEnd_bounds buffer pos Hpos Hh) as [Hh1 Hh2].
  unfold remaining in Hfuel. destruct (pos =? -1) eqn:E; [lia|].
  apply IH.
  - destruct (next_boundary_bounds buffer bb (indexOf buffer CRLFCRLF pos))
      as [?|[? _]]; [lia|lia|by left|right; lia].
  - unfold remaining.
    destruct (next_boundary_bounds buffer bb (indexOf buffer CRLFCRLF pos))
      as [Hn|[Hn _]]; [lia|lia| |].
    + rewrite Hn. simpl. lia.
    + destruct (indexOf buffer bb _ =? -1); lia.
Qed.

Lemma parse_loop_fuel_mono (buffer bb : Buffer) (end_ : Z) (fuel : nat) :
  forall fuel' pos parts r,
    parse_loop fuel buffer bb end_ pos parts = Some r ->
    (fuel <= fuel')%nat ->
    parse_loop fuel' buffer bb end_ pos parts = Some r.
Proof.
  induction fuel as [|fuel IH]; intros fuel' pos parts r Hr Hle; [done|].
  destruct fuel' as [|fuel']; [lia|].
  rewrite parse_loop_unfold in *.
  destruct (negb _); [done|]. cbv zeta in *.
  destruct (_ =? -1); [done|].
  eapply IH; [exact Hr | lia].
Qed.

Lemma parseMultipartResponse_total (buffer : Buffer) (boundary : option string) :
  is_Some (parseMultipartResponse buffer boundary).
Proof.
  unfold parseMultipartResponse. cbv zeta.
  set (bb := Buffer_from _). set (e := if _ =? -1 then _ else _).
  apply parse_loop_total.
  - destruct (indexOf_range buffer bb 0) as [|[H _]]; [by left|right; lia].
  - unfold remaining.
    destruct (indexOf_range buffer bb 0) as [->|[H _]]; [simpl; lia|].
    destruct (indexOf buffer bb 0 =? -1); unfold blen; lia.
Qed.

(** ** The Content-ID pattern *)

Lemma string_app_cons (a : ascii) (s t : string) :
  (String a s ++ t = String a (s ++ t))%string.
Proof. reflexivity. Qed.

Lemma string_app_assoc (s1 s2 s3 : string) :
  ((s1 ++ s2) ++ s3 = s1 ++ (s2 ++ s3))%string.
Proof.
  induction s1 as [|a s1 IH]; [done|]. rewrite !string_app_cons. by f_equal.
Qed.

Lemma toString_app (b1 b2 : Buffer) :
  toString (b1 ++ b2) = (toString b1 ++ toString b2)%string.
Proof.
  unfold toString, string_of_list_byte.
  induction b1 as [|x b1 IH]; [done|].
  cbn [app List.map string_of_list_ascii]. rewrite string_app_cons. by f_equal.
Qed.

Lemma strip_literal_Some (p s r : string) :
  strip_literal p s = Some r <-> s = (p ++ r)%string.
Proof.
  revert s. induction p as [|a p IH]; intros s; simpl.
  - split; [by intros [= ->] | by intros ->].
  - destruct s as [|b s]; [split; done|].
    destruct (Ascii.eqb a b) eqn:E.
    + apply Ascii.eqb_eq in E as ->. rewrite IH. split; [by intros -> | by intros [= ->]].
    + apply Ascii.eqb_neq in E. split; [done | intros [= -> _]; done].
Qed.

Lemma span_not_split (c : ascii) (s run rest : string) :
  span_not c s = (run, rest) ->
  s = (run ++ rest)%string /\ free_of c run
  /\ (rest = EmptyString \/ exists r, rest = String c r).
Proof.
  unfold free_of. revert run rest. induction s as [|a s IH]; intros run rest; simpl.
  - intros [= <- <-]. auto.
  - destruct (Ascii.eqb a c) eqn:E.
    + apply Ascii.eqb_eq in E as ->. intros [= <- <-]. eauto.
    + destruct (span_not c s) as [run' rest'] eqn:Hs. intros [= <- <-].
      destruct (IH _ _ eq_refl) as (-> & Hfree & Hrest).
      simpl. rewrite E, Hfree. auto.
Qed.

Lemma span_not_free (c : ascii) (run rest : string) :
  free_of c run ->
  span_not c (run ++ String c rest) = (run, String c rest).
Proof.
  unfold free_of. induction run as [|a run IH]; simpl.
  - by rewrite Ascii.eqb_refl.
  - destruct (Ascii.eqb a c) eqn:E; [done|].
    destruct (span_not c run) as [run' rest'] eqn:Hs.
    intros [= -> ->]. by rewrite IH.
Qed.

(** A header block matches the pattern exactly when it contains the
    literal, a non-empty run free of [>], and [>]. *)
Lemma match_content_id_eq (headers : string) :
  match_content_id headers =
  match capture_at "Content-ID: <" ">" headers with
  | Some (id, String _ _) => Some id
  | _ =>
      match headers with
      | EmptyString => None
      | String _ headers' => match_content_id headers'
      end
  end.
Proof. by destruct headers. Qed.

Lemma match_content_id_Some (headers id : string) :
  match_content_id headers = Some id ->
  exists pre rest,
    headers = (pre ++ "Content-ID: <" ++ id ++ String ">" rest)%string
    /\ id <> EmptyString /\ free_of ">" id.
Proof.
  induction headers as [|a headers IH]; rewrite match_content_id_eq.
  - done.
  - destruct (capture_at _ _ _) as [[run rest]|] eqn:Hc.
    + unfold capture_at in Hc.
      destruct (strip_literal _ _) as [r|] eqn:Hp; [|done].
      apply strip_literal_Some in Hp.
      destruct (span_not ">" r) as [[|b run'] rest'] eqn:Hs; [done|].
      injection Hc as <- <-.
      apply span_not_split in Hs as (-> & Hfree & Hrest).
      destruct rest' as [|d rest'].
      * intros (pre & rest & -> & ? & ?)%IH.
        exists (String a pre), rest. done.
      * intros [= <-]. destruct Hrest as [|[r' [= -> <-]]]; [done|].
        exists EmptyString, rest'. rewrite Hp. done.
    + intros (pre & rest & -> & ? & ?)%IH.
      exists (String a pre), rest. done.
Qed.

Lemma match_content_id_intro (pre id rest : string) :
  id <> EmptyString -> free_of ">" id ->
  match_content_id (pre ++ "Content-ID: <" ++ id ++ String ">" rest) <> None.
Proof.
  intros Hid Hfree.
  assert (Hhere : match_content_id ("Content-ID: <" ++ id ++ String ">" rest)
                  = Some id).
  { rewrite match_content_id_eq. unfold capture_at.
    replace (strip_literal _ _) with (Some (id ++ String ">" rest)%string)
      by (symmetry; by apply strip_literal_Some).
    rewrite span_not_free by done. destruct id; done. }
  induction pre as [|a pre IH].
  { change (match_content_id ("Content-ID: <" ++ id ++ String ">" rest) <> None).
    by rewrite Hhere. }
  rewrite string_app_cons, match_content_id_eq.
  destruct (capture_at _ _ _) as [[run [|d rest']]|]; done.
Qed.

(** Matching is monotone: a header found in a slice is found in the whole. *)
Lemma match_content_id_within (s1 s s2 : string) :
  match_content_id (s1 ++ s ++ s2) = None -> match_content_id s = None.
Proof.
  intros Hnone. destruct (match_content_id s) as [id|] eqn:Hs; [|done].
  apply match_content_id_Some in Hs as (pre & rest & -> & Hid & Hfree).
  exfalso. revert Hnone.
  replace (s1 ++ (pre ++ "Content-ID: <" ++ id ++ String ">" rest) ++ s2)%string
    with ((s1 ++ pre) ++ "Content-ID: <" ++ id ++ String ">" (rest ++ s2))%string.
  - by apply match_content_id_intro.
  - rewrite !string_app_assoc. done.
Qed.

Lemma slice_within (buf : Buffer) (a b : Z) :
  exists b1 b2, buf = b1 ++ slice buf a b ++ b2.
Proof.
  unfold slice. exists (take (clamp_offset buf a) buf).
  exists (drop (clamp_offset buf b - clamp_offset buf a) (drop (clamp_offset buf a) buf)).
  by rewrite !take_drop.
Qed.

Lemma no_content_id_in_slice (buf : Buffer) (a b : Z) :
  match_content_id (toString buf) = None ->
  match_content_id (toString (slice buf a b)) = None.
Proof.
  destruct (slice_within buf a b) as (b1 & b2 & Hbuf).
  rewrite Hbuf at 1. rewrite !toString_app. apply match_content_id_within.
Qed.

(** ** Parts without a Content-ID *)

Lemma parse_loop_no_content_id (buffer bb : Buffer) (end_ : Z) (fuel : nat) :
  match_content_id (toString buffer) = None ->
  forall pos parts r,
    parse_loop fuel buffer bb end_ pos parts = Some r -> r = parts.
Proof.
  intros Hnone. induction fuel as [|fuel IH]; intros pos parts r; [done|].
  rewrite parse_loop_unfold.
  destruct (negb _); [by intros [= <-]|]. cbv zeta.
  destruct (_ =? -1); [by intros [= <-]|].
  rewrite no_content_id_in_slice by done. apply IH.
Qed.

(** ** Decoding is invariant under a shift of the buffer *)

Lemma clamp_offset_shift (P R : Buffer) (k : Z) :
  0 <= k ->
  clamp_offset (P ++ R) (blen P + k) = (length P + clamp_offset R k)%nat.
Proof.
  intros Hk. rewrite !clamp_offset_nonneg by (unfold blen; lia).
  unfold blen. rewrite length_app. lia.
Qed.

Lemma drop_shift (P R : Buffer) (n : nat) :
  drop (length P + n) (P ++ R) = drop n R.
Proof. by rewrite <-drop_drop, drop_app_length. Qed.

Lemma indexOf_shift (P R value : Buffer) (k : Z) :
  0 <= k ->
  indexOf (P ++ R) value (blen P + k) =
  if indexOf R value k =? -1 then -1 else blen P + indexOf R value k.
Proof.
  intros Hk. unfold indexOf. rewrite clamp_offset_shift, drop_shift by done.
  destruct (search value _) as [i|]; [|done].
  destruct (_ =? -1) eqn:E; unfold blen in *; lia.
Qed.

Lemma slice_shift (P R : Buffer) (a b : Z) :
  0 <= a -> 0 <= b ->
  slice (P ++ R) (blen P + a) (blen P + b) = slice R a b.
Proof.
  intros Ha Hb. unfold slice. rewrite !clamp_offset_shift, drop_shift by done.
  f_equal. lia.
Qed.

Lemma parse_loop_exhausted (fuel : nat) (b1 b2 bb : Buffer) (e1 e2 : Z) parts :
  parse_loop fuel b1 bb e1 (-1) parts = parse_loop fuel b2 bb e2 (-1) parts.
Proof. by destruct fuel. Qed.

Lemma parse_loop_shift (P R bb : Buffer) (end_ : Z) (fuel : nat) :
  end_ <> 1 ->
  forall pos parts,
    0 <= pos ->
    parse_loop fuel (P ++ R) bb (blen P + end_) (blen P + pos) parts
    = parse_loop fuel R bb end_ pos parts.
Proof.
  intros Hend. induction fuel as [|fuel IH]; intros pos parts Hpos; [done|].
  rewrite !parse_loop_unfold.
  assert (HP : 0 <= blen P) by (unfold blen; lia).
  replace (blen P + pos =? -1) with (pos =? -1) by lia.
  replace (blen P + pos <? blen P + end_) with (pos <? end_) by lia.
  destruct (negb _) eqn:Hguard; [done|].
  apply negb_false_iff, andb_true_iff in Hguard as [_ Hlt%Z.ltb_lt].
  cbv zeta. rewrite indexOf_shift by done.
  destruct (indexOf R CRLFCRLF pos =? -1) eqn:Hh; [done|].
  apply Z.eqb_neq in Hh.
  destruct (headersEnd_bounds R pos Hpos Hh) as [Hh1 Hh2].
  set (h := indexOf R CRLFCRLF pos) in *.
  replace (blen P + h =? -1) with false by lia.
  replace (blen P + pos + blen bb + 2) with (blen P + (pos + blen bb + 2)) by lia.
  rewrite slice_shift by (unfold blen; lia).
  replace (blen P + h + 4) with (blen P + (h + 4)) by lia.
  rewrite indexOf_shift by lia.
  destruct (next_boundary_bounds R bb h) as [Hn|[Hn1 Hn2]]; [lia|lia| |].
  - rewrite Hn. change (-1 =? -1) with true. cbv iota.
    change (negb (-1 =? -1)) with false. cbv iota.
    replace (blen P + end_ - 2) with (blen P + (end_ - 2)) by lia.
    destruct (match_content_id _); [|apply parse_loop_exhausted].
    rewrite slice_shift by lia. apply parse_loop_exhausted.
  - set (n := indexOf R bb (h + 4)) in *.
    replace (n =? -1) with false by lia. cbv iota.
    replace (blen P + n =? -1) with false by lia.
    change (negb false) with true. cbv iota.
    replace (blen P + n - 4) with (blen P + (n - 4)) by lia.
    destruct (match_content_id _); [|apply IH; lia].
    rewrite slice_shift by lia. apply IH. lia.
Qed.

(** A marker that occurs one byte after itself is a run of one byte, so
    the closing marker cannot first occur one byte after a boundary. *)
Lemma self_overlap (bb r1 r' : Buffer) (x : byte) :
  bb ++ r1 = x :: bb ++ r' -> r1 = x :: r'.
Proof.
  revert x. induction bb as [|y bb IH]; intros x; simpl; [done|].
  intros [= -> H]. by apply IH.
Qed.

Lemma closing_marker_overlap (bb R : Buffer) (d : byte) :
  starts_with (d :: bb) R = true ->
  starts_with ((d :: bb) ++ [d; d]) (drop 1 R) = true ->
  starts_with ((d :: bb) ++ [d; d]) R = true.
Proof.
  intros [r1 ->]%starts_with_app [r2 Hr2]%starts_with_app.
  simpl in Hr2. rewrite <-app_assoc in Hr2. simpl in Hr2.
  apply self_overlap in Hr2 as ->.
  apply starts_with_app. exists (d :: r2). simpl. by rewrite <-app_assoc.
Qed.

Lemma Buffer_from_app (s1 s2 : string) :
  Buffer_from (s1 ++ s2) = Buffer_from s1 ++ Buffer_from s2.
Proof.
  unfold Buffer_from, list_byte_of_string.
  induction s1 as [|a s1 IH]; [done|].
  rewrite string_app_cons. cbn [list_ascii_of_string List.map app]. by f_equal.
Qed.

Lemma indexOf_0_first (buf value : Buffer) :
  starts_with value buf = true -> indexOf buf value 0 = 0.
Proof.
  intros H. unfold indexOf. rewrite clamp_offset_nonneg by done.
  replace (Z.to_nat (Z.min 0 (blen buf))) with 0%nat by (unfold blen; lia).
  rewrite drop_0. destruct buf; simpl; by rewrite H.
Qed.

Lemma indexOf_occurrence (buf value : Buffer) (from : Z) :
  indexOf buf value from <> -1 -> 0 <= from <= blen buf ->
  starts_with value (drop (Z.to_nat (indexOf buf value from)) buf) = true.
Proof. intros. by apply indexOf_found. Qed.

(** Searching from a later offset [L] finds what the search from 0 found,
    provided that was not before [L]. *)
Lemma indexOf_skip (buf value : Buffer) (L : Z) :
  0 <= L <= blen buf ->
  indexOf buf value 0 = -1 \/ L <= indexOf buf value 0 ->
  indexOf buf value L = indexOf buf value 0.
Proof.
  intros HL. unfold indexOf. rewrite !clamp_offset_nonneg by lia.
  replace (Z.to_nat (Z.min 0 (blen buf))) with 0%nat by (unfold blen; lia).
  replace (Z.min L (blen buf)) with L by lia. rewrite drop_0.
  destruct (search value buf) as [e|] eqn:He.
  - intros [?|Hle]; [lia|].
    apply search_Some in He as (He1 & He2 & He3).
    rewrite (search_first value (drop (Z.to_nat L) buf) (e - Z.to_nat L)).
    + lia.
    + rewrite drop_drop. by replace (Z.to_nat L + (e - Z.to_nat L))%nat with e by lia.
    + intros j Hj. rewrite drop_drop. apply He3. lia.
  - intros _. destruct (search value (drop _ buf)) as [i|] eqn:Hi; [|done].
    apply search_Some in Hi as (Hi1 & _). rewrite drop_drop in Hi1.
    by rewrite (search_None _ _ _ He) in Hi1.
Qed.

Lemma marker_cons (boundary : option string) :
  marker boundary = x2d :: x2d :: Buffer_from (interpolate boundary).
Proof. unfold marker. by rewrite Buffer_from_app. Qed.

Lemma end_marker_app (boundary : option string) :
  end_marker boundary = marker boundary ++ [x2d; x2d].
Proof.
  unfold end_marker, marker.
  rewrite <-string_app_assoc, Buffer_from_app. done.
Qed.

Lemma parseMultipartResponse_eq (buffer : Buffer) (boundary : option string) :
  parseMultipartResponse buffer boundary =
  parse_loop (S (length buffer)) buffer (marker boundary)
    (if indexOf buffer (end_marker boundary) 0 =? -1 then blen buffer
     else indexOf buffer (end_marker boundary) 0)
    (indexOf buffer (marker boundary) 0) ∅.
Proof. reflexivity. Qed.

(** The end of the scan is never one byte after a boundary marker. *)
Lemma end_not_1 (R : Buffer) (boundary : option string) :
  starts_with (marker boundary) R = true ->
  (if indexOf R (end_marker boundary) 0 =? -1 then blen R
   else indexOf R (end_marker boundary) 0) <> 1.
Proof.
  intros Hbb. destruct (_ =? -1) eqn:He.
  - apply starts_with_length in Hbb. rewrite marker_cons in Hbb.
    simpl in Hbb. unfold blen. lia.
  - intros H1. apply Z.eqb_neq in He.
    assert (0 <= 0 <= blen R) as H0 by (unfold blen; lia).
    pose proof (indexOf_occurrence R (end_marker boundary) 0 He H0) as Hocc.
    rewrite H1 in Hocc. change (Z.to_nat 1) with 1%nat in Hocc.
    rewrite end_marker_app, marker_cons in Hocc. rewrite marker_cons in Hbb.
    pose proof (closing_marker_overlap _ _ _ Hbb Hocc) as Hfirst.
    rewrite <-marker_cons, <-end_marker_app in Hfirst.
    apply indexOf_0_first in Hfirst. lia.
Qed.

(** A leading part whose header block has no Content-ID contributes
    nothing: the scan resumes at the next boundary and decodes what
    follows as if the part were not there. *)
Lemma parse_skips_part (P R : Buffer) (boundary : option string) :
  let buffer := P ++ R in
  let h := indexOf buffer CRLFCRLF 0 in
  indexOf buffer (marker boundary) 0 = 0 ->
  h <> -1 ->
  match_content_id
    (toString (slice buffer (blen (marker boundary) + 2) h)) = None ->
  indexOf buffer (marker boundary) (h + 4) = blen P ->
  (indexOf buffer (end_marker boundary) 0 = -1
   \/ blen P <= indexOf buffer (end_marker boundary) 0) ->
  parseMultipartResponse buffer boundary = parseMultipartResponse R boundary.
Proof.
  intros buffer h Hpos Hh Hnone Hnext Hend.
  assert (HP : 0 <= blen P) by (unfold blen; lia).
  assert (HR : 0 <= blen R) by (unfold blen; lia).
  destruct (headersEnd_bounds buffer 0 ltac:(done) Hh) as [Hh1 Hh2].
  assert (Hlen : blen buffer = blen P + blen R).
  { unfold buffer, blen. rewrite length_app. lia. }
  assert (Hhdef : indexOf buffer CRLFCRLF 0 = h) by done.
  rewrite Hhdef in Hh1, Hh2. clearbody h.
  assert (HbbR : starts_with (marker boundary) R = true).
  { assert (Hne : indexOf buffer (marker boundary) (h + 4) <> -1) by lia.
    apply indexOf_occurrence in Hne; [|lia].
    rewrite Hnext in Hne. unfold buffer, blen in Hne.
    by rewrite Nat2Z.id, drop_app_length in Hne. }
  assert (HPh : h + 4 <= blen P).
  { destruct (next_boundary_bounds buffer (marker boundary) h) as [?|[? _]]; lia. }
  assert (Hbdef : P ++ R = buffer) by done. clearbody buffer.
  pose proof (indexOf_shift P R (end_marker boundary) 0 ltac:(done)) as HeR.
  rewrite Z.add_0_r, Hbdef in HeR.
  rewrite indexOf_skip in HeR by lia.
  assert (HeR0 : indexOf R (end_marker boundary) 0 = -1
                 \/ 0 <= indexOf R (end_marker boundary) 0).
  { destruct (indexOf_range R (end_marker boundary) 0) as [?|[? _]]; [by left|right].
    lia. }
  set (eR := indexOf R (end_marker boundary) 0) in *.
  set (endR := if eR =? -1 then blen R else eR).
  rewrite (parseMultipartResponse_eq buffer), (parseMultipartResponse_eq R).
  fold eR endR. rewrite HeR, Hpos, (indexOf_0_first R) by done.
  replace (if (if eR =? -1 then -1 else blen P + eR) =? -1 then blen buffer
           else if eR =? -1 then -1 else blen P + eR) with (blen P + endR)
    by (unfold endR; destruct (eR =? -1) eqn:E; cbv iota;
        [change (-1 =? -1) with true; cbv iota; lia
        |replace (blen P + eR =? -1) with false by lia; done]).
  rewrite parse_loop_unfold.
  replace (negb (negb (0 =? -1) && (0 <? blen P + endR))) with false
    by (unfold endR; destruct (eR =? -1); lia).
  cbv zeta. rewrite Hhdef. replace (h =? -1) with false by lia.
  rewrite Z.add_0_l, Hnone, Hnext.
  replace (blen P) with (blen P + 0) at 2 by lia.
  rewrite <-Hbdef, parse_loop_shift by (by apply end_not_1 || done).
  destruct (parse_loop_total R (marker boundary) endR (S (length R)) 0 ∅)
    as [r Hr]; [by right|unfold remaining, blen; simpl; lia|].
  rewrite Hr. eapply parse_loop_fuel_mono; [exact Hr|].
  rewrite length_app. unfold blen in *. lia.
Qed.

Lemma parse_no_content_id (buffer : Buffer) (boundary : option string) :
  match_content_id (toString buffer) = None ->
  parseMultipartResponse buffer boundary = Some ∅.
Proof.
  intros Hnone.
  destruct (parseMultipartResponse_total buffer boundary) as [r Hr].
  rewrite Hr. f_equal.
  eapply parse_loop_no_content_id; [exact Hnone | exact Hr].
Qed.

(** ** The cache sweep *)

Section Sweep.

Variables maxAge now : Z.

Abbreviation is_stale := (fun kv : string * CacheEntry => stale maxAge now kv.2).

Lemma sweep_entry_stale st kv :
  stale maxAge now kv.2 ->
  sweep_entry maxAge now st kv = (delete kv.1 st.1, S st.2).
Proof.
  unfold sweep_entry, stale. intros H.
  by replace (now - timestamp kv.2 >? maxAge) with true by lia.
Qed.

Lemma sweep_entry_fresh st kv :
  ~ stale maxAge now kv.2 -> sweep_entry maxAge now st kv = st.
Proof.
  unfold sweep_entry, stale. intros H.
  by replace (now - timestamp kv.2 >? maxAge) with false by lia.
Qed.

(** The loop invariant: after visiting a list of distinct entries of the
    map, the visited stale ones are gone, all other keys are untouched,
    and the counter has advanced by the number of visited stale ones. *)
Lemma sweep_loop (l : list (string * CacheEntry)) :
  NoDup l.*1 ->
  forall (m : Cache) (n : nat),
    (forall k e, (k, e) ∈ l -> m !! k = Some e) ->
    let r := foldl (sweep_entry maxAge now) (m, n) l in
    (forall k,
        r.1 !! k =
        match m !! k with
        | Some e =>
            if decide (k ∈ l.*1 /\ stale maxAge now e) then None else Some e
        | None => None
        end)
    /\ r.2 = (n + length (filter is_stale l))%nat.
Proof.
  induction l as [|[k0 e0] l IH]; intros Hnd m n Hin; cbn [foldl].
  - split; [|simpl; lia]. intros k. simpl. by destruct (m !! k).
  - rewrite fmap_cons in Hnd. apply list.NoDup_cons in Hnd as [Hk0 Hnd].
    assert (Hm0 : m !! k0 = Some e0) by (apply Hin; left).
    destruct (decide (stale maxAge now e0)) as [Hs|Hs].
    + rewrite (sweep_entry_stale (m, n) (k0, e0)) by done. cbn [fst snd].
      rewrite filter_cons_True by done.
      destruct (IH Hnd (delete k0 m) (S n)) as [IH1 IH2].
      { intros k e Hke. rewrite lookup_delete_ne; [apply Hin; by right|].
        intros <-. apply Hk0, list_elem_of_fmap. by exists (k0, e). }
      split; [|rewrite IH2; simpl; lia].
      intros k. rewrite IH1. destruct (decide (k = k0)) as [->|Hne].
      * rewrite lookup_delete_eq, Hm0. rewrite decide_True; [done|].
        split; [left|done].
      * rewrite lookup_delete_ne by done. destruct (m !! k) as [e|]; [|done].
        apply decide_ext. rewrite fmap_cons, elem_of_cons. simpl. tauto.
    + rewrite (sweep_entry_fresh (m, n) (k0, e0)) by done.
      rewrite filter_cons_False by done.
      destruct (IH Hnd m n) as [IH1 IH2].
      { intros k e Hke. apply Hin. by right. }
      split; [|done].
      intros k. rewrite IH1. destruct (m !! k) as [e|] eqn:Hk; [|done].
      apply decide_ext. rewrite fmap_cons, elem_of_cons. simpl.
      split; [tauto|]. intros [[->|?] ?]; [|done]. congruence.
Qed.

Lemma sweep_lookup (c : Cache) (k : string) :
  (sweep maxAge now c).1 !! k =
  match c !! k with
  | Some e => if decide (stale maxAge now e) then None else Some e
  | None => None
  end.
Proof.
  unfold sweep.
  destruct (sweep_loop (map_to_list c) (NoDup_fst_map_to_list c) c 0%nat)
    as [H _]; [by intros k' e ?%elem_of_map_to_list|].
  rewrite H. destruct (c !! k) as [e|] eqn:Hk; [|done].
  apply decide_ext. split; [tauto|]. intros Hs. split; [|done].
  apply list_elem_of_fmap. exists (k, e). by rewrite elem_of_map_to_list.
Qed.

Lemma sweep_filter (c : Cache) :
  (sweep maxAge now c).1 = filter (fun kv => ~ stale maxAge now kv.2) c.
Proof.
  apply map_eq. intros k. rewrite sweep_lookup, map_lookup_filter.
  destruct (c !! k) as [e|]; simpl; [|done].
  destruct (decide (stale maxAge now e)).
  - by rewrite option_guard_False by tauto.
  - by rewrite option_guard_True.
Qed.

Lemma sweep_count (c : Cache) :
  (sweep maxAge now c).2 = length (filter is_stale (map_to_list c)).
Proof.
  unfold sweep.
  destruct (sweep_loop (map_to_list c) (NoDup_fst_map_to_list c) c 0%nat)
    as [_ H]; [by intros k' e ?%elem_of_map_to_list|].
  by rewrite H.
Qed.

(** The reported count is the number of entries that disappeared. *)
Lemma sweep_size (c : Cache) :
  ((sweep maxAge now c).2 + size (sweep maxAge now c).1 = size c)%nat.
Proof.
  rewrite sweep_count, sweep_filter.
  induction c as [|k e c Hk IH] using map_ind.
  - by rewrite map_to_list_empty, map_filter_empty.
  - rewrite map_to_list_insert by done.
    rewrite map_size_insert_None by done.
    destruct (decide (stale maxAge now e)) as [Hs|Hs].
    + rewrite filter_cons_True by done.
      rewrite map_filter_insert_not' by (simpl; auto || (intros; simplify_eq)).
      simpl. lia.
    + rewrite filter_cons_False by done.
      rewrite map_filter_insert_True by done.
      rewrite map_size_insert_None; [lia|].
      rewrite map_lookup_filter, Hk. done.
Qed.

Lemma cache_set_all_union (entries : list (string * CacheEntry)) (c : Cache) :
  NoDup entries.*1 ->
  cache_set_all entries c = list_to_map entries ∪ c.
Proof.
  unfold cache_set_all. revert c.
  induction entries as [|[k e] l IH]; intros c Hnd; simpl.
  - by rewrite (left_id_L ∅ (∪)).
  - rewrite fmap_cons in Hnd. apply list.NoDup_cons in Hnd as [Hk Hnd].
    rewrite IH by done.
    rewrite <-insert_union_l. symmetry. apply insert_union_r.
    by apply not_elem_of_list_to_map_1.
Qed.

(** After inserting K stale entries under distinct keys into a cache of
    fresh entries, the sweep removes those K and reports K. *)
Lemma sweep_inserted (entries : list (string * CacheEntry)) (c : Cache) :
  NoDup entries.*1 ->
  Forall (fun kv => stale maxAge now kv.2) entries ->
  (forall k e, c !! k = Some e -> ~ stale maxAge now e) ->
  let r := sweep maxAge now (cache_set_all entries c) in
  r.2 = length entries
  /\ forall k, r.1 !! k = if decide (k ∈ entries.*1) then None else c !! k.
Proof.
  intros Hnd Hstale Hfresh r. subst r. rewrite cache_set_all_union by done.
  assert (Hlook : forall k e,
    (list_to_map entries ∪ c : Cache) !! k = Some e <->
    (k, e) ∈ entries \/ ((k ∉ entries.*1) /\ c !! k = Some e)).
  { intros k e. rewrite lookup_union_Some_raw.
    rewrite <-elem_of_list_to_map by done.
    rewrite <-not_elem_of_list_to_map. done. }
  split.
  - rewrite sweep_count. apply Permutation_length, NoDup_Permutation.
    + apply list.NoDup_filter, NoDup_map_to_list.
    + by eapply NoDup_fmap_1.
    + intros [k e]. rewrite list_elem_of_filter, elem_of_map_to_list, Hlook.
      simpl. split.
      * intros [Hs [?|[_ Hc]]]; [done|]. by destruct (Hfresh k e Hc).
      * intros Hin. split; [|by left].
        rewrite list.Forall_forall in Hstale. by apply (Hstale (k, e)).
  - intros k. rewrite sweep_lookup.
    destruct (decide (k ∈ entries.*1)) as [Hin|Hnin].
    + apply list_elem_of_fmap in Hin as ([k' e] & -> & Hin). simpl.
      assert (Hke : (list_to_map entries ∪ c : Cache) !! k' = Some e)
        by (apply Hlook; by left).
      rewrite Hke. rewrite decide_True; [done|].
      rewrite list.Forall_forall in Hstale. by apply (Hstale (k', e)).
    + destruct ((list_to_map entries ∪ c : Cache) !! k) as [e|] eqn:Hk.
      * apply Hlook in Hk as [Hin|[_ Hc]].
        -- destruct Hnin. apply list_elem_of_fmap. by exists (k, e).
        -- rewrite Hc. rewrite decide_False; [done|]. by eapply Hfresh.
      * destruct (c !! k) as [e|] eqn:Hc; [|done].
        assert ((list_to_map entries ∪ c : Cache) !! k = Some e)
          by (apply Hlook; by right). congruence.
Qed.

End Sweep.

Ltac run :=
  unfold getSatelliteData, post_satellite_data, destructure_options, cacheKey,
    cache_has, cache_get, cache_set, getAccessToken, try_catch, bind, ret,
    throw, emit, get_cache, set_cache, get_service, set_service, terminating,
    token_available, token_valid, logged, with_token, exchange_event,
    auth_failed in *.

(** ** The token manager *)

Lemma getAccessToken_reuse (env : TokenEnv) (w : World) :
  token_valid (service w) (te_now env) = true ->
  getAccessToken env w = Some (Returned (token (service w)), w).
Proof. run. by intros ->. Qed.

Lemma getAccessToken_renew (env : TokenEnv) (w : World) (d : TokenData) :
  token_valid (service w) (te_now env) = false ->
  te_reply env = TokenResolved (Some d) ->
  getAccessToken env w =
  Some (Returned (access_token d),
        {| service := with_token (service w) (access_token d)
                        (expiry_after (te_now_stored env) (expires_in d));
           cache := cache w;
           trace := trace w ++ [exchange_event (service w)] |}).
Proof. run. by intros -> ->. Qed.

Lemma getAccessToken_fail (env : TokenEnv) (w : World) :
  token_valid (service w) (te_now env) = false ->
  (exists message, te_reply env = TokenRejected message)
  \/ te_reply env = TokenResolved None ->
  getAccessToken env w =
  Some (Thrown auth_failed, logged [exchange_event (service w)] w).
Proof. run. by intros -> [[m ->]| ->]. Qed.



(** C7, as the code has it.  When an exchange is due, [getAccessToken]
    fails with the authentication error if the request is rejected (a
    non-success status, a transport failure) or the response body is
    [null].  When the endpoint resolves with an object (whose
    [expires_in] is a whole number of seconds or absent), the call does
    not fail, whatever [access_token] is: it stores and returns the
    [access_token] field as it is, [undefined] when the field is
    missing, and sets the expiry to [now + expires_in * 1000], which is
    [NaN] when [expires_in] is missing. *)
Theorem auth_failure_cases (w : World) (env : TokenEnv) :
  token_valid (service w) (te_now env) = false ->
  (forall message, te_reply env = TokenRejected message ->
     getAccessToken env w =
     Some (Thrown auth_failed, logged [exchange_event (service w)] w))
  /\ (te_reply env = TokenResolved None ->
      getAccessToken env w =
      Some (Thrown auth_failed, logged [exchange_event (service w)] w))
  /\ (forall d, te_reply env = TokenResolved (Some d) ->
      let expiry :=
        match expires_in d with
        | Some seconds => ExpAt (te_now_stored env + seconds * 1000)
        | None => ExpNaN
        end in
      getAccessToken env w =
      Some (Returned (access_token d),
            {| service := with_token (service w) (access_token d) expiry;
               cache := cache w;
               trace := trace w ++ [exchange_event (service w)] |})).
Proof.
  intros Hinvalid. split; [|split].
  - intros message Hreply. apply getAccessToken_fail; eauto.
  - intros Hreply. apply getAccessToken_fail; eauto.
  - intros d Hreply expiry. by apply getAccessToken_renew.
Qed.


(** ** The orchestrator *)

Lemma getAccessToken_frame (env : TokenEnv) (w w' : World) (o : Outcome jsval) :
  getAccessToken env w = Some (o, w') -> cache w' = cache w.
Proof.
  unfold getAccessToken, try_catch, bind, ret, throw, emit, get_service, set_service.
  destruct (_ && _); [by intros [= <- <-]|].
  destruct (te_reply env) as [m|[d|]]; by intros [= <- <-].
Qed.

Lemma getAccessToken_total (env : TokenEnv) (w : World) :
  exists o w', getAccessToken env w = Some (o, w').
Proof.
  unfold getAccessToken, try_catch, bind, ret, throw, emit, get_service, set_service.
  destruct (_ && _); [eauto|].
  destruct (te_reply env) as [m|[d|]]; eauto.
Qed.

Lemma getAccessToken_available (env : TokenEnv) (w : World) :
  token_available (service w) env ->
  exists tok w', getAccessToken env w = Some (Returned tok, w').
Proof.
  intros [Hvalid|[d Hd]].
  - eexists _, _. by apply getAccessToken_reuse.
  - destruct (token_valid (service w) (te_now env)) eqn:Hvalid.
    + eexists _, _. by apply getAccessToken_reuse.
    + eexists _, _. by apply getAccessToken_renew.
Qed.

Lemma getAccessToken_credential (env : TokenEnv) (w : World) (tok : jsval) :
  credential (service w) env = Some tok ->
  exists w', getAccessToken env w = Some (Returned tok, w')
             /\ cache w' = cache w.
Proof.
  unfold credential.
  destruct (token_valid (service w) (te_now env)) eqn:Hvalid.
  - intros [= <-]. exists w. by rewrite getAccessToken_reuse.
  - destruct (te_reply env) as [message|[d|]] eqn:Hreply; try done.
    intros [= <-]. eexists. by rewrite (getAccessToken_renew _ _ d).
Qed.

Lemma getAccessToken_returned (env : TokenEnv) (w w' : World) (tok : jsval) :
  getAccessToken env w = Some (Returned tok, w') ->
  credential (service w) env = Some tok.
Proof.
  unfold credential.
  destruct (token_valid (service w) (te_now env)) eqn:Hvalid.
  - rewrite getAccessToken_reuse by done. by intros [= <- <-].
  - destruct (te_reply env) as [message|[d|]] eqn:Hreply.
    + by rewrite getAccessToken_fail by eauto.
    + rewrite (getAccessToken_renew _ _ d) by done. by intros [= <- <-].
    + by rewrite getAccessToken_fail by eauto.
Qed.

Lemma getAccessToken_no_credential (env : TokenEnv) (w : World) :
  credential (service w) env = None ->
  getAccessToken env w =
  Some (Thrown auth_failed, logged [exchange_event (service w)] w).
Proof.
  unfold credential.
  destruct (token_valid (service w) (te_now env)) eqn:Hvalid; [done|].
  destruct (te_reply env) as [message|[d|]] eqn:Hreply; try done;
    intros _; apply getAccessToken_fail; eauto.
Qed.



(** What one call does to the trace: nothing while the cached credential
    is valid, one exchange otherwise. *)
Lemma getAccessToken_trace (env : TokenEnv) (w w' : World) (o : Outcome jsval) :
  getAccessToken env w = Some (o, w') ->
  if token_valid (service w) (te_now env)
  then w' = w
  else trace w' = trace w ++ [exchange_event (service w)].
Proof.
  destruct (token_valid (service w) (te_now env)) eqn:Hvalid.
  - rewrite getAccessToken_reuse by done. by intros [= <- <-].
  - destruct (te_reply env) as [message|[d|]] eqn:Hreply.
    + rewrite getAccessToken_fail by eauto. by intros [= <- <-].
    + rewrite (getAccessToken_renew _ _ d) by done. by intros [= <- <-].
    + rewrite getAccessToken_fail by eauto. by intros [= <- <-].
Qed.

Section PipelineFacts.

Variable num_to_string : jsnum -> string.
Variable CACHE_DURATION : Z.

Abbreviation fetch := (getSatelliteData num_to_string CACHE_DURATION).
Abbreviation handle := (post_satellite_data num_to_string CACHE_DURATION).

Lemma destructure_options_ok (options : jsval) :
  options <> JNull ->
  destructure_options options =
  ret (with_default (get_property options "width") 512,
       with_default (get_property options "height") 512,
       with_default (get_property options "maxCloudCoverage") 30).
Proof. by destruct options. Qed.

Lemma lookup_cache_hit now key w entry :
  cache w !! key = Some entry ->
  now - timestamp entry < CACHE_DURATION ->
  lookup_cache CACHE_DURATION now key w =
  Some (Returned (Some (data entry)), logged [CacheHas key; CacheGet key] w).
Proof.
  intros Hentry Hlive.
  unfold lookup_cache, cache_has, cache_get, bind, ret, emit, get_cache, logged.
  simpl. rewrite Hentry. rewrite bool_decide_true by eauto. simpl. rewrite Hentry.
  replace (_ <? CACHE_DURATION) with true by lia.
  by rewrite <-app_assoc.
Qed.

Lemma lookup_cache_miss now key w :
  cache_miss CACHE_DURATION (cache w) key now ->
  lookup_cache CACHE_DURATION now key w =
  Some (Returned None, logged (lookup_events (cache w) key) w).
Proof.
  intros Hmiss.
  unfold lookup_cache, cache_has, cache_get, bind, ret, emit, get_cache, logged,
    lookup_events.
  simpl. destruct (cache w !! key) as [entry|] eqn:Hentry.
  - rewrite bool_decide_true by eauto. simpl. rewrite ?Hentry.
    specialize (Hmiss entry Hentry).
    replace (_ <? CACHE_DURATION) with false by lia.
    by rewrite <-app_assoc.
  - rewrite bool_decide_false; [done|]. by intros [? ?].
Qed.

(** The lookup either serves a live entry or reports a miss; it only
    appends cache accesses to the trace. *)
Lemma lookup_cache_cases now key w :
  (exists entry,
      cache w !! key = Some entry
      /\ now - timestamp entry < CACHE_DURATION
      /\ lookup_cache CACHE_DURATION now key w =
         Some (Returned (Some (data entry)),
               logged [CacheHas key; CacheGet key] w))
  \/ (cache_miss CACHE_DURATION (cache w) key now
      /\ lookup_cache CACHE_DURATION now key w =
         Some (Returned None, logged (lookup_events (cache w) key) w)).
Proof.
  destruct (cache w !! key) as [entry|] eqn:Hentry.
  - destruct (decide (now - timestamp entry < CACHE_DURATION)) as [Hlive|Hdead].
    + left. exists entry. eauto using lookup_cache_hit.
    + right. assert (cache_miss CACHE_DURATION (cache w) key now) as Hmiss.
      { intros e He. congruence. }
      eauto using lookup_cache_miss.
  - right. assert (cache_miss CACHE_DURATION (cache w) key now) as Hmiss.
    { intros e He. congruence. }
    eauto using lookup_cache_miss.
Qed.

(** The [try] block on its own: outcome by outcome. *)
Lemma fetch_and_store_auth env key bbox wd ht mcc w w1 e :
  getAccessToken (fe_token env) w = Some (Thrown e, w1) ->
  fetch_and_store num_to_string env key bbox wd ht mcc w = Some (Thrown e, w1).
Proof. intros H. unfold fetch_and_store, bind at 1. by rewrite H. Qed.

(** A credential that cannot be rendered into the [Authorization] header
    ends the block before the processing request is sent. *)
Lemma fetch_and_store_bad_token env key bbox wd ht mcc w w1 tok :
  getAccessToken (fe_token env) w = Some (Returned tok, w1) ->
  stringifies tok = false ->
  fetch_and_store num_to_string env key bbox wd ht mcc w =
  Some (Thrown TypeError, w1).
Proof.
  intros H Hstr. unfold fetch_and_store, bind at 1. rewrite H.
  unfold bind at 1, ToString. by rewrite Hstr.
Qed.

Lemma fetch_and_store_rejected env key bbox wd ht mcc w w1 tok message :
  getAccessToken (fe_token env) w = Some (Returned tok, w1) ->
  stringifies tok = true ->
  fe_reply env = ProcessRejected message ->
  fetch_and_store num_to_string env key bbox wd ht mcc w =
  Some (Thrown (AxiosError message),
        logged [process_event num_to_string tok bbox wd ht mcc] w1).
Proof.
  intros H Hstr Hreply. unfold fetch_and_store, bind at 1. rewrite H.
  unfold bind at 1, ToString. rewrite Hstr.
  unfold bind, emit, throw, ret. simpl. by rewrite Hreply.
Qed.

Lemma fetch_and_store_no_content_type env key bbox wd ht mcc w w1 tok body :
  getAccessToken (fe_token env) w = Some (Returned tok, w1) ->
  stringifies tok = true ->
  fe_reply env = ProcessResolved None body ->
  fetch_and_store num_to_string env key bbox wd ht mcc w =
  Some (Thrown TypeError, logged [process_event num_to_string tok bbox wd ht mcc] w1).
Proof.
  intros H Hstr Hreply. unfold fetch_and_store, bind at 1. rewrite H.
  unfold bind at 1, ToString. rewrite Hstr.
  unfold bind, emit, throw, ret. simpl. by rewrite Hreply.
Qed.

Lemma fetch_and_store_ok env key bbox wd ht mcc w w1 tok content_type body parts :
  getAccessToken (fe_token env) w = Some (Returned tok, w1) ->
  stringifies tok = true ->
  fe_reply env = ProcessResolved (Some content_type) body ->
  parseMultipartResponse body (extractBoundary content_type) = Some parts ->
  fetch_and_store num_to_string env key bbox wd ht mcc w =
  Some (Returned (build_result env bbox mcc parts),
        {| service := service w1;
           cache := <[key := {| timestamp := fe_now_stored env;
                                data := build_result env bbox mcc parts |}]>
                      (cache w1);
           trace := trace w1 ++ [process_event num_to_string tok bbox wd ht mcc; CacheSet key] |}).
Proof.
  intros H Hstr Hreply Hparts. unfold fetch_and_store, bind at 1. rewrite H.
  unfold bind at 1, ToString. rewrite Hstr.
  unfold bind, emit, ret, throw, terminating, cache_set, get_cache, set_cache.
  simpl. rewrite Hreply. simpl. rewrite Hparts. simpl.
  by rewrite <-app_assoc.
Qed.

(** Whatever happens in the [try] block, it terminates, and it changes
    the cache only when it returns. *)
Lemma fetch_and_store_cases env key bbox wd ht mcc w :
  (exists e w', fetch_and_store num_to_string env key bbox wd ht mcc w
                = Some (Thrown e, w') /\ cache w' = cache w)
  \/ (exists p w', fetch_and_store num_to_string env key bbox wd ht mcc w
                   = Some (Returned p, w')
                   /\ cache w' = <[key := {| timestamp := fe_now_stored env;
                                             data := p |}]> (cache w)).
Proof.
  destruct (getAccessToken_total (fe_token env) w) as ([tok|e] & w1 & Htok).
  - pose proof (getAccessToken_frame _ _ _ _ Htok) as Hc.
    destruct (stringifies tok) eqn:Hstr;
      [|left; eexists _, _; split; [by eapply fetch_and_store_bad_token|done]].
    destruct (fe_reply env) as [message|[content_type|] body] eqn:Hreply.
    + left. eexists _, _. split; [by eapply fetch_and_store_rejected|done].
    + destruct (parseMultipartResponse_total body (extractBoundary content_type))
        as [parts Hparts].
      right. eexists _, _. split; [by eapply fetch_and_store_ok|]. simpl. by rewrite Hc.
    + left. eexists _, _. split; [by eapply fetch_and_store_no_content_type|done].
  - left. eexists _, _. split; [by eapply fetch_and_store_auth|].
    by eapply getAccessToken_frame.
Qed.

Lemma null_or_not (v : jsval) : v = JNull \/ v <> JNull.
Proof. destruct v; (by left) || (by right). Qed.

Lemma try_catch_rethrow {A} (m : M A) (w : World) :
  try_catch m (fun error => throw error) w = m w.
Proof. unfold try_catch, throw. by destruct (m w) as [[[a|e] w']|]. Qed.

Lemma fetch_null_options env bbox w :
  fetch env bbox JNull w = Some (Thrown TypeError, w).
Proof. reflexivity. Qed.

Lemma cacheKey_renders bbox options w :
  key_renders bbox options = true ->
  cacheKey num_to_string bbox
    (with_default (get_property options "width") 512)
    (with_default (get_property options "height") 512) w
  = Some (Returned (request_key num_to_string bbox options), w).
Proof.
  unfold key_renders, cacheKey, ToString, request_key, key_string, bind, ret.
  destruct bbox; try done. cbn [isArray andb].
  intros [[-> ->]%andb_true_iff ->]%andb_true_iff. done.
Qed.

Lemma cacheKey_fails bbox options w :
  key_renders bbox options = false ->
  cacheKey num_to_string bbox
    (with_default (get_property options "width") 512)
    (with_default (get_property options "height") 512) w
  = Some (Thrown TypeError, w).
Proof.
  unfold key_renders, cacheKey, ToString, bind, ret, throw.
  destruct bbox; try done. cbn [isArray andb].
  destruct (stringifies (JArr items)); [|done].
  destruct (stringifies (with_default (get_property options "width") 512)); [|done].
  by destruct (stringifies (with_default (get_property options "height") 512)).
Qed.

(** A request whose key cannot be computed fails before any access. *)
Lemma fetch_no_key env bbox options w :
  key_renders bbox options = false ->
  fetch env bbox options w = Some (Thrown TypeError, w).
Proof.
  intros Hkey. destruct (null_or_not options) as [->|Hopt]; [done|].
  unfold getSatelliteData. rewrite destructure_options_ok by done.
  unfold bind at 1, ret at 1. unfold bind at 1.
  by rewrite cacheKey_fails.
Qed.

Lemma key_renders_array bbox options :
  key_renders bbox options = true -> exists items, bbox = JArr items.
Proof. destruct bbox; try done. eauto. Qed.

(** A request whose key can be computed and whose options are not [null]
    first looks its key up, and runs the [try] block on a miss. *)
Lemma fetch_unfold env items options w :
  options <> JNull ->
  key_renders (JArr items) options = true ->
  fetch env (JArr items) options w =
  match lookup_cache CACHE_DURATION (fe_now_lookup env)
          (request_key num_to_string (JArr items) options) w with
  | Some (Returned (Some payload), w1) => Some (Returned payload, w1)
  | Some (Returned None, w1) =>
      fetch_and_store num_to_string env (request_key num_to_string (JArr items) options)
        (JArr items)
        (with_default (get_property options "width") 512)
        (with_default (get_property options "height") 512)
        (with_default (get_property options "maxCloudCoverage") 30) w1
  | Some (Thrown e, w1) => Some (Thrown e, w1)
  | None => None
  end.
Proof.
  intros Hopt Hkey. unfold getSatelliteData.
  rewrite destructure_options_ok by done.
  unfold bind at 1, ret at 1. unfold bind at 1.
  rewrite cacheKey_renders by done. unfold bind at 1.
  destruct (lookup_cache _ _ _ w) as [[[[p|]|e] w1]|]; try done.
  apply try_catch_rethrow.
Qed.

Lemma fetch_hit env items options w entry :
  options <> JNull ->
  key_renders (JArr items) options = true ->
  cache w !! request_key num_to_string (JArr items) options = Some entry ->
  fe_now_lookup env - timestamp entry < CACHE_DURATION ->
  fetch env (JArr items) options w =
  Some (Returned (data entry),
        logged [CacheHas (request_key num_to_string (JArr items) options);
                CacheGet (request_key num_to_string (JArr items) options)] w).
Proof.
  intros Hopt Hkey Hentry Hlive. rewrite fetch_unfold by done.
  by rewrite (lookup_cache_hit _ _ _ _ Hentry Hlive).
Qed.

Lemma fetch_miss env items options w :
  options <> JNull ->
  key_renders (JArr items) options = true ->
  cache_miss CACHE_DURATION (cache w) (request_key num_to_string (JArr items) options) (fe_now_lookup env) ->
  fetch env (JArr items) options w =
  fetch_and_store num_to_string env (request_key num_to_string (JArr items) options)
    (JArr items)
    (with_default (get_property options "width") 512)
    (with_default (get_property options "height") 512)
    (with_default (get_property options "maxCloudCoverage") 30)
    (logged (lookup_events (cache w) (request_key num_to_string (JArr items) options)) w).
Proof.
  intros Hopt Hkey Hmiss. rewrite fetch_unfold by done.
  by rewrite (lookup_cache_miss _ _ _ Hmiss).
Qed.

(** Every call of [getSatelliteData] ends in one of four ways. *)
Lemma fetch_cases env bbox options w :
  fetch env bbox options w = Some (Thrown TypeError, w)
  \/ (exists entry,
        cache w !! request_key num_to_string bbox options = Some entry
        /\ fetch env bbox options w =
           Some (Returned (data entry),
                 logged [CacheHas (request_key num_to_string bbox options);
                         CacheGet (request_key num_to_string bbox options)] w))
  \/ (exists e w', fetch env bbox options w = Some (Thrown e, w')
                   /\ cache w' = cache w)
  \/ (exists p w',
        fetch env bbox options w = Some (Returned p, w')
        /\ cache w' = <[request_key num_to_string bbox options :=
                          {| timestamp := fe_now_stored env; data := p |}]>
                        (cache w)).
Proof.
  destruct (null_or_not options) as [->|Hopt]; [by left|].
  destruct (key_renders bbox options) eqn:Hkey; [|left; by apply fetch_no_key].
  destruct (key_renders_array _ _ Hkey) as [items ->].
  destruct (lookup_cache_cases (fe_now_lookup env)
              (request_key num_to_string (JArr items) options) w)
    as [(entry & Hentry & Hlive & Hlook)|[Hmiss Hlook]].
  - right; left. exists entry. split; [done|]. by apply fetch_hit.
  - right; right. rewrite fetch_miss by done.
    destruct (fetch_and_store_cases env (request_key num_to_string (JArr items) options)
                (JArr items)
                (with_default (get_property options "width") 512)
                (with_default (get_property options "height") 512)
                (with_default (get_property options "maxCloudCoverage") 30)
                (logged (lookup_events (cache w)
                           (request_key num_to_string (JArr items) options)) w))
      as [(e & w' & -> & Hc)|(p & w' & -> & Hc)].
    + left. by exists e, w'.
    + right. by exists p, w'.
Qed.

Lemma fetch_total env bbox options w :
  exists o w', fetch env bbox options w = Some (o, w').
Proof.
  destruct (fetch_cases env bbox options w)
    as [H|[(entry & _ & H)|[(e & w' & H & _)|(p & w' & H & _)]]]; eauto.
Qed.

Lemma fetch_failure_cache env bbox options w w' e :
  fetch env bbox options w = Some (Thrown e, w') -> cache w' = cache w.
Proof.
  destruct (fetch_cases env bbox options w)
    as [H|[(entry & _ & H)|[(e' & w1 & H & Hc)|(p & w1 & H & _)]]];
    rewrite H; intros [= ]; by subst.
Qed.

Lemma fetch_success_cached env bbox options w w' p :
  fetch env bbox options w = Some (Returned p, w') ->
  exists entry, cache w' !! request_key num_to_string bbox options = Some entry
                /\ data entry = p.
Proof.
  destruct (fetch_cases env bbox options w)
    as [H|[(entry & Hentry & H)|[(e' & w1 & H & Hc)|(p' & w1 & H & Hc)]]];
    rewrite H; intros [= ]; subst.
  - by exists entry.
  - eexists. rewrite Hc. by rewrite lookup_insert_eq.
Qed.

Lemma fetch_auth_failure env items options w :
  options <> JNull ->
  key_renders (JArr items) options = true ->
  cache_miss CACHE_DURATION (cache w) (request_key num_to_string (JArr items) options) (fe_now_lookup env) ->
  credential (service w) (fe_token env) = None ->
  exists w', fetch env (JArr items) options w = Some (Thrown auth_failed, w').
Proof.
  intros Hopt Hkey Hmiss Hcred. rewrite fetch_miss by done.
  eexists. apply fetch_and_store_auth. by apply getAccessToken_no_credential.
Qed.

Lemma fetch_bad_token env items options w tok :
  options <> JNull ->
  key_renders (JArr items) options = true ->
  cache_miss CACHE_DURATION (cache w) (request_key num_to_string (JArr items) options) (fe_now_lookup env) ->
  credential (service w) (fe_token env) = Some tok ->
  stringifies tok = false ->
  exists w', fetch env (JArr items) options w = Some (Thrown TypeError, w').
Proof.
  intros Hopt Hkey Hmiss Hcred Hstr. rewrite fetch_miss by done.
  set (w1 := logged _ w).
  destruct (getAccessToken_credential (fe_token env) w1 tok Hcred) as (w2 & H & _).
  eexists. by eapply fetch_and_store_bad_token.
Qed.

Lemma fetch_transport_failure env items options w tok message :
  options <> JNull ->
  key_renders (JArr items) options = true ->
  cache_miss CACHE_DURATION (cache w) (request_key num_to_string (JArr items) options) (fe_now_lookup env) ->
  credential (service w) (fe_token env) = Some tok ->
  stringifies tok = true ->
  fe_reply env = ProcessRejected message ->
  exists w', fetch env (JArr items) options w
             = Some (Thrown (AxiosError message), w').
Proof.
  intros Hopt Hkey Hmiss Hcred Hstr Hreply. rewrite fetch_miss by done.
  set (w1 := logged _ w).
  destruct (getAccessToken_credential (fe_token env) w1 tok Hcred) as (w2 & H & _).
  eexists. by eapply fetch_and_store_rejected.
Qed.

Lemma fetch_decode_failure env items options w tok body :
  options <> JNull ->
  key_renders (JArr items) options = true ->
  cache_miss CACHE_DURATION (cache w) (request_key num_to_string (JArr items) options) (fe_now_lookup env) ->
  credential (service w) (fe_token env) = Some tok ->
  stringifies tok = true ->
  fe_reply env = ProcessResolved None body ->
  exists w', fetch env (JArr items) options w = Some (Thrown TypeError, w').
Proof.
  intros Hopt Hkey Hmiss Hcred Hstr Hreply. rewrite fetch_miss by done.
  set (w1 := logged _ w).
  destruct (getAccessToken_credential (fe_token env) w1 tok Hcred) as (w2 & H & _).
  eexists. by eapply fetch_and_store_no_content_type.
Qed.

(** Once the processing endpoint has answered with a content type, the
    fetch returns: the payload is assembled from whatever parts the
    decoder found, and stored. *)
Lemma fetch_decoded env items options w tok content_type body parts :
  options <> JNull ->
  key_renders (JArr items) options = true ->
  cache_miss CACHE_DURATION (cache w) (request_key num_to_string (JArr items) options) (fe_now_lookup env) ->
  credential (service w) (fe_token env) = Some tok ->
  stringifies tok = true ->
  fe_reply env = ProcessResolved (Some content_type) body ->
  parseMultipartResponse body (extractBoundary content_type) = Some parts ->
  let p := build_result env (JArr items)
             (with_default (get_property options "maxCloudCoverage") 30) parts in
  exists w',
    fetch env (JArr items) options w = Some (Returned p, w')
    /\ cache w' = <[request_key num_to_string (JArr items) options :=
                      {| timestamp := fe_now_stored env; data := p |}]> (cache w).
Proof.
  intros Hopt Hkey Hmiss Hcred Hstr Hreply Hparts p. rewrite fetch_miss by done.
  set (w1 := logged _ w).
  destruct (getAccessToken_credential (fe_token env) w1 tok Hcred) as (w2 & H & Hc).
  eexists. split; [by eapply fetch_and_store_ok|]. simpl. by rewrite Hc.
Qed.

(** C5, as the code has it.  A call of [getSatelliteData] always
    terminates, either returning a payload or throwing.  When it throws,
    the cache is what it was before the call; when it returns, the
    payload is the one the cache holds under the request key.  It throws
    when the key cannot be computed, when no credential is obtained, when
    the credential cannot be rendered, when the processing request is
    rejected and when the reply has no content type.  Decoding is not a
    stage that fails: whatever body comes with a content type is decoded
    as far as it goes, and the payload assembled from the parts found is
    returned and stored. *)
Theorem fetch_failure_atomic env bbox options w :
  let key := request_key num_to_string bbox options in
  let failed e := exists w', fetch env bbox options w = Some (Thrown e, w') in
  (exists o w', fetch env bbox options w = Some (o, w'))
  /\ (forall e w', fetch env bbox options w = Some (Thrown e, w') ->
        cache w' = cache w)
  /\ (forall p w', fetch env bbox options w = Some (Returned p, w') ->
        exists entry, cache w' !! key = Some entry /\ data entry = p)
  /\ (options = JNull \/ key_renders bbox options = false ->
      fetch env bbox options w = Some (Thrown TypeError, w))
  /\ (options <> JNull -> key_renders bbox options = true ->
      cache_miss CACHE_DURATION (cache w) key (fe_now_lookup env) ->
      (credential (service w) (fe_token env) = None -> failed auth_failed)
      /\ (forall tok,
            credential (service w) (fe_token env) = Some tok ->
            (stringifies tok = false -> failed TypeError)
            /\ (stringifies tok = true ->
                (forall message,
                    fe_reply env = ProcessRejected message ->
                    failed (AxiosError message))
                /\ (forall body,
                      fe_reply env = ProcessResolved None body ->
                      failed TypeError)
                /\ (forall content_type body,
                      fe_reply env = ProcessResolved (Some content_type) body ->
                      plain_names body ->
                      exists parts w',
                        parseMultipartResponse body (extractBoundary content_type)
                        = Some parts
                        /\ fetch env bbox options w
                           = Some (Returned
                                     (build_result env bbox
                                        (with_default
                                           (get_property options "maxCloudCoverage") 30)
                                        parts), w'))))).
Proof.
  intros key failed. subst key failed.
  split; [apply fetch_total|].
  split; [intros e w'; apply fetch_failure_cache|].
  split; [intros p w'; apply fetch_success_cached|].
  split.
  { intros [->|Hkey]; [apply fetch_null_options|by apply fetch_no_key]. }
  intros Hopt Hkey Hmiss.
  destruct (key_renders_array _ _ Hkey) as [items ->].
  split; [by apply fetch_auth_failure|].
  intros tok Hcred. split; [by eapply fetch_bad_token|].
  intros Hstr. split; [|split].
  - intros message Hreply. by eapply fetch_transport_failure.
  - intros body Hreply. by eapply fetch_decode_failure.
  - intros content_type body Hreply _.
    destruct (parseMultipartResponse_total body (extractBoundary content_type))
      as [parts Hparts].
    destruct (fetch_decoded env items options w tok content_type body parts)
      as (w' & Hrun & _); try done.
    by exists parts, w'.
Qed.

(** C10.  On a cache miss, when a credential is obtained and the decoded
    mapping has none of [truecolor], [ndvi], [ndwi], [scl], the fetch
    returns a payload whose four image fields are [null], stores it under
    the request key, and a later request for the same key within the
    max-age window is answered with that payload from the cache, without
    any network access.  (The request is one whose key can be computed,
    the credential one that can be written into the [Authorization]
    header, and the body has no part named [__proto__].) *)
Theorem all_null_payload_cached env items options w tok content_type body parts :
  let bbox := JArr items in
  let key := request_key num_to_string bbox options in
  options <> JNull ->
  key_renders bbox options = true ->
  cache_miss CACHE_DURATION (cache w) key (fe_now_lookup env) ->
  credential (service w) (fe_token env) = Some tok ->
  stringifies tok = true ->
  fe_reply env = ProcessResolved (Some content_type) body ->
  plain_names body ->
  parseMultipartResponse body (extractBoundary content_type) = Some parts ->
  parts !! "truecolor"%string = None -> parts !! "ndvi"%string = None ->
  parts !! "ndwi"%string = None -> parts !! "scl"%string = None ->
  exists p w',
    fetch env bbox options w = Some (Returned p, w')
    /\ truecolor p = None /\ ndvi p = None /\ ndwi p = None /\ scl p = None
    /\ cache w' = <[key := {| timestamp := fe_now_stored env; data := p |}]>
                    (cache w)
    /\ forall env2,
         fe_now_lookup env2 - fe_now_stored env < CACHE_DURATION ->
         fetch env2 bbox options w' =
         Some (Returned p, logged [CacheHas key; CacheGet key] w').
Proof.
  intros bbox key Hopt Hkey Hmiss Hcred Hstr Hreply _ Hparts H1 H2 H3 H4.
  subst bbox key.
  destruct (fetch_decoded env items options w tok content_type body parts)
    as (w' & Hrun & Hc); try done.
  eexists _, w'. split; [exact Hrun|].
  split; [simpl; by rewrite H1|]. split; [simpl; by rewrite H2|].
  split; [simpl; by rewrite H3|]. split; [simpl; by rewrite H4|].
  split; [exact Hc|].
  intros env2 Hlive.
  by rewrite (fetch_hit env2 items options _
                {| timestamp := fe_now_stored env;
                   data := build_result env (JArr items) _ parts |})
    by (done || (rewrite Hc; apply lookup_insert_eq)).
Qed.






(** ** The request handler *)

Lemma handle_no_body env body w :
  body = JUndefined \/ body = JNull ->
  handle env body w = Some (Returned (ServerError TypeError), w).
Proof. by intros [-> | ->]. Qed.

Lemma handle_accepts env body w a b c d :
  body <> JUndefined -> body <> JNull ->
  get_property body "bbox" = JArr [a; b; c; d] ->
  handle env body w =
  match fetch env (JArr [a; b; c; d]) (get_property body "options") w with
  | Some (Returned payload, w') => Some (Returned (Success payload), w')
  | Some (Thrown e, w') => Some (Returned (ServerError e), w')
  | None => None
  end.
Proof.
  intros Hu Hn Hbbox. unfold post_satellite_data, try_catch.
  assert (Hbody : forall (k : jsval * jsval -> M Response),
             bind (match body with
                   | JUndefined | JNull => throw TypeError
                   | _ => ret (get_property body "bbox",
                               get_property body "options")
                   end) k w
             = k (JArr [a; b; c; d], get_property body "options") w).
  { intros k. rewrite <-Hbbox. by destruct body. }
  rewrite Hbody. simpl. unfold bind, ret.
  by destruct (fetch _ _ _ w) as [[[p|e] w']|].
Qed.

(** C8, as the code has it.  A request whose [bbox] is missing, is not
    an array, or does not have exactly four components is answered with
    status 400 and the world is untouched: no cache access and no network
    access precede the rejection.  The components themselves are not
    inspected. *)
Theorem bad_shape_rejected env body w :
  body <> JUndefined -> body <> JNull ->
  (forall a b c d, get_property body "bbox" <> JArr [a; b; c; d]) ->
  handle env body w = Some (Returned (BadRequest invalid_bbox_message), w).
Proof.
  intros Hu Hn Hshape. unfold post_satellite_data, try_catch.
  assert (Hbody : forall (k : jsval * jsval -> M Response),
             bind (match body with
                   | JUndefined | JNull => throw TypeError
                   | _ => ret (get_property body "bbox",
                               get_property body "options")
                   end) k w
             = k (get_property body "bbox", get_property body "options") w).
  { intros k. by destruct body. }
  rewrite Hbody. cbn [fst snd].
  destruct (get_property body "bbox") as [| |bo|n|s| items|fields] eqn:Hb;
    [done|done
    |cbn [isArray negb]; by rewrite orb_true_r
    |cbn [isArray negb]; by rewrite orb_true_r
    |cbn [isArray negb]; by rewrite orb_true_r
    |
    |done].
  destruct items as [|a [|b [|c [|d [|x items]]]]]; try done.
  by destruct (Hshape a b c d).
Qed.

End PipelineFacts.

(** ** Decoding a standard encoding *)

Lemma marker_only_at_ends_spec (bb E : Buffer) (j : nat) :
  marker_only_at_ends bb E = true ->
  (0 < j < length E)%nat ->
  starts_with bb (drop j (E ++ bb)) = false.
Proof.
  unfold marker_only_at_ends. rewrite forallb_forall. intros H Hj.
  apply negb_true_iff, H, in_seq. lia.
Qed.

Lemma starts_with_app_l (pat l l' : Buffer) :
  (length pat <= length l)%nat ->
  starts_with pat (l ++ l') = starts_with pat l.
Proof.
  revert l. induction pat as [|p pat IH]; intros l Hlen; [done|].
  destruct l as [|b l]; simpl in *; [lia|]. rewrite IH by lia. done.
Qed.

Lemma search_app_l (pat l l' : Buffer) (i : nat) :
  search pat l = Some i -> search pat (l ++ l') = Some i.
Proof.
  intros (Hi & Hlen & Hlt)%search_Some. apply search_first.
  - rewrite drop_app_le by lia. rewrite starts_with_app_l; [done|].
    rewrite length_drop. lia.
  - intros j Hj. rewrite drop_app_le by lia. rewrite starts_with_app_l; [by apply Hlt|].
    rewrite length_drop. lia.
Qed.

Lemma slice_take_drop (buf : Buffer) (a n : nat) :
  (a + n <= length buf)%nat ->
  slice buf (Z.of_nat a) (Z.of_nat (a + n)) = take n (drop a buf).
Proof.
  intros Hlen. unfold slice. rewrite !clamp_offset_nonneg by lia.
  unfold blen. f_equal; [lia|f_equal; lia].
Qed.

Lemma toString_Buffer_from (s : string) : toString (Buffer_from s) = s.
Proof. apply string_of_list_byte_of_string. Qed.

Lemma match_content_id_here (id rest : string) :
  id <> EmptyString -> free_of ">" id ->
  match_content_id ("Content-ID: <" ++ id ++ String ">" rest) = Some id.
Proof.
  intros Hid Hfree. rewrite match_content_id_eq. unfold capture_at.
  replace (strip_literal _ _) with (Some (id ++ String ">" rest)%string)
    by (symmetry; by apply strip_literal_Some).
  rewrite span_not_free by done. destruct id; done.
Qed.

Lemma encode_part_split (boundary id : string) (body : Buffer) :
  encode_part boundary (id, body) =
  (marker (Some boundary) ++ CRLF ++ content_id_header id ++ CRLFCRLF)
  ++ body ++ CRLF.
Proof.
  unfold encode_part, marker, content_id_header. cbn [fst snd interpolate].
  by rewrite <-!app_assoc.
Qed.

Lemma encode_part_length (boundary id : string) (body : Buffer) :
  length (encode_part boundary (id, body)) =
  (length (marker (Some boundary)) + 2 + length (content_id_header id) + 4
   + length body + 2)%nat.
Proof. rewrite encode_part_split. rewrite !length_app. simpl. lia. Qed.

Section EncodedPart.

Variables (boundary id : string) (body : Buffer).
Hypothesis Hok : part_ok boundary (id, body).

Let bb := marker (Some boundary).
Let hdr := content_id_header id.
Let E := encode_part boundary (id, body).
Let h0 := (length bb + 2 + length hdr)%nat.

Local Lemma part_length : length E = (h0 + 4 + length body + 2)%nat.
Proof. unfold E, h0, bb, hdr. rewrite encode_part_length. lia. Qed.

Local Lemma part_prefix :
  E = (bb ++ CRLF ++ hdr ++ CRLFCRLF) ++ body ++ CRLF
  /\ length (bb ++ CRLF ++ hdr ++ CRLFCRLF) = (h0 + 4)%nat.
Proof.
  split; [apply encode_part_split|]. rewrite !length_app. simpl. unfold h0. lia.
Qed.

(** The header delimiter of the part is the first one in the buffer. *)
Lemma part_headers_end (R : Buffer) :
  indexOf (E ++ R) CRLFCRLF 0 = Z.of_nat h0.
Proof.
  destruct Hok as (_ & _ & Hsearch & _). cbn [fst] in Hsearch.
  unfold indexOf. rewrite clamp_offset_nonneg by done.
  replace (Z.to_nat (Z.min 0 (blen (E ++ R)))) with 0%nat by (unfold blen; lia).
  rewrite drop_0. unfold E, h0, bb, hdr.
  rewrite (search_app_l _ _ _ _ Hsearch). lia.
Qed.

(** The header block read by the decoder is the Content-ID line. *)
Lemma part_headers (R : Buffer) :
  match_content_id
    (toString (slice (E ++ R) (0 + blen bb + 2) (Z.of_nat h0))) = Some id.
Proof.
  destruct Hok as (Hid & Hfree & _). cbn [fst] in Hid, Hfree.
  destruct part_prefix as [HE Hpre]. pose proof part_length as HlenE.
  replace (0 + blen bb + 2) with (Z.of_nat (length bb + 2)) by (unfold blen; lia).
  replace h0 with (length bb + 2 + length hdr)%nat by done.
  rewrite slice_take_drop by (rewrite length_app; unfold h0 in *; lia).
  rewrite HE, <-!app_assoc.
  replace (bb ++ CRLF ++ hdr ++ CRLFCRLF ++ body ++ CRLF ++ R)
    with ((bb ++ CRLF) ++ hdr ++ CRLFCRLF ++ body ++ CRLF ++ R)
    by (by rewrite <-app_assoc).
  replace (length bb + 2)%nat with (length (bb ++ CRLF))
    by (rewrite length_app; simpl; lia).
  rewrite drop_app_length, take_app_length.
  unfold hdr, content_id_header. rewrite toString_Buffer_from.
  by apply match_content_id_here.
Qed.

(** The bytes from the end of the header up to an offset in the body. *)
Lemma part_content (R : Buffer) (n : nat) :
  (n <= length body)%nat ->
  forall c, Z.to_nat c = (h0 + 4 + n)%nat \/ (n = 0%nat /\ 0 <= c <= Z.of_nat h0 + 4) ->
  slice (E ++ R) (Z.of_nat h0 + 4) c = take n body.
Proof.
  intros Hn c Hc. destruct part_prefix as [HE Hpre]. pose proof part_length as HlenE.
  unfold slice. rewrite (clamp_offset_nonneg _ (Z.of_nat h0 + 4)) by lia.
  replace (Z.to_nat (Z.min (Z.of_nat h0 + 4) (blen (E ++ R)))) with (h0 + 4)%nat
    by (unfold blen; rewrite length_app; lia).
  replace (clamp_offset (E ++ R) c - (h0 + 4))%nat with n.
  - rewrite HE, <-Hpre, <-(app_assoc (bb ++ CRLF ++ hdr ++ CRLFCRLF)).
    rewrite drop_app_length, <-(app_assoc body).
    by rewrite take_app_le by lia.
  - unfold clamp_offset, blen. rewrite length_app.
    destruct (c <? 0) eqn:Hneg; lia.
Qed.

(** One iteration on an encoded part that is followed by a marker: the
    Content-ID is read, the body is stored without its last two bytes,
    and the scan moves to the marker that follows. *)
Lemma part_step (R : Buffer) (fuel : nat) (end_ : Z) (parts : Parts) :
  starts_with bb R = true ->
  0 < end_ ->
  parse_loop (S fuel) (E ++ R) bb end_ 0 parts
  = parse_loop fuel (E ++ R) bb end_ (blen E) (obj_set id (trim2 body) parts).
Proof.
  intros HR Hend. pose proof part_length as HlenE.
  assert (Hnext : indexOf (E ++ R) bb (Z.of_nat h0 + 4) = blen E).
  { destruct Hok as (_ & _ & _ & Hmarker).
    unfold indexOf. rewrite clamp_offset_nonneg by lia.
    replace (Z.to_nat (Z.min (Z.of_nat h0 + 4) (blen (E ++ R)))) with (h0 + 4)%nat
      by (unfold blen; rewrite length_app; lia).
    rewrite (search_first bb _ (length E - (h0 + 4))).
    - unfold blen. lia.
    - rewrite drop_drop.
      replace (h0 + 4 + (length E - (h0 + 4)))%nat with (length E) by lia.
      by rewrite drop_app_length.
    - intros j Hj. rewrite drop_drop.
      apply starts_with_app in HR as [R' ->].
      rewrite app_assoc. rewrite drop_app_le by (rewrite length_app; lia).
      rewrite starts_with_app_l by (rewrite length_drop, length_app; lia).
      apply (marker_only_at_ends_spec bb E _ Hmarker). lia. }
  rewrite parse_loop_unfold.
  replace (negb (negb (0 =? -1) && (0 <? end_))) with false by lia.
  cbv zeta. rewrite part_headers_end.
  replace (Z.of_nat h0 =? -1) with false by lia.
  rewrite part_headers, Hnext.
  replace (negb (blen E =? -1)) with true by (unfold blen; lia).
  rewrite (part_content R (length body - 2)); [done|lia|].
  unfold blen. lia.
Qed.

(** One iteration on an encoded part that ends the buffer: no marker
    follows, the body is stored whole, and the scan is over. *)
Lemma last_step (fuel : nat) (parts : Parts) :
  parse_loop (S (S fuel)) E bb (blen E) 0 parts = Some (obj_set id body parts).
Proof.
  pose proof part_length as HlenE.
  pose proof (part_headers_end []) as Hh.
  pose proof (part_headers []) as Hheaders.
  pose proof (part_content [] (length body) ltac:(done)) as Hcontent.
  rewrite app_nil_r in Hh, Hheaders, Hcontent.
  assert (Hnext : indexOf E bb (Z.of_nat h0 + 4) = -1).
  { destruct Hok as (_ & _ & _ & Hmarker).
    unfold indexOf. rewrite clamp_offset_nonneg by lia.
    replace (Z.to_nat (Z.min (Z.of_nat h0 + 4) (blen E))) with (h0 + 4)%nat
      by (unfold blen; lia).
    destruct (search bb (drop (h0 + 4) E)) as [i|] eqn:Hs; [|done].
    apply search_Some in Hs as (Hi & Hlen & _).
    rewrite drop_drop in Hi. rewrite length_drop in Hlen.
    pose proof (marker_only_at_ends_spec bb E (h0 + 4 + i) Hmarker) as Hno.
    rewrite drop_app_le in Hno by lia.
    rewrite starts_with_app_l in Hno by (rewrite length_drop; lia).
    assert (2 <= length bb)%nat
      by (unfold bb; rewrite marker_cons; simpl; lia).
    rewrite Hno in Hi by lia. done. }
  rewrite parse_loop_unfold.
  replace (negb (negb (0 =? -1) && (0 <? blen E))) with false
    by (unfold blen; lia).
  cbv zeta. rewrite Hh.
  replace (Z.of_nat h0 =? -1) with false by lia.
  rewrite Hheaders, Hnext. change (negb (-1 =? -1)) with false. cbv iota.
  rewrite Hcontent by (left; unfold blen; lia).
  by rewrite firstn_all.
Qed.

End EncodedPart.

Lemma encode_parts_cons (boundary : string) p ps :
  encode_parts boundary (p :: ps)
  = encode_part boundary p ++ encode_parts boundary ps.
Proof. reflexivity. Qed.

Lemma closing_marker_end_marker (boundary : string) :
  closing_marker boundary = end_marker (Some boundary).
Proof. reflexivity. Qed.

Lemma encode_part_starts (boundary : string) p (rest : Buffer) :
  starts_with (marker (Some boundary)) (encode_part boundary p ++ rest) = true.
Proof.
  apply starts_with_app. destruct p as [id body].
  rewrite encode_part_split, <-!app_assoc. eauto.
Qed.

(** What follows an encoded part begins with a marker: that of the next
    part or the closing one. *)
Lemma rest_starts_with_marker (boundary : string) ps :
  starts_with (marker (Some boundary))
    (encode_parts boundary ps ++ closing_marker boundary) = true.
Proof.
  destruct ps as [|p ps].
  - apply starts_with_app. rewrite closing_marker_end_marker, end_marker_app.
    simpl. eauto.
  - rewrite encode_parts_cons, <-app_assoc. apply encode_part_starts.
Qed.

Lemma encode_parts_length_not_1 (boundary : string) ps :
  blen (encode_parts boundary ps) <> 1.
Proof.
  destruct ps as [|[id body] ps]; [done|].
  rewrite encode_parts_cons. unfold blen.
  rewrite length_app, encode_part_length. lia.
Qed.

Lemma decode_loop (boundary : string) (ps : list (string * Buffer)) :
  Forall (part_ok boundary) ps ->
  forall fuel parts,
    let buffer := encode_parts boundary ps ++ closing_marker boundary in
    (length buffer < fuel)%nat ->
    parse_loop fuel buffer (marker (Some boundary))
      (blen (encode_parts boundary ps)) 0 parts
    = Some (foldl store_trimmed parts ps).
Proof.
  induction 1 as [|[id body] ps Hp Hps IH]; intros fuel parts buffer Hfuel.
  - destruct fuel as [|fuel]; [lia|]. reflexivity.
  - destruct fuel as [|fuel]; [lia|]. subst buffer.
    rewrite encode_parts_cons in *. rewrite <-app_assoc in *.
    set (E := encode_part boundary (id, body)) in *.
    set (R := encode_parts boundary ps ++ closing_marker boundary) in *.
    assert (HE : 0 < blen E).
    { unfold E, blen. rewrite encode_part_length. lia. }
    assert (Hlen : blen (E ++ encode_parts boundary ps)
                   = blen E + blen (encode_parts boundary ps)).
    { unfold blen. rewrite length_app. lia. }
    rewrite Hlen in *.
    assert (HP : 0 <= blen (encode_parts boundary ps)) by (unfold blen; lia).
    unfold E at 1. rewrite part_step; [|done|apply rest_starts_with_marker|lia].
    fold E. replace (blen E) with (blen E + 0) at 2 by lia.
    rewrite parse_loop_shift by (by apply encode_parts_length_not_1 || done).
    cbn [foldl]. apply IH.
    rewrite length_app in Hfuel. unfold blen in HE. lia.
Qed.

Lemma decode_loop_open (boundary id : string) (body : Buffer) qs :
  Forall (part_ok boundary) qs ->
  part_ok boundary (id, body) ->
  forall fuel parts,
    let buffer := encode_parts boundary (qs ++ [(id, body)]) in
    (length buffer < fuel)%nat ->
    parse_loop fuel buffer (marker (Some boundary)) (blen buffer) 0 parts
    = Some (obj_set id body (foldl store_trimmed parts qs)).
Proof.
  intros Hqs Hlast.
  induction Hqs as [|[id' body'] qs Hp Hqs IH]; intros fuel parts buffer Hfuel.
  - subst buffer. cbn [app] in *. rewrite encode_parts_cons in *.
    change (encode_parts boundary []) with (@nil byte) in *.
    rewrite app_nil_r in *. rewrite encode_part_length in Hfuel.
    destruct fuel as [|[|fuel]]; [lia|lia|]. by apply last_step.
  - destruct fuel as [|fuel]; [lia|]. subst buffer.
    rewrite <-app_comm_cons in *. rewrite encode_parts_cons in *.
    set (E := encode_part boundary (id', body')) in *.
    set (R := encode_parts boundary (qs ++ [(id, body)])) in *.
    assert (HE : 0 < blen E).
    { unfold E, blen. rewrite encode_part_length. lia. }
    assert (Hlen : blen (E ++ R) = blen E + blen R).
    { unfold blen. rewrite length_app. lia. }
    assert (HR : starts_with (marker (Some boundary)) R = true).
    { unfold R. destruct qs; cbn [app]; rewrite encode_parts_cons;
        apply encode_part_starts. }
    assert (HP : 0 <= blen R) by (unfold blen; lia).
    unfold E at 1. rewrite part_step; [|done|done|lia].
    fold E. rewrite Hlen. replace (blen E) with (blen E + 0) at 2 by lia.
    rewrite parse_loop_shift by (by apply encode_parts_length_not_1 || done).
    cbn [foldl]. apply IH.
    rewrite length_app in Hfuel. unfold blen in HE. lia.
Qed.

Lemma starts_with_prefix (p q l : Buffer) :
  starts_with (p ++ q) l = true -> starts_with p l = true.
Proof.
  intros [r ->]%starts_with_app. apply starts_with_app.
  exists (q ++ r). by rewrite app_assoc.
Qed.

Lemma starts_with_refl (p : Buffer) : starts_with p p = true.
Proof. apply starts_with_app. exists []. by rewrite app_nil_r. Qed.

(** An encoded part begins with a marker that is not the closing one. *)
Lemma end_marker_not_at_part (boundary : string) p (rest : Buffer) :
  starts_with (end_marker (Some boundary)) (encode_part boundary p ++ rest)
  = false.
Proof.
  destruct (starts_with _ _) eqn:Hs; [|done].
  apply starts_with_app in Hs as [r Hr]. destruct p as [id body].
  rewrite encode_part_split, end_marker_app, <-!app_assoc in Hr.
  apply app_inv_head in Hr. discriminate.
Qed.

(** Inside an encoded part that is followed by a marker no marker begins. *)
Lemma marker_not_inside (boundary : string) p (R : Buffer) (j : nat) :
  part_ok boundary p ->
  starts_with (marker (Some boundary)) R = true ->
  (0 < j < length (encode_part boundary p))%nat ->
  starts_with (marker (Some boundary)) (drop j (encode_part boundary p ++ R))
  = false.
Proof.
  intros (_ & _ & _ & Hmarker) [R' ->]%starts_with_app Hj.
  rewrite app_assoc. rewrite drop_app_le by (rewrite length_app; lia).
  rewrite starts_with_app_l by (rewrite length_drop, length_app; lia).
  by apply marker_only_at_ends_spec.
Qed.

(** The closing marker of an encoding is the first one in it. *)
Lemma no_closing_marker_inside (boundary : string) ps :
  Forall (part_ok boundary) ps ->
  forall j, (j < length (encode_parts boundary ps))%nat ->
  starts_with (end_marker (Some boundary))
    (drop j (encode_parts boundary ps ++ closing_marker boundary)) = false.
Proof.
  induction 1 as [|p ps Hp Hps IH]; intros j Hj; [simpl in Hj; lia|].
  rewrite encode_parts_cons in *. rewrite <-app_assoc.
  rewrite length_app in Hj.
  destruct (decide (j = 0%nat)) as [->|Hj0].
  { rewrite drop_0. apply end_marker_not_at_part. }
  destruct (decide (j < length (encode_part boundary p))%nat) as [Hlt|Hge].
  - destruct (starts_with _ _) eqn:Hs; [|done].
    rewrite end_marker_app in Hs. apply starts_with_prefix in Hs.
    rewrite marker_not_inside in Hs; [done|done|apply rest_starts_with_marker|lia].
  - replace j with (length (encode_part boundary p)
                    + (j - length (encode_part boundary p)))%nat by lia.
    rewrite drop_shift. apply IH. lia.
Qed.

Lemma closing_marker_first (boundary : string) ps :
  Forall (part_ok boundary) ps ->
  indexOf (encode_multipart boundary ps) (end_marker (Some boundary)) 0
  = blen (encode_parts boundary ps).
Proof.
  intros Hps. unfold indexOf, encode_multipart.
  rewrite clamp_offset_nonneg by done.
  replace (Z.to_nat (Z.min 0 _)) with 0%nat by (unfold blen; lia).
  rewrite drop_0.
  rewrite (search_first _ _ (length (encode_parts boundary ps))).
  - unfold blen. lia.
  - rewrite drop_app_length, closing_marker_end_marker. apply starts_with_refl.
  - by apply no_closing_marker_inside.
Qed.

Lemma no_end_marker_open (boundary : string) ps :
  Forall (part_ok boundary) ps ->
  indexOf (encode_parts boundary ps) (end_marker (Some boundary)) 0 = -1.
Proof.
  intros Hps.
  destruct (decide (indexOf (encode_parts boundary ps)
                      (end_marker (Some boundary)) 0 = -1)) as [|Hne]; [done|].
  destruct (indexOf_found _ _ 0 Hne) as (H0 & Hfit & Hocc); [unfold blen; lia|].
  set (i := indexOf _ _ 0) in *.
  assert (2 <= blen (end_marker (Some boundary))).
  { rewrite end_marker_app. unfold blen. rewrite length_app. simpl. lia. }
  pose proof (no_closing_marker_inside boundary ps Hps (Z.to_nat i)) as Hno.
  rewrite drop_app_le in Hno by (unfold blen in *; lia).
  rewrite starts_with_app_l in Hno by (rewrite length_drop; unfold blen in *; lia).
  rewrite Hno in Hocc by (unfold blen in *; lia). done.
Qed.

(** Decoding the standard encoding of well-delimited parts yields their
    Content-IDs, each with its body cut short by two bytes. *)
Lemma decode_encode (boundary : string) (ps : list (string * Buffer)) :
  Forall (part_ok boundary) ps ->
  parseMultipartResponse (encode_multipart boundary ps) (Some boundary)
  = Some (foldl store_trimmed ∅ ps).
Proof.
  intros Hps. rewrite parseMultipartResponse_eq.
  rewrite closing_marker_first by done. unfold encode_multipart.
  replace (blen (encode_parts boundary ps) =? -1) with false by (unfold blen; lia).
  rewrite indexOf_0_first by apply rest_starts_with_marker.
  apply decode_loop; [done|lia].
Qed.

(** Without the closing marker the last body is decoded whole. *)
Lemma decode_encode_open (boundary id : string) (body : Buffer) qs :
  Forall (part_ok boundary) (qs ++ [(id, body)]) ->
  parseMultipartResponse (encode_parts boundary (qs ++ [(id, body)]))
    (Some boundary)
  = Some (obj_set id body (foldl store_trimmed ∅ qs)).
Proof.
  intros Hps. rewrite parseMultipartResponse_eq.
  rewrite no_end_marker_open by done. change (-1 =? -1) with true. cbv iota.
  apply Forall_app in Hps as [Hqs [Hlast _]%Forall_cons].
  rewrite indexOf_0_first.
  - apply decode_loop_open; [done|done|lia].
  - destruct qs; cbn [app]; rewrite encode_parts_cons; apply encode_part_starts.
Qed.

Lemma foldl_store_trimmed (ps : list (string * Buffer)) (m : Parts) :
  NoDup ps.*1 -> "__proto__"%string ∉ ps.*1 ->
  foldl store_trimmed m ps = (trim2 <$> list_to_map ps) ∪ m.
Proof.
  revert m. induction ps as [|[k v] ps IH]; intros m Hnd Hproto.
  - cbn. by rewrite fmap_empty, (left_id_L ∅ (∪)).
  - rewrite fmap_cons in Hnd, Hproto. cbn [fst] in Hnd, Hproto.
    apply list.NoDup_cons in Hnd as [Hk Hnd].
    apply not_elem_of_cons in Hproto as [Hne Hproto].
    cbn [foldl list_to_map foldr]. rewrite IH by done.
    unfold store_trimmed, obj_set. cbn [fst snd].
    rewrite decide_False by done.
    rewrite fmap_insert, <-insert_union_l.
    rewrite insert_union_r; [done|].
    rewrite lookup_fmap. by rewrite (not_elem_of_list_to_map_1 _ k).
Qed.

Lemma trim2_shorter (body : Buffer) : body <> [] -> trim2 body <> body.
Proof.
  intros Hne Heq. apply (f_equal length) in Heq.
  unfold trim2 in Heq. rewrite length_take in Heq.
  destruct body; [done|]. simpl in Heq. lia.
Qed.

Ltac part_ok_by_evaluation :=
  repeat first [apply List.Forall_nil | apply List.Forall_cons];
  (split; [discriminate|split; [reflexivity|split; vm_compute; reflexivity]]).

(** C1 (the code departs from it).  The claim: encoding N parts with
    distinct Content-IDs as a standard multipart body and decoding it
    with [parseMultipartResponse] yields those Content-IDs, each mapped
    to its original bytes.  What the code does, for every boundary and
    every list of parts that the encoding delimits unambiguously: the
    result has exactly those Content-IDs, and each is mapped to its body
    without the last two bytes, since a body followed by a marker is
    sliced up to [nextBoundary - 4].  So the result differs from the
    original mapping as soon as one body is not empty. *)
Theorem roundtrip_truncates (boundary : string) (ps : list (string * Buffer)) :
  Forall (part_ok boundary) ps ->
  NoDup ps.*1 ->
  "__proto__"%string ∉ ps.*1 ->
  parseMultipartResponse (encode_multipart boundary ps) (Some boundary)
  = Some (trim2 <$> list_to_map ps)
  /\ (Exists (fun p => p.2 <> []) ps ->
      parseMultipartResponse (encode_multipart boundary ps) (Some boundary)
      <> Some (list_to_map ps)).
Proof.
  intros Hok Hnd Hproto.
  assert (Hdec : parseMultipartResponse (encode_multipart boundary ps)
                   (Some boundary) = Some (trim2 <$> list_to_map ps)).
  { rewrite decode_encode by done.
    by rewrite foldl_store_trimmed, (right_id_L ∅ (∪)). }
  split; [done|].
  intros ([k v] & Hin & Hv)%Exists_exists. cbn [snd] in Hv.
  rewrite Hdec. intros [= Heq].
  apply (f_equal (.!! k)) in Heq.
  rewrite lookup_fmap, (elem_of_list_to_map_1 _ k v) in Heq by done.
  injection Heq as Heq. by apply trim2_shorter in Heq.
Qed.

(** C2 (the code departs from it).  The claim: decoding a content
    terminated by the closing marker and decoding the same content that
    ends at the end of the buffer give identical mappings.  What the code
    does, for every standard encoding of parts: with the closing marker
    the last body loses its last two bytes ([nextBoundary - 4]), without
    it the last body is whole ([end - 2] removes the line break only);
    all other parts are decoded alike.  The two results differ whenever
    the last body is not empty. *)
Theorem closing_marker_changes_result (boundary id : string) (body : Buffer)
    (qs : list (string * Buffer)) :
  Forall (part_ok boundary) (qs ++ [(id, body)]) ->
  let content := encode_parts boundary (qs ++ [(id, body)]) in
  let earlier := foldl store_trimmed ∅ qs in
  parseMultipartResponse (content ++ closing_marker boundary) (Some boundary)
  = Some (obj_set id (trim2 body) earlier)
  /\ parseMultipartResponse content (Some boundary)
     = Some (obj_set id body earlier)
  /\ (id <> "__proto__"%string -> body <> [] ->
      parseMultipartResponse (content ++ closing_marker boundary) (Some boundary)
      <> parseMultipartResponse content (Some boundary)).
Proof.
  intros Hok content earlier.
  assert (Hclosed : parseMultipartResponse (content ++ closing_marker boundary)
                      (Some boundary) = Some (obj_set id (trim2 body) earlier)).
  { pose proof (decode_encode boundary _ Hok) as Hdec.
    by rewrite foldl_app in Hdec. }
  assert (Hopen : parseMultipartResponse content (Some boundary)
                  = Some (obj_set id body earlier))
    by (by apply decode_encode_open).
  split; [done|]. split; [done|].
  intros Hid Hbody. rewrite Hclosed, Hopen. intros [= Heq].
  unfold obj_set in Heq. rewrite !decide_False in Heq by done.
  apply (f_equal (.!! id)) in Heq. rewrite !lookup_insert_eq in Heq.
  injection Heq as Heq. by apply trim2_shorter in Heq.
Qed.

Lemma roundtrip_truncates_witness :
  parseMultipartResponse (encode_multipart "b" one_part) (Some "b"%string)
  = Some {[ "a"%string := Buffer_from "x" ]}
  /\ parseMultipartResponse (encode_multipart "b" one_part) (Some "b"%string)
     <> Some (list_to_map one_part)
  /\ parseMultipartResponse (encode_multipart "b" two_parts) (Some "b"%string)
     = Some {[ "truecolor"%string := Buffer_from "PNGDA";
               "ndvi"%string := [x00; xff; x0d] ]}.
Proof.
  destruct (roundtrip_truncates "b" one_part) as [Hone Hne];
    [part_ok_by_evaluation|compute_done|compute_done|].
  destruct (roundtrip_truncates "b" two_parts) as [Htwo _];
    [part_ok_by_evaluation|compute_done|compute_done|].
  split; [|split].
  - rewrite Hone. vm_compute. reflexivity.
  - apply Hne. apply Exists_cons_hd. discriminate.
  - rewrite Htwo. vm_compute. reflexivity.
Defined.

Lemma closing_marker_changes_result_witness :
  (parseMultipartResponse (encode_parts "b" one_part ++ closing_marker "b")
     (Some "b"%string)
   = Some {[ "a"%string := Buffer_from "x" ]}
   /\ parseMultipartResponse (encode_parts "b" one_part) (Some "b"%string)
      = Some {[ "a"%string := Buffer_from "xyz" ]})
  /\ (parseMultipartResponse (encode_parts "b" two_parts ++ closing_marker "b")
        (Some "b"%string)
      = Some {[ "truecolor"%string := Buffer_from "PNGDA";
                "ndvi"%string := [x00; xff; x0d] ]}
      /\ parseMultipartResponse (encode_parts "b" two_parts) (Some "b"%string)
         = Some {[ "truecolor"%string := Buffer_from "PNGDA";
                   "ndvi"%string := [x00; xff; x0d; x0a; x2d] ]}).
Proof.
  destruct (closing_marker_changes_result "b" "a" (Buffer_from "xyz") [])
    as (Hclosed1 & Hopen1 & _); [part_ok_by_evaluation|].
  destruct (closing_marker_changes_result "b" "ndvi"
              [x00; xff; x0d; x0a; x2d]
              [("truecolor"%string, Buffer_from "PNGDATA")])
    as (Hclosed2 & Hopen2 & _); [part_ok_by_evaluation|].
  split; split.
  - etrans; [exact Hclosed1|]. vm_compute. reflexivity.
  - etrans; [exact Hopen1|]. vm_compute. reflexivity.
  - etrans; [exact Hclosed2|]. vm_compute. reflexivity.
  - etrans; [exact Hopen2|]. vm_compute. reflexivity.
Defined.

(** When the unterminated version also lacks the line break that follows
    the last body, the two results agree: both lose the last two bytes
    of that body. *)
Remark unterminated_before_line_break :
  let content := encode_parts "b" two_parts in
  parseMultipartResponse (take (length content - 2) content) (Some "b"%string)
  = parseMultipartResponse (content ++ closing_marker "b") (Some "b"%string).
Proof. vm_compute. reflexivity. Qed.

(** ** The decoder on malformed and anonymous parts *)

(** C3, counterexample.  The buffer [--b] holds a boundary marker that
    no header delimiter follows, and decoding it returns the empty
    mapping instead of failing. *)
Lemma malformed_body_is_decoded :
  indexOf (Buffer_from "--b") (marker (Some "b"%string)) 0 = 0
  /\ indexOf (Buffer_from "--b") CRLFCRLF 0 = -1
  /\ terminating (parseMultipartResponse (Buffer_from "--b") (Some "b"%string)) boot
     = Some (Returned ∅, boot).
Proof. repeat split; vm_compute; reflexivity. Qed.

Lemma parse_loop_break (buffer bb : Buffer) (end_ pos : Z) (fuel : nat) parts :
  indexOf buffer CRLFCRLF pos = -1 ->
  parse_loop (S fuel) buffer bb end_ pos parts = Some parts.
Proof.
  intros H. rewrite parse_loop_unfold. destruct (negb _); [done|].
  cbv zeta. by rewrite H.
Qed.

(** C3, as the code has it.  The decoder has no error of its own for a
    malformed body.  When no header delimiter follows the boundary marker
    at which the scan stands, the scan stops there and the parts decoded
    before it are the result; in particular the result is empty when
    that happens at the first marker.  For every boundary and every
    buffer in which no part is named [__proto__], decoding returns a
    mapping and leaves the world alone. *)
Theorem decode_never_fails (buffer : Buffer) (boundary : option string) :
  (plain_names buffer ->
   forall w, exists parts,
     terminating (parseMultipartResponse buffer boundary) w
     = Some (Returned parts, w))
  /\ (forall fuel end_ pos parts,
        indexOf buffer CRLFCRLF pos = -1 ->
        parse_loop (S fuel) buffer (marker boundary) end_ pos parts = Some parts)
  /\ (indexOf buffer CRLFCRLF (indexOf buffer (marker boundary) 0) = -1 ->
      parseMultipartResponse buffer boundary = Some ∅).
Proof.
  split; [|split].
  - intros _ w.
    destruct (parseMultipartResponse_total buffer boundary) as [parts H].
    exists parts. unfold terminating. by rewrite H.
  - intros fuel end_ pos parts. apply parse_loop_break.
  - intros H. rewrite parseMultipartResponse_eq. by apply parse_loop_break.
Qed.

Lemma decode_never_fails_witness :
  (exists parts,
      terminating (parseMultipartResponse truncated_body (Some "b"%string)) boot
      = Some (Returned parts, boot))
  /\ parse_loop 1 truncated_body (marker (Some "b"%string)) 61 41
       {[ "truecolor"%string := Buffer_from "PNGDA" ]}
     = Some {[ "truecolor"%string := Buffer_from "PNGDA" ]}
  /\ parseMultipartResponse (Buffer_from "--b") (Some "b"%string) = Some ∅.
Proof.
  destruct (decode_never_fails truncated_body (Some "b"%string))
    as (H1 & H2 & _).
  destruct (decode_never_fails (Buffer_from "--b") (Some "b"%string))
    as (_ & _ & H3).
  split; [apply H1; vm_compute; reflexivity|].
  split; [apply H2|apply H3]; vm_compute; reflexivity.
Defined.

Lemma parse_loop_skip (buffer bb : Buffer) (end_ pos : Z) (fuel : nat) parts :
  pos <> -1 -> pos < end_ ->
  indexOf buffer CRLFCRLF pos <> -1 ->
  match_content_id
    (toString (slice buffer (pos + blen bb + 2) (indexOf buffer CRLFCRLF pos)))
  = None ->
  parse_loop (S fuel) buffer bb end_ pos parts
  = parse_loop fuel buffer bb end_
      (indexOf buffer bb (indexOf buffer CRLFCRLF pos + 4)) parts.
Proof.
  intros Hpos Hend Hh Hnone. rewrite parse_loop_unfold.
  replace (negb (negb (pos =? -1) && (pos <? end_))) with false by lia.
  cbv zeta. replace (indexOf buffer CRLFCRLF pos =? -1) with false by lia.
  by rewrite Hnone.
Qed.

(** The scan only ever stands at [-1] or at a boundary marker, so a
    buffer none of whose header blocks has a Content-ID decodes to what
    the scan started with. *)
Lemma parse_loop_no_ids (buffer : Buffer) (boundary : option string) (end_ : Z)
    (fuel : nat) :
  no_content_ids buffer boundary ->
  forall pos parts r,
    pos = -1
    \/ (0 <= pos
        /\ starts_with (marker boundary) (drop (Z.to_nat pos) buffer) = true) ->
    parse_loop fuel buffer (marker boundary) end_ pos parts = Some r ->
    r = parts.
Proof.
  intros Hno. induction fuel as [|fuel IH]; intros pos parts r Hpos; [done|].
  rewrite parse_loop_unfold.
  destruct (negb _) eqn:Hguard; [by intros [= <-]|].
  apply negb_false_iff, andb_true_iff in Hguard as [Hne _].
  destruct Hpos as [->|[Hpos Hocc]]; [done|].
  cbv zeta. destruct (indexOf buffer CRLFCRLF pos =? -1) eqn:Hh; [by intros [= <-]|].
  apply Z.eqb_neq in Hh.
  pose proof (Hno (Z.to_nat pos) Hocc) as Hnone.
  rewrite Z2Nat.id in Hnone by done. unfold header_block in Hnone.
  rewrite Hnone by done.
  destruct (headersEnd_bounds buffer pos Hpos Hh) as [Hh1 Hh2].
  apply IH.
  destruct (decide (indexOf buffer (marker boundary)
                      (indexOf buffer CRLFCRLF pos + 4) = -1)) as [|Hnext];
    [by left|right].
  destruct (indexOf_found _ _ _ Hnext) as (Hn1 & _ & Hn3); [lia|].
  split; [lia|done].
Qed.

Lemma parse_no_content_ids (buffer : Buffer) (boundary : option string) :
  no_content_ids buffer boundary ->
  parseMultipartResponse buffer boundary = Some ∅.
Proof.
  intros Hno.
  destruct (parseMultipartResponse_total buffer boundary) as [r Hr].
  rewrite Hr. f_equal. rewrite parseMultipartResponse_eq in Hr.
  eapply parse_loop_no_ids; [exact Hno| |exact Hr].
  destruct (decide (indexOf buffer (marker boundary) 0 = -1)) as [|Hfirst];
    [by left|right].
  destruct (indexOf_found _ _ _ Hfirst) as (Hn1 & _ & Hn3); [unfold blen; lia|].
  split; [lia|done].
Qed.

Lemma encode_headed_split (boundary header : string) (body : Buffer) :
  encode_headed boundary (header, body) =
  (marker (Some boundary) ++ CRLF ++ Buffer_from header ++ CRLFCRLF)
  ++ body ++ CRLF.
Proof.
  unfold encode_headed, marker. cbn [fst snd interpolate].
  by rewrite <-!app_assoc.
Qed.

Lemma encode_headed_length (boundary header : string) (body : Buffer) :
  length (encode_headed boundary (header, body)) =
  (length (marker (Some boundary)) + 2 + length (Buffer_from header) + 4
   + length body + 2)%nat.
Proof. rewrite encode_headed_split. rewrite !length_app. simpl. lia. Qed.

Section HeadedPart.

Variables (boundary header : string) (body : Buffer).
Hypothesis Hok : headed_ok boundary (header, body).

Let bb := marker (Some boundary).
Let hdr := Buffer_from header.
Let E := encode_headed boundary (header, body).
Let h0 := (length bb + 2 + length hdr)%nat.

Local Lemma headed_length : length E = (h0 + 4 + length body + 2)%nat.
Proof. unfold E, h0, bb, hdr. rewrite encode_headed_length. lia. Qed.

Local Lemma headed_prefix :
  E = (bb ++ CRLF ++ hdr ++ CRLFCRLF) ++ body ++ CRLF
  /\ length (bb ++ CRLF ++ hdr ++ CRLFCRLF) = (h0 + 4)%nat.
Proof.
  split; [apply encode_headed_split|]. rewrite !length_app. simpl. unfold h0. lia.
Qed.

Lemma headed_headers_end (R : Buffer) :
  indexOf (E ++ R) CRLFCRLF 0 = Z.of_nat h0.
Proof.
  destruct Hok as (Hsearch & _). cbn [fst] in Hsearch.
  unfold indexOf. rewrite clamp_offset_nonneg by done.
  replace (Z.to_nat (Z.min 0 (blen (E ++ R)))) with 0%nat by (unfold blen; lia).
  rewrite drop_0. unfold E, h0, bb, hdr.
  rewrite (search_app_l _ _ _ _ Hsearch). lia.
Qed.

(** The header block read by the decoder is the header line. *)
Lemma headed_headers (R : Buffer) :
  toString (slice (E ++ R) (0 + blen bb + 2) (Z.of_nat h0)) = header.
Proof.
  destruct headed_prefix as [HE Hpre]. pose proof headed_length as HlenE.
  replace (0 + blen bb + 2) with (Z.of_nat (length bb + 2)) by (unfold blen; lia).
  replace h0 with (length bb + 2 + length hdr)%nat by done.
  rewrite slice_take_drop by (rewrite length_app; unfold h0 in *; lia).
  rewrite HE, <-!app_assoc.
  replace (bb ++ CRLF ++ hdr ++ CRLFCRLF ++ body ++ CRLF ++ R)
    with ((bb ++ CRLF) ++ hdr ++ CRLFCRLF ++ body ++ CRLF ++ R)
    by (by rewrite <-app_assoc).
  replace (length bb + 2)%nat with (length (bb ++ CRLF))
    by (rewrite length_app; simpl; lia).
  rewrite drop_app_length, take_app_length.
  unfold hdr. apply toString_Buffer_from.
Qed.

Lemma headed_content (R : Buffer) (n : nat) :
  (n <= length body)%nat ->
  forall c, Z.to_nat c = (h0 + 4 + n)%nat \/ (n = 0%nat /\ 0 <= c <= Z.of_nat h0 + 4) ->
  slice (E ++ R) (Z.of_nat h0 + 4) c = take n body.
Proof.
  intros Hn c Hc. destruct headed_prefix as [HE Hpre]. pose proof headed_length as HlenE.
  unfold slice. rewrite (clamp_offset_nonneg _ (Z.of_nat h0 + 4)) by lia.
  replace (Z.to_nat (Z.min (Z.of_nat h0 + 4) (blen (E ++ R)))) with (h0 + 4)%nat
    by (unfold blen; rewrite length_app; lia).
  replace (clamp_offset (E ++ R) c - (h0 + 4))%nat with n.
  - rewrite HE, <-Hpre, <-(app_assoc (bb ++ CRLF ++ hdr ++ CRLFCRLF)).
    rewrite drop_app_length, <-(app_assoc body).
    by rewrite take_app_le by lia.
  - unfold clamp_offset, blen. rewrite length_app.
    destruct (c <? 0) eqn:Hneg; lia.
Qed.

(** One iteration on such a part when a marker follows it: with a
    Content-ID the body is stored (without its last two bytes), without
    one nothing is stored; either way the scan moves to the marker that
    follows. *)
Lemma headed_step (R : Buffer) (fuel : nat) (end_ : Z) (parts : Parts) :
  starts_with bb R = true ->
  0 < end_ ->
  parse_loop (S fuel) (E ++ R) bb end_ 0 parts
  = parse_loop fuel (E ++ R) bb end_ (blen E) (store_headed parts (header, body)).
Proof.
  intros HR Hend. pose proof headed_length as HlenE.
  assert (Hnext : indexOf (E ++ R) bb (Z.of_nat h0 + 4) = blen E).
  { destruct Hok as (_ & Hmarker).
    unfold indexOf. rewrite clamp_offset_nonneg by lia.
    replace (Z.to_nat (Z.min (Z.of_nat h0 + 4) (blen (E ++ R)))) with (h0 + 4)%nat
      by (unfold blen; rewrite length_app; lia).
    rewrite (search_first bb _ (length E - (h0 + 4))).
    - unfold blen. lia.
    - rewrite drop_drop.
      replace (h0 + 4 + (length E - (h0 + 4)))%nat with (length E) by lia.
      by rewrite drop_app_length.
    - intros j Hj. rewrite drop_drop.
      apply starts_with_app in HR as [R' ->].
      rewrite app_assoc. rewrite drop_app_le by (rewrite length_app; lia).
      rewrite starts_with_app_l by (rewrite length_drop, length_app; lia).
      apply (marker_only_at_ends_spec bb E _ Hmarker). lia. }
  rewrite parse_loop_unfold.
  replace (negb (negb (0 =? -1) && (0 <? end_))) with false by lia.
  cbv zeta. rewrite headed_headers_end.
  replace (Z.of_nat h0 =? -1) with false by lia.
  rewrite headed_headers, Hnext. unfold store_headed. cbn [fst snd].
  destruct (match_content_id header) as [id|]; [|done].
  replace (negb (blen E =? -1)) with true by (unfold blen; lia).
  rewrite (headed_content R (length body - 2)); [done|lia|].
  unfold blen. lia.
Qed.

End HeadedPart.

Lemma encode_all_headed_cons (boundary : string) p ps :
  encode_all_headed boundary (p :: ps)
  = encode_headed boundary p ++ encode_all_headed boundary ps.
Proof. reflexivity. Qed.

Lemma encode_headed_starts (boundary : string) p (rest : Buffer) :
  starts_with (marker (Some boundary)) (encode_headed boundary p ++ rest) = true.
Proof.
  apply starts_with_app. destruct p as [header body].
  rewrite encode_headed_split, <-!app_assoc. eauto.
Qed.

Lemma headed_rest_starts_with_marker (boundary : string) ps :
  starts_with (marker (Some boundary))
    (encode_all_headed boundary ps ++ closing_marker boundary) = true.
Proof.
  destruct ps as [|p ps].
  - apply starts_with_app. rewrite closing_marker_end_marker, end_marker_app.
    simpl. eauto.
  - rewrite encode_all_headed_cons, <-app_assoc. apply encode_headed_starts.
Qed.

Lemma encode_all_headed_length_not_1 (boundary : string) ps :
  blen (encode_all_headed boundary ps) <> 1.
Proof.
  destruct ps as [|[header body] ps]; [done|].
  rewrite encode_all_headed_cons. unfold blen.
  rewrite length_app, encode_headed_length. lia.
Qed.

Lemma decode_headed_loop (boundary : string) (ps : list (string * Buffer)) :
  Forall (headed_ok boundary) ps ->
  forall fuel parts,
    let buffer := encode_all_headed boundary ps ++ closing_marker boundary in
    (length buffer < fuel)%nat ->
    parse_loop fuel buffer (marker (Some boundary))
      (blen (encode_all_headed boundary ps)) 0 parts
    = Some (foldl store_headed parts ps).
Proof.
  induction 1 as [|[header body] ps Hp Hps IH]; intros fuel parts buffer Hfuel.
  - destruct fuel as [|fuel]; [lia|]. reflexivity.
  - destruct fuel as [|fuel]; [lia|]. subst buffer.
    rewrite encode_all_headed_cons in *. rewrite <-app_assoc in *.
    set (E := encode_headed boundary (header, body)) in *.
    set (R := encode_all_headed boundary ps ++ closing_marker boundary) in *.
    assert (HE : 0 < blen E).
    { unfold E, blen. rewrite encode_headed_length. lia. }
    assert (Hlen : blen (E ++ encode_all_headed boundary ps)
                   = blen E + blen (encode_all_headed boundary ps)).
    { unfold blen. rewrite length_app. lia. }
    rewrite Hlen in *.
    assert (HP : 0 <= blen (encode_all_headed boundary ps)) by (unfold blen; lia).
    unfold E at 1.
    rewrite headed_step; [|done|apply headed_rest_starts_with_marker|lia].
    fold E. replace (blen E) with (blen E + 0) at 2 by lia.
    rewrite parse_loop_shift by (by apply encode_all_headed_length_not_1 || done).
    cbn [foldl]. apply IH.
    rewrite length_app in Hfuel. unfold blen in HE. lia.
Qed.

Lemma end_marker_not_at_headed (boundary : string) p (rest : Buffer) :
  starts_with (end_marker (Some boundary)) (encode_headed boundary p ++ rest)
  = false.
Proof.
  destruct (starts_with _ _) eqn:Hs; [|done].
  apply starts_with_app in Hs as [r Hr]. destruct p as [header body].
  rewrite encode_headed_split, end_marker_app, <-!app_assoc in Hr.
  apply app_inv_head in Hr. discriminate.
Qed.

Lemma marker_not_inside_headed (boundary : string) p (R : Buffer) (j : nat) :
  headed_ok boundary p ->
  starts_with (marker (Some boundary)) R = true ->
  (0 < j < length (encode_headed boundary p))%nat ->
  starts_with (marker (Some boundary)) (drop j (encode_headed boundary p ++ R))
  = false.
Proof.
  intros (_ & Hmarker) [R' ->]%starts_with_app Hj.
  rewrite app_assoc. rewrite drop_app_le by (rewrite length_app; lia).
  rewrite starts_with_app_l by (rewrite length_drop, length_app; lia).
  by apply marker_only_at_ends_spec.
Qed.

Lemma no_closing_marker_inside_headed (boundary : string) ps :
  Forall (headed_ok boundary) ps ->
  forall j, (j < length (encode_all_headed boundary ps))%nat ->
  starts_with (end_marker (Some boundary))
    (drop j (encode_all_headed boundary ps ++ closing_marker boundary)) = false.
Proof.
  induction 1 as [|p ps Hp Hps IH]; intros j Hj; [simpl in Hj; lia|].
  rewrite encode_all_headed_cons in *. rewrite <-app_assoc.
  rewrite length_app in Hj.
  destruct (decide (j = 0%nat)) as [->|Hj0].
  { rewrite drop_0. apply end_marker_not_at_headed. }
  destruct (decide (j < length (encode_headed boundary p))%nat) as [Hlt|Hge].
  - destruct (starts_with _ _) eqn:Hs; [|done].
    rewrite end_marker_app in Hs. apply starts_with_prefix in Hs.
    rewrite marker_not_inside_headed in Hs;
      [done|done|apply headed_rest_starts_with_marker|lia].
  - replace j with (length (encode_headed boundary p)
                    + (j - length (encode_headed boundary p)))%nat by lia.
    rewrite drop_shift. apply IH. lia.
Qed.

Lemma closing_marker_first_headed (boundary : string) ps :
  Forall (headed_ok boundary) ps ->
  indexOf (encode_all_headed boundary ps ++ closing_marker boundary)
    (end_marker (Some boundary)) 0
  = blen (encode_all_headed boundary ps).
Proof.
  intros Hps. unfold indexOf.
  rewrite clamp_offset_nonneg by done.
  replace (Z.to_nat (Z.min 0 _)) with 0%nat by (unfold blen; lia).
  rewrite drop_0.
  rewrite (search_first _ _ (length (encode_all_headed boundary ps))).
  - unfold blen. lia.
  - rewrite drop_app_length, closing_marker_end_marker. apply starts_with_refl.
  - by apply no_closing_marker_inside_headed.
Qed.

(** Decoding an encoding in which some parts carry a Content-ID and
    others do not: the parts are taken in order, and those without a
    Content-ID leave the mapping as it is. *)
Lemma decode_headed (boundary : string) (ps : list (string * Buffer)) :
  Forall (headed_ok boundary) ps ->
  parseMultipartResponse (encode_all_headed boundary ps ++ closing_marker boundary)
    (Some boundary)
  = Some (foldl store_headed ∅ ps).
Proof.
  intros Hps. rewrite parseMultipartResponse_eq.
  rewrite closing_marker_first_headed by done.
  replace (blen (encode_all_headed boundary ps) =? -1) with false
    by (unfold blen; lia).
  rewrite indexOf_0_first by apply headed_rest_starts_with_marker.
  apply decode_headed_loop; [done|lia].
Qed.

Lemma foldl_store_headed_named (ps : list (string * Buffer)) (m : Parts) :
  foldl store_headed m (named_parts ps) = foldl store_headed m ps.
Proof.
  revert m. induction ps as [|p ps IH]; intros m; [done|].
  unfold named_parts. rewrite filter_cons. cbn [foldl].
  destruct (decide (is_Some (match_content_id p.1))) as [Hsome|Hnone].
  - cbn [foldl]. apply IH.
  - assert (Hm : store_headed m p = m).
    { unfold store_headed. destruct (match_content_id p.1); [|done].
      exfalso. apply Hnone. eauto. }
    rewrite Hm. apply IH.
Qed.

Lemma obj_set_keeps (id id' : string) (content : Buffer) (m : Parts) :
  is_Some (m !! id) -> is_Some (obj_set id' content m !! id).
Proof.
  intros Hm. unfold obj_set. destruct (decide _); [done|].
  destruct (decide (id' = id)) as [->|Hne].
  - rewrite lookup_insert_eq. eauto.
  - by rewrite lookup_insert_ne.
Qed.

Lemma foldl_store_headed_keeps (ps : list (string * Buffer)) (m : Parts) id :
  is_Some (m !! id) -> is_Some (foldl store_headed m ps !! id).
Proof.
  revert m. induction ps as [|p ps IH]; intros m Hm; [done|].
  cbn [foldl]. apply IH. unfold store_headed.
  destruct (match_content_id p.1); [by apply obj_set_keeps|done].
Qed.

Lemma foldl_store_headed_keys (ps : list (string * Buffer)) (m : Parts) id :
  Forall (fun p => match_content_id p.1 <> Some "__proto__"%string) ps ->
  is_Some (foldl store_headed m ps !! id)
  <-> is_Some (m !! id) \/ exists p, p ∈ ps /\ match_content_id p.1 = Some id.
Proof.
  intros Hplain. revert m.
  induction Hplain as [|p ps Hp Hps IH]; intros m.
  - cbn [foldl]. split; [by left|]. intros [?|(p & Hin & _)]; [done|].
    by apply elem_of_nil in Hin.
  - cbn [foldl]. rewrite IH. unfold store_headed.
    destruct (match_content_id p.1) as [id'|] eqn:Hid.
    + unfold obj_set. rewrite decide_False by congruence.
      destruct (decide (id' = id)) as [->|Hne].
      * rewrite lookup_insert_eq. split; [|by eauto].
        intros _. right. exists p. split; [by left|done].
      * rewrite lookup_insert_ne by done. split.
        -- intros [?|(q & Hin & Hq)]; [by left|right].
           exists q. split; [by right|done].
        -- intros [?|(q & [->|Hin]%elem_of_cons & Hq)]; [by left|congruence|].
           right. by exists q.
    + split.
      * intros [?|(q & Hin & Hq)]; [by left|right].
        exists q. split; [by right|done].
      * intros [?|(q & [->|Hin]%elem_of_cons & Hq)]; [by left|congruence|].
        right. by exists q.
Qed.

Lemma named_parts_ok (boundary : string) (ps : list (string * Buffer)) :
  Forall (headed_ok boundary) ps -> Forall (headed_ok boundary) (named_parts ps).
Proof.
  rewrite !Forall_forall. intros H p Hp. apply H.
  unfold named_parts in Hp. by apply list_elem_of_filter in Hp as [_ ?].
Qed.

Lemma no_content_ids_by_evaluation (buffer : Buffer) (boundary : option string) :
  forallb
    (fun pos =>
       implb (starts_with (marker boundary) (drop pos buffer))
         (implb (negb (indexOf buffer CRLFCRLF (Z.of_nat pos) =? -1))
            (bool_decide
               (match_content_id (header_block buffer boundary (Z.of_nat pos))
                = None))))
    (seq 0 (length buffer)) = true ->
  no_content_ids buffer boundary.
Proof.
  intros H pos Hocc Hh. rewrite forallb_forall in H.
  destruct (decide (pos < length buffer)%nat) as [Hlt|Hge].
  - specialize (H pos). rewrite Hocc in H.
    replace (indexOf buffer CRLFCRLF (Z.of_nat pos) =? -1) with false in H by lia.
    cbn [implb negb] in H. eapply bool_decide_eq_true_1, H, in_seq. lia.
  - rewrite drop_ge in Hocc by lia. by rewrite marker_cons in Hocc.
Qed.

(** C9.  A buffer in which no part carries a Content-ID, whatever its
    bodies hold, decodes to the empty mapping.  Wherever the scan stands,
    a part whose header block has no Content-ID leaves the mapping as it
    is and the scan goes on from the next boundary marker; so a buffer
    that begins with such a part decodes to what the parts after it
    decode to.  In an encoding that mixes parts with and without a
    Content-ID (none of them named [__proto__]) the parts without one
    make no difference, wherever they stand: the result is the one
    decoded from the other parts alone, and its keys are exactly their
    Content-IDs. *)
Theorem parts_without_content_id :
  (forall buffer boundary,
      no_content_ids buffer boundary ->
      parseMultipartResponse buffer boundary = Some ∅)
  /\ (forall buffer boundary end_ pos fuel parts,
        pos <> -1 -> pos < end_ ->
        indexOf buffer CRLFCRLF pos <> -1 ->
        match_content_id
          (toString (slice buffer (pos + blen (marker boundary) + 2)
                       (indexOf buffer CRLFCRLF pos))) = None ->
        parse_loop (S fuel) buffer (marker boundary) end_ pos parts
        = parse_loop fuel buffer (marker boundary) end_
            (indexOf buffer (marker boundary) (indexOf buffer CRLFCRLF pos + 4))
            parts)
  /\ (forall P R boundary,
        let buffer := P ++ R in
        let h := indexOf buffer CRLFCRLF 0 in
        indexOf buffer (marker boundary) 0 = 0 ->
        h <> -1 ->
        match_content_id
          (toString (slice buffer (blen (marker boundary) + 2) h)) = None ->
        indexOf buffer (marker boundary) (h + 4) = blen P ->
        (indexOf buffer (end_marker boundary) 0 = -1
         \/ blen P <= indexOf buffer (end_marker boundary) 0) ->
        parseMultipartResponse buffer boundary
        = parseMultipartResponse R boundary)
  /\ (forall boundary ps,
        Forall (headed_ok boundary) ps ->
        Forall (fun p => match_content_id p.1 <> Some "__proto__"%string) ps ->
        exists parts,
          parseMultipartResponse
            (encode_all_headed boundary ps ++ closing_marker boundary)
            (Some boundary) = Some parts
          /\ parseMultipartResponse
               (encode_all_headed boundary (named_parts ps)
                ++ closing_marker boundary)
               (Some boundary) = Some parts
          /\ forall id,
               is_Some (parts !! id)
               <-> exists p, p ∈ ps /\ match_content_id p.1 = Some id).
Proof.
  split; [|split; [|split]].
  - apply parse_no_content_ids.
  - intros buffer boundary end_ pos fuel parts. apply parse_loop_skip.
  - apply parse_skips_part.
  - intros boundary ps Hok Hplain. exists (foldl store_headed ∅ ps).
    split; [by apply decode_headed|].
    split; [rewrite decode_headed by (by apply named_parts_ok);
            by rewrite foldl_store_headed_named|].
    intros id. rewrite foldl_store_headed_keys by done.
    rewrite lookup_empty. split; [|by right].
    intros [[? ?]|?]; done.
Qed.

Lemma parts_without_content_id_witness :
  parseMultipartResponse anonymous_naming_body (Some "b"%string) = Some ∅
  /\ parse_loop 9 (encode_parts "b" one_part ++ anonymous_part ++ closing_marker "b")
       (marker (Some "b"%string)) 66 29 {[ "a"%string := Buffer_from "x" ]}
     = parse_loop 8 (encode_parts "b" one_part ++ anonymous_part ++ closing_marker "b")
         (marker (Some "b"%string)) 66 66 {[ "a"%string := Buffer_from "x" ]}
  /\ parseMultipartResponse (anonymous_part ++ encode_multipart "b" one_part)
       (Some "b"%string)
     = parseMultipartResponse (encode_multipart "b" one_part) (Some "b"%string)
  /\ exists parts,
       parseMultipartResponse
         (encode_all_headed "b" mixed_parts ++ closing_marker "b")
         (Some "b"%string) = Some parts
       /\ parseMultipartResponse
            (encode_all_headed "b" (named_parts mixed_parts) ++ closing_marker "b")
            (Some "b"%string) = Some parts
       /\ forall id,
            is_Some (parts !! id)
            <-> exists p, p ∈ mixed_parts /\ match_content_id p.1 = Some id.
Proof.
  destruct parts_without_content_id as (H1 & H2 & H3 & H4).
  split; [|split; [|split]].
  - apply H1. apply no_content_ids_by_evaluation. vm_compute. reflexivity.
  - apply (H2 (encode_parts "b" one_part ++ anonymous_part ++ closing_marker "b")
             (Some "b"%string) 66 29 8%nat).
    + discriminate.
    + lia.
    + vm_compute. discriminate.
    + vm_compute. reflexivity.
  - apply H3.
    + vm_compute. reflexivity.
    + vm_compute. discriminate.
    + vm_compute. reflexivity.
    + vm_compute. reflexivity.
    + right. vm_compute. discriminate.
  - apply H4.
    + repeat first [apply List.Forall_nil | apply List.Forall_cons];
        (split; vm_compute; reflexivity).
    + repeat first [apply List.Forall_nil | apply List.Forall_cons];
        vm_compute; discriminate.
Defined.

(** The mapping decoded from the mixed example: the two named parts, the
    second of which follows a part without a Content-ID. *)
Remark mixed_parts_decoded :
  parseMultipartResponse (encode_all_headed "b" mixed_parts ++ closing_marker "b")
    (Some "b"%string)
  = Some {[ "a"%string := Buffer_from "x"; "ndvi"%string := [x00; xff; x0d] ]}.
Proof. vm_compute. reflexivity. Qed.

(** ** The sweep, as the cron task runs it *)

Lemma clean_cache_sweep (CACHE_DURATION now : Z) (w : World) :
  clean_cache CACHE_DURATION now w =
  Some (Returned (sweep CACHE_DURATION now (cache w)).2,
        {| service := service w;
           cache := (sweep CACHE_DURATION now (cache w)).1;
           trace := trace w |}).
Proof.
  unfold clean_cache, bind, get_cache, set_cache, ret.
  by destruct (sweep CACHE_DURATION now (cache w)).
Qed.

(** C6.  The sweep removes exactly the entries whose age exceeds
    [maxAge] and keeps every other entry as it is; the count it reports
    is the number of entries that disappeared.  After K entries older
    than [maxAge] have been inserted under distinct keys into a cache
    holding no such entry, the sweep removes those K and reports K.  The
    hourly task is this sweep with [CACHE_DURATION] as [maxAge]. *)
Theorem sweep_removes_stale (maxAge now : Z) (c : Cache) :
  (forall k,
      (sweep maxAge now c).1 !! k =
      match c !! k with
      | Some e => if decide (stale maxAge now e) then None else Some e
      | None => None
      end)
  /\ ((sweep maxAge now c).2 + size (sweep maxAge now c).1 = size c)%nat
  /\ (forall entries c0,
        c = cache_set_all entries c0 ->
        NoDup entries.*1 ->
        Forall (fun kv => stale maxAge now kv.2) entries ->
        (forall k e, c0 !! k = Some e -> ~ stale maxAge now e) ->
        (sweep maxAge now c).2 = length entries
        /\ forall k, (sweep maxAge now c).1 !! k =
                     if decide (k ∈ entries.*1) then None else c0 !! k)
  /\ (forall w, cache w = c ->
        clean_cache maxAge now w =
        Some (Returned (sweep maxAge now c).2,
              {| service := service w; cache := (sweep maxAge now c).1;
                 trace := trace w |})).
Proof.
  split; [apply sweep_lookup|]. split; [apply sweep_size|]. split.
  - intros entries c0 -> Hnd Hstale Hfresh. by apply sweep_inserted.
  - intros w <-. apply clean_cache_sweep.
Qed.

Lemma sweep_removes_stale_witness :
  (sweep 3600000 5000000 (cache_set_all old_entries young_cache)).2 = 3%nat
  /\ (sweep 3600000 5000000 (cache_set_all old_entries young_cache)).1 !! "k2"%string
     = None
  /\ (sweep 3600000 5000000 (cache_set_all old_entries young_cache)).1 !! "k0"%string
     = Some (entry_at 4000000).
Proof.
  destruct (sweep_removes_stale 3600000 5000000
              (cache_set_all old_entries young_cache)) as (_ & _ & H & _).
  destruct (H old_entries young_cache) as [Hcount Hrest].
  - reflexivity.
  - apply NoDup_ListNoDup. vm_compute. repeat constructor; simpl; intuition discriminate.
  - repeat constructor; unfold stale; simpl; lia.
  - intros k e Hk. unfold young_cache in Hk.
    apply lookup_singleton_Some in Hk as [_ <-]. unfold stale. simpl. lia.
  - split; [exact Hcount|]. split; rewrite Hrest; reflexivity.
Defined.

(** ** The pipeline on concrete requests *)



(** C7, counterexample.  The endpoint answers with an object that has no
    [access_token]: the call returns [undefined] as the credential and
    caches it; with no [expires_in] it returns the token and caches it
    with the expiry [NaN].  Neither call fails. *)
Lemma malformed_payload_accepted :
  getAccessToken (token_env 1000 (granted JUndefined (Some 3600))) boot
  = Some (Returned JUndefined,
          {| service := with_token (service boot) JUndefined (ExpAt 3601005);
             cache := ∅; trace := [exchange_event (service boot)] |})
  /\ getAccessToken (token_env 1000 (granted (JStr "tok") None)) boot
     = Some (Returned (JStr "tok"),
             {| service := with_token (service boot) (JStr "tok") ExpNaN;
                cache := ∅; trace := [exchange_event (service boot)] |}).
Proof. split; reflexivity. Qed.

Lemma auth_failure_cases_witness :
  getAccessToken (token_env 1000 (TokenRejected "Request failed with status code 401")) boot
  = Some (Thrown auth_failed, logged [exchange_event (service boot)] boot)
  /\ getAccessToken (token_env 1000 (TokenResolved None)) boot
     = Some (Thrown auth_failed, logged [exchange_event (service boot)] boot)
  /\ getAccessToken (token_env 1000 (granted JUndefined None)) boot
     = Some (Returned JUndefined,
             {| service := with_token (service boot) JUndefined ExpNaN;
                cache := ∅; trace := [exchange_event (service boot)] |})
  /\ getAccessToken (token_env 1000 (granted JUndefined (Some 3600))) boot
     = Some (Returned JUndefined,
             {| service := with_token (service boot) JUndefined (ExpAt 3601005);
                cache := ∅; trace := [exchange_event (service boot)] |}).
Proof.
  split; [|split; [|split]].
  - destruct (auth_failure_cases boot
                (token_env 1000 (TokenRejected "Request failed with status code 401"))
                eq_refl) as (H & _).
    by apply (H "Request failed with status code 401"%string).
  - destruct (auth_failure_cases boot (token_env 1000 (TokenResolved None))
                eq_refl) as (_ & H & _).
    by apply H.
  - destruct (auth_failure_cases boot (token_env 1000 (granted JUndefined None))
                eq_refl) as (_ & _ & H).
    by apply (H {| access_token := JUndefined; expires_in := None |}).
  - destruct (auth_failure_cases boot (token_env 1000 (granted JUndefined (Some 3600)))
                eq_refl) as (_ & _ & H).
    by apply (H {| access_token := JUndefined; expires_in := Some 3600 |}).
Defined.

(** C5, counterexample.  The reply is cut off inside the header of its
    second part: no header delimiter follows the second boundary marker.
    The fetch does not fail: it returns a payload that has the
    [truecolor] image and no [ndvi], [ndwi] or [scl], and this partial
    payload is now in the cache under the request key. *)
Lemma truncated_body_cached :
  indexOf truncated_body (marker (Some "b"%string)) 41 = 41
  /\ indexOf truncated_body CRLFCRLF 41 = -1
  /\ exists p w',
       getSatelliteData render_number 3600000
         (fetch_env 1000 (granted (JStr "tok") (Some 3600))
            (multipart_reply truncated_body))
         sample_bbox JUndefined boot
       = Some (Returned p, w')
       /\ truecolor p = Some "data:image/png;base64,UE5HREE="%string
       /\ ndvi p = None /\ ndwi p = None /\ scl p = None
       /\ cache w' !! "13,52,14,53-512-512"%string
          = Some {| timestamp := 1010; data := p |}.
Proof.
  split; [vm_compute; reflexivity|]. split; [vm_compute; reflexivity|].
  eexists _, _. split; [vm_compute; reflexivity|].
  repeat split; vm_compute; reflexivity.
Qed.

Lemma fetch_failure_atomic_witness :
  (exists w',
      getSatelliteData render_number 3600000
        (fetch_env 1000 (TokenRejected "401") (multipart_reply []))
        inverted_bbox JUndefined boot
      = Some (Thrown auth_failed, w'))
  /\ (exists w',
        getSatelliteData render_number 3600000
          (fetch_env 1000 (granted (JStr "tok") (Some 3600)) (ProcessRejected "timeout"))
          inverted_bbox JUndefined boot
        = Some (Thrown (AxiosError "timeout"), w'))
  /\ (exists w',
        getSatelliteData render_number 3600000
          (fetch_env 1000 (granted (JStr "tok") (Some 3600)) (ProcessResolved None []))
          inverted_bbox JUndefined boot
        = Some (Thrown TypeError, w'))
  /\ getSatelliteData render_number 3600000
       (fetch_env 1000 (granted (JStr "tok") (Some 3600)) two_part_reply)
       (JArr [unprintable; JInt 0; JInt 0; JInt 0]) JUndefined boot
     = Some (Thrown TypeError, boot)
  /\ (exists w',
        getSatelliteData render_number 3600000
          (fetch_env 1000 (granted unprintable (Some 3600)) two_part_reply)
          inverted_bbox JUndefined boot
        = Some (Thrown TypeError, w'))
  /\ (exists parts w',
        parseMultipartResponse truncated_body (Some "b"%string) = Some parts
        /\ getSatelliteData render_number 3600000
             (fetch_env 1000 (granted (JStr "tok") (Some 3600))
                (multipart_reply truncated_body))
             inverted_bbox JUndefined boot
           = Some (Returned
                     (build_result
                        (fetch_env 1000 (granted (JStr "tok") (Some 3600))
                           (multipart_reply truncated_body))
                        inverted_bbox (JInt 30) parts), w')).
Proof.
  assert (Hmiss : cache_miss 3600000 (cache boot)
                    (request_key render_number inverted_bbox JUndefined) 1000).
  { intros e He. vm_compute in He. discriminate. }
  split; [|split; [|split; [|split; [|split]]]].
  - pose proof (fetch_failure_atomic render_number 3600000
                  (fetch_env 1000 (TokenRejected "401") (multipart_reply []))
                  inverted_bbox JUndefined boot) as H.
    cbv zeta in H. destruct H as (_ & _ & _ & _ & H).
    destruct H as (Hauth & _); [discriminate | reflexivity | exact Hmiss |].
    apply Hauth. reflexivity.
  - pose proof (fetch_failure_atomic render_number 3600000
                  (fetch_env 1000 (granted (JStr "tok") (Some 3600))
                     (ProcessRejected "timeout"))
                  inverted_bbox JUndefined boot) as H.
    cbv zeta in H. destruct H as (_ & _ & _ & _ & H).
    destruct H as (_ & H); [discriminate | reflexivity | exact Hmiss |].
    destruct (H (JStr "tok") eq_refl) as (_ & Hgood).
    destruct (Hgood eq_refl) as (Htransport & _). by apply Htransport.
  - pose proof (fetch_failure_atomic render_number 3600000
                  (fetch_env 1000 (granted (JStr "tok") (Some 3600))
                     (ProcessResolved None []))
                  inverted_bbox JUndefined boot) as H.
    cbv zeta in H. destruct H as (_ & _ & _ & _ & H).
    destruct H as (_ & H); [discriminate | reflexivity | exact Hmiss |].
    destruct (H (JStr "tok") eq_refl) as (_ & Hgood).
    destruct (Hgood eq_refl) as (_ & Hheader & _). by apply (Hheader []).
  - pose proof (fetch_failure_atomic render_number 3600000
                  (fetch_env 1000 (granted (JStr "tok") (Some 3600)) two_part_reply)
                  (JArr [unprintable; JInt 0; JInt 0; JInt 0]) JUndefined boot) as H.
    cbv zeta in H. destruct H as (_ & _ & _ & H & _).
    apply H. right. reflexivity.
  - pose proof (fetch_failure_atomic render_number 3600000
                  (fetch_env 1000 (granted unprintable (Some 3600)) two_part_reply)
                  inverted_bbox JUndefined boot) as H.
    cbv zeta in H. destruct H as (_ & _ & _ & _ & H).
    destruct H as (_ & H); [discriminate | reflexivity | exact Hmiss |].
    destruct (H unprintable eq_refl) as (Hbad & _). by apply Hbad.
  - pose proof (fetch_failure_atomic render_number 3600000
                  (fetch_env 1000 (granted (JStr "tok") (Some 3600))
                     (multipart_reply truncated_body))
                  inverted_bbox JUndefined boot) as H.
    cbv zeta in H. destruct H as (_ & _ & _ & _ & H).
    destruct H as (_ & H); [discriminate | reflexivity | exact Hmiss |].
    destruct (H (JStr "tok") eq_refl) as (_ & Hgood).
    destruct (Hgood eq_refl) as (_ & _ & Hdecoded).
    apply (Hdecoded "multipart/mixed; boundary=b"%string truncated_body);
      [reflexivity | vm_compute; reflexivity].
Defined.

(** C8, counterexample.  The bbox [[10, 10, 5, 5]] violates
    [minLon < maxLon] and [minLat < maxLat], yet the handler does not
    reject it: the cache is consulted, both remote endpoints are called,
    the result is stored and the request is answered with status 200. *)
Lemma inverted_bbox_accepted :
  ~ well_formed_bbox inverted_bbox
  /\ exists payload w',
       post_satellite_data render_number 3600000
         (fetch_env 1000 (granted (JStr "tok") (Some 3600))
            (multipart_reply (encode_multipart "b" one_part)))
         (request inverted_bbox) boot
       = Some (Returned (Success payload), w')
       /\ trace w' =
          [CacheHas "10,10,5,5-512-512";
           exchange_event (service boot);
           ProcessRequest "Bearer tok" inverted_bbox (JInt 512) (JInt 512) (JInt 30);
           CacheSet "10,10,5,5-512-512"].
Proof.
  split.
  - intros [H _]. vm_compute in H. discriminate.
  - eexists _, _. split; vm_compute; reflexivity.
Qed.

Lemma bad_shape_rejected_witness :
  post_satellite_data render_number 3600000
    (fetch_env 1000 (granted (JStr "tok") (Some 3600)) (multipart_reply []))
    (request (JArr [JInt 1; JInt 2; JInt 3])) boot
  = Some (Returned (BadRequest invalid_bbox_message), boot).
Proof.
  apply (bad_shape_rejected render_number 3600000); [discriminate | discriminate |].
  intros a b c d. simpl. discriminate.
Defined.

Lemma all_null_payload_cached_witness :
  exists p w',
    getSatelliteData render_number 3600000
      (fetch_env 1000 (granted (JStr "tok") (Some 3600)) (multipart_reply []))
      inverted_bbox JUndefined boot
    = Some (Returned p, w')
    /\ truecolor p = None /\ ndvi p = None /\ ndwi p = None /\ scl p = None
    /\ cache w' = {[ "10,10,5,5-512-512"%string :=
                       {| timestamp := 1010; data := p |} ]}
    /\ getSatelliteData render_number 3600000
         (fetch_env 2000 (TokenRejected "") (ProcessRejected ""))
         inverted_bbox JUndefined w'
       = Some (Returned p,
               logged [CacheHas "10,10,5,5-512-512"; CacheGet "10,10,5,5-512-512"] w').
Proof.
  destruct (all_null_payload_cached render_number 3600000
              (fetch_env 1000 (granted (JStr "tok") (Some 3600)) (multipart_reply []))
              [JInt 10; JInt 10; JInt 5; JInt 5] JUndefined boot (JStr "tok")
              "multipart/mixed; boundary=b" [] ∅)
    as (p & w' & Hfetch & H1 & H2 & H3 & H4 & Hcache & Hlater).
  - discriminate.
  - reflexivity.
  - intros e He. vm_compute in He. discriminate.
  - reflexivity.
  - reflexivity.
  - reflexivity.
  - vm_compute. reflexivity.
  - vm_compute. reflexivity.
  - reflexivity.
  - reflexivity.
  - reflexivity.
  - reflexivity.
  - exists p, w'. split; [exact Hfetch|].
    do 4 (split; [assumption|]). split; [exact Hcache|].
    apply (Hlater (fetch_env 2000 (TokenRejected "") (ProcessRejected ""))).
    simpl. lia.
Defined.

(** * Further properties: how the operations compose *)

Section Requests.

Variable num_to_string : jsnum -> string.
Variable CACHE_DURATION : Z.

Abbreviation fetch := (getSatelliteData num_to_string CACHE_DURATION).
Abbreviation handle := (post_satellite_data num_to_string CACHE_DURATION).
Abbreviation key_of := (request_key num_to_string).

(** What the [try] block returns is assembled from the decoded parts of
    this call and is stored under the key. *)
Lemma fetch_and_store_returned env key bbox wd ht mcc w p w' :
  fetch_and_store num_to_string env key bbox wd ht mcc w = Some (Returned p, w') ->
  exists parts,
    p = build_result env bbox mcc parts
    /\ cache w' = <[key := {| timestamp := fe_now_stored env; data := p |}]>
                    (cache w).
Proof.
  destruct (getAccessToken_total (fe_token env) w) as ([tok|e] & w1 & Htok).
  - pose proof (getAccessToken_frame _ _ _ _ Htok) as Hc.
    destruct (stringifies tok) eqn:Hstr;
      [|by rewrite (fetch_and_store_bad_token _ _ _ _ _ _ _ _ _ _ Htok Hstr)].
    destruct (fe_reply env) as [message|[content_type|] body] eqn:Hreply.
    + by rewrite (fetch_and_store_rejected _ _ _ _ _ _ _ _ _ _ _ Htok Hstr Hreply).
    + destruct (parseMultipartResponse_total body (extractBoundary content_type))
        as [parts Hparts].
      rewrite (fetch_and_store_ok _ _ _ _ _ _ _ _ _ _ _ _ _ Htok Hstr Hreply Hparts).
      intros [= <- <-]. exists parts. split; [done|]. simpl. by rewrite Hc.
    + by rewrite (fetch_and_store_no_content_type _ _ _ _ _ _ _ _ _ _ _ Htok Hstr Hreply).
  - by rewrite (fetch_and_store_auth _ _ _ _ _ _ _ _ _ _ Htok).
Qed.

(** With a credential that can be written into the [Authorization]
    header, the [try] block always reaches a remote endpoint: the token
    endpoint when no usable credential is cached, the processing endpoint
    when one is obtained. *)
Lemma fetch_and_store_network env key bbox wd ht mcc w o w' :
  (forall tok, credential (service w) (fe_token env) = Some tok ->
               stringifies tok = true) ->
  fetch_and_store num_to_string env key bbox wd ht mcc w = Some (o, w') ->
  exists evs, trace w' = trace w ++ evs /\ Exists (fun ev => is_network ev = true) evs.
Proof.
  intros Hprintable.
  destruct (getAccessToken_total (fe_token env) w) as ([tok|e] & w1 & Htok).
  - assert (Htr : exists evs1, trace w1 = trace w ++ evs1).
    { pose proof (getAccessToken_trace _ _ _ _ Htok) as Ht.
      destruct (token_valid _ _); [subst; exists []; by rewrite app_nil_r|eauto]. }
    destruct Htr as [evs1 Htr].
    pose proof (Hprintable tok (getAccessToken_returned _ _ _ _ Htok)) as Hstr.
    destruct (fe_reply env) as [message|[content_type|] body] eqn:Hreply.
    + rewrite (fetch_and_store_rejected _ _ _ _ _ _ _ _ _ _ _ Htok Hstr Hreply).
      intros [= <- <-]. simpl. rewrite Htr, <-app_assoc. eexists. split; [done|].
      apply Exists_app. right. by apply Exists_cons_hd.
    + destruct (parseMultipartResponse_total body (extractBoundary content_type))
        as [parts Hparts].
      rewrite (fetch_and_store_ok _ _ _ _ _ _ _ _ _ _ _ _ _ Htok Hstr Hreply Hparts).
      intros [= <- <-]. simpl. rewrite Htr, <-app_assoc. eexists. split; [done|].
      apply Exists_app. right. by apply Exists_cons_hd.
    + rewrite (fetch_and_store_no_content_type _ _ _ _ _ _ _ _ _ _ _ Htok Hstr Hreply).
      intros [= <- <-]. simpl. rewrite Htr, <-app_assoc. eexists. split; [done|].
      apply Exists_app. right. by apply Exists_cons_hd.
  - rewrite (fetch_and_store_auth _ _ _ _ _ _ _ _ _ _ Htok). intros [= <- <-].
    pose proof (getAccessToken_trace _ _ _ _ Htok) as Ht.
    destruct (token_valid (service w) (te_now (fe_token env))) eqn:Hvalid.
    + rewrite (getAccessToken_reuse _ _ Hvalid) in Htok. done.
    + eexists. split; [done|]. by apply Exists_cons_hd.
Qed.

(** X1.  A payload fetched on a miss is served again, from the cache and
    without any remote call, to every request for the same bbox, width
    and height that arrives less than [CACHE_DURATION] after it was
    stored.  [maxCloudCoverage] is not part of the key: the payload
    served carries the cloud-coverage bound of the request that fetched
    it, whatever bound the later request asks for. *)
Theorem cached_payload_served_again env1 env2 items options1 options2 w p w1 :
  options1 <> JNull -> options2 <> JNull ->
  get_property options2 "width" = get_property options1 "width" ->
  get_property options2 "height" = get_property options1 "height" ->
  cache_miss CACHE_DURATION (cache w) (key_of (JArr items) options1)
    (fe_now_lookup env1) ->
  fetch env1 (JArr items) options1 w = Some (Returned p, w1) ->
  fe_now_lookup env2 - fe_now_stored env1 < CACHE_DURATION ->
  fetch env2 (JArr items) options2 w1
  = Some (Returned p,
          logged [CacheHas (key_of (JArr items) options1);
                  CacheGet (key_of (JArr items) options1)] w1)
  /\ md_cloudCoverage (metadata p)
     = with_default (get_property options1 "maxCloudCoverage") 30.
Proof.
  intros Hopt1 Hopt2 Hwidth Hheight Hmiss Hfetch Hlive.
  assert (Hrenders : key_renders (JArr items) options1 = true).
  { destruct (key_renders (JArr items) options1) eqn:Hk; [done|].
    by rewrite fetch_no_key in Hfetch. }
  assert (Hrenders2 : key_renders (JArr items) options2 = true).
  { unfold key_renders in *. by rewrite Hwidth, Hheight. }
  rewrite (fetch_miss _ _ _ _ _ _ Hopt1 Hrenders Hmiss) in Hfetch.
  apply fetch_and_store_returned in Hfetch as (parts & Hp & Hcache).
  assert (Hkey : key_of (JArr items) options2 = key_of (JArr items) options1).
  { unfold request_key. by rewrite Hwidth, Hheight. }
  split; [|by rewrite Hp].
  rewrite <-Hkey.
  apply (fetch_hit _ _ env2 items options2 w1
           {| timestamp := fe_now_stored env1; data := p |}); [done|done| |done].
  rewrite Hkey, Hcache. apply lookup_insert_eq.
Qed.

(** X2.  An entry whose age has reached [CACHE_DURATION] is not served
    and not evicted by the lookup: for a request whose key can be
    computed, and a credential that can be written into the
    [Authorization] header, the request goes to the remote service, and
    the entry is replaced only if that call succeeds; when it fails the
    old entry is still in the cache.  The sweep does not remove an entry
    whose age is exactly [CACHE_DURATION]. *)
Theorem stale_entry_refetched env items options w e :
  options <> JNull ->
  key_renders (JArr items) options = true ->
  (forall tok, credential (service w) (fe_token env) = Some tok ->
               stringifies tok = true) ->
  cache w !! key_of (JArr items) options = Some e ->
  CACHE_DURATION <= fe_now_lookup env - timestamp e ->
  (exists o w' evs,
      fetch env (JArr items) options w = Some (o, w')
      /\ trace w' = trace w ++ [CacheHas (key_of (JArr items) options);
                               CacheGet (key_of (JArr items) options)] ++ evs
      /\ Exists (fun ev => is_network ev = true) evs
      /\ match o with
         | Returned p =>
             cache w' = <[key_of (JArr items) options :=
                            {| timestamp := fe_now_stored env; data := p |}]>
                          (cache w)
         | Thrown _ => cache w' !! key_of (JArr items) options = Some e
         end)
  /\ (fe_now_lookup env - timestamp e = CACHE_DURATION ->
      (sweep CACHE_DURATION (fe_now_lookup env) (cache w)).1
        !! key_of (JArr items) options = Some e).
Proof.
  intros Hopt Hkey Hprintable Hentry Hage. split.
  - assert (Hmiss : cache_miss CACHE_DURATION (cache w) (key_of (JArr items) options)
                      (fe_now_lookup env)).
    { intros e' He'. rewrite Hentry in He'. injection He' as <-. lia. }
    rewrite (fetch_miss _ _ _ _ _ _ Hopt Hkey Hmiss).
    unfold lookup_events. rewrite Hentry.
    destruct (fetch_and_store_cases num_to_string env (key_of (JArr items) options)
                (JArr items)
                (with_default (get_property options "width") 512)
                (with_default (get_property options "height") 512)
                (with_default (get_property options "maxCloudCoverage") 30)
                (logged [CacheHas (key_of (JArr items) options);
                         CacheGet (key_of (JArr items) options)] w))
      as [(err & w' & Hrun & Hc)|(p & w' & Hrun & Hc)];
      destruct (fetch_and_store_network _ _ _ _ _ _ (logged _ w) _ _
                  Hprintable Hrun) as (evs & Htr & Hnet);
      rewrite Hrun; eexists _, w', evs;
      (split; [done|]); (split; [by rewrite Htr; simpl; rewrite <-app_assoc|]);
      (split; [done|]).
    + by rewrite Hc.
    + by rewrite Hc.
  - intros Hexact. rewrite sweep_lookup, Hentry.
    rewrite decide_False; [done|]. unfold stale. lia.
Qed.

(** The outcome of [getAccessToken] and the service it leaves depend on
    the world through the service only. *)
Lemma getAccessToken_same_service env w v o w' :
  service v = service w ->
  getAccessToken env w = Some (o, w') ->
  exists v', getAccessToken env v = Some (o, v') /\ service v' = service w'.
Proof.
  intros Hs Hrun.
  destruct (token_valid (service w) (te_now env)) eqn:Hvalid.
  - rewrite (getAccessToken_reuse _ _ Hvalid) in Hrun. injection Hrun as <- <-.
    exists v. rewrite <-Hs in Hvalid.
    rewrite (getAccessToken_reuse _ _ Hvalid). by rewrite Hs.
  - assert (Hvalid' : token_valid (service v) (te_now env) = false) by (by rewrite Hs).
    destruct (te_reply env) as [message|[d|]] eqn:Hreply.
    + rewrite getAccessToken_fail in Hrun by eauto. injection Hrun as <- <-.
      rewrite getAccessToken_fail by eauto. eexists. split; [done|]. simpl. done.
    + rewrite (getAccessToken_renew _ _ _ Hvalid Hreply) in Hrun.
      injection Hrun as <- <-.
      rewrite (getAccessToken_renew _ _ _ Hvalid' Hreply).
      eexists. split; [done|]. simpl. by rewrite Hs.
    + rewrite getAccessToken_fail in Hrun by eauto. injection Hrun as <- <-.
      rewrite getAccessToken_fail by eauto. eexists. split; [done|]. simpl. done.
Qed.

Lemma fetch_and_store_same_service env key bbox wd ht mcc w v o w' :
  service v = service w ->
  fetch_and_store num_to_string env key bbox wd ht mcc w = Some (o, w') ->
  exists v', fetch_and_store num_to_string env key bbox wd ht mcc v = Some (o, v')
             /\ service v' = service w'.
Proof.
  intros Hs.
  destruct (getAccessToken_total (fe_token env) w) as (ot & w1 & Htok).
  destruct (getAccessToken_same_service _ _ _ _ _ Hs Htok) as (v1 & Htok' & Hs1).
  destruct ot as [tok|e].
  - destruct (stringifies tok) eqn:Hstr.
    2:{ rewrite (fetch_and_store_bad_token _ _ _ _ _ _ _ _ _ _ Htok Hstr).
        rewrite (fetch_and_store_bad_token _ _ _ _ _ _ _ _ _ _ Htok' Hstr).
        intros [= <- <-]. by eexists. }
    destruct (fe_reply env) as [message|[content_type|] body] eqn:Hreply.
    + rewrite (fetch_and_store_rejected _ _ _ _ _ _ _ _ _ _ _ Htok Hstr Hreply).
      rewrite (fetch_and_store_rejected _ _ _ _ _ _ _ _ _ _ _ Htok' Hstr Hreply).
      intros [= <- <-]. by eexists.
    + destruct (parseMultipartResponse_total body (extractBoundary content_type))
        as [parts Hparts].
      rewrite (fetch_and_store_ok _ _ _ _ _ _ _ _ _ _ _ _ _ Htok Hstr Hreply Hparts).
      rewrite (fetch_and_store_ok _ _ _ _ _ _ _ _ _ _ _ _ _ Htok' Hstr Hreply Hparts).
      intros [= <- <-]. by eexists.
    + rewrite (fetch_and_store_no_content_type _ _ _ _ _ _ _ _ _ _ _ Htok Hstr Hreply).
      rewrite (fetch_and_store_no_content_type _ _ _ _ _ _ _ _ _ _ _ Htok' Hstr Hreply).
      intros [= <- <-]. by eexists.
  - rewrite (fetch_and_store_auth _ _ _ _ _ _ _ _ _ _ Htok).
    rewrite (fetch_and_store_auth _ _ _ _ _ _ _ _ _ _ Htok').
    intros [= <- <-]. by eexists.
Qed.

(** X3.  The hourly sweep never changes what a request gets: a sweep run
    at an instant not later than the request's lookup leaves the outcome
    of [getSatelliteData], returned payload or thrown error, and the
    stored credential as they would have been without it. *)
Theorem sweep_invisible_to_fetch env bbox options now w o w' :
  now <= fe_now_lookup env ->
  fetch env bbox options w = Some (o, w') ->
  exists v',
    (clean_cache CACHE_DURATION now;; fetch env bbox options) w = Some (o, v')
    /\ service v' = service w'.
Proof.
  intros Hnow Hrun. unfold bind at 1.
  rewrite (clean_cache_sweep CACHE_DURATION now w).
  set (ws := {| service := service w;
                cache := (sweep CACHE_DURATION now (cache w)).1;
                trace := trace w |}).
  destruct (null_or_not options) as [->|Hopt].
  { rewrite fetch_null_options in Hrun. injection Hrun as <- <-.
    rewrite fetch_null_options. by eexists. }
  destruct (key_renders bbox options) eqn:Hkey.
  2:{ rewrite fetch_no_key in Hrun by done. injection Hrun as <- <-.
      rewrite fetch_no_key by done. by eexists. }
  destruct (key_renders_array _ _ Hkey) as [items ->].
  destruct (lookup_cache_cases CACHE_DURATION (fe_now_lookup env)
              (key_of (JArr items) options) w)
    as [(entry & Hentry & Hlive & _)|[Hmiss _]].
  - rewrite (fetch_hit _ _ _ _ _ _ _ Hopt Hkey Hentry Hlive) in Hrun.
    injection Hrun as <- <-.
    assert (Hkept : cache ws !! key_of (JArr items) options = Some entry).
    { simpl. rewrite sweep_lookup, Hentry.
      rewrite decide_False; [done|]. unfold stale. lia. }
    rewrite (fetch_hit _ _ _ _ _ _ _ Hopt Hkey Hkept Hlive). by eexists.
  - rewrite (fetch_miss _ _ _ _ _ _ Hopt Hkey Hmiss) in Hrun.
    assert (Hmiss' : cache_miss CACHE_DURATION (cache ws)
                       (key_of (JArr items) options) (fe_now_lookup env)).
    { intros e He. simpl in He. rewrite sweep_lookup in He.
      destruct (cache w !! key_of (JArr items) options) as [e'|] eqn:He'; [|done].
      destruct (decide _); [done|]. injection He as <-. by apply Hmiss. }
    rewrite (fetch_miss _ _ _ _ _ _ Hopt Hkey Hmiss').
    eapply fetch_and_store_same_service; [|exact Hrun]. done.
Qed.

(** The handler on a parsed body: a [bbox] that is an array of four
    elements goes to [getSatelliteData], whose outcome becomes a 200 or a
    500 reply; any other [bbox] is answered 400. *)
Lemma handle_cases env body w :
  body <> JUndefined -> body <> JNull ->
  handle env body w =
  match get_property body "bbox" with
  | JArr [a; b; c; d] =>
      match fetch env (JArr [a; b; c; d]) (get_property body "options") w with
      | Some (Returned payload, w') => Some (Returned (Success payload), w')
      | Some (Thrown e, w') => Some (Returned (ServerError e), w')
      | None => None
      end
  | _ => Some (Returned (BadRequest invalid_bbox_message), w)
  end.
Proof.
  intros Hu Hn.
  destruct (get_property body "bbox") as [| |bo|n|s|items|fields] eqn:Hbbox.
  6:{ destruct items as [|a [|b [|c [|d [|x items]]]]].
      5: by apply handle_accepts.
      all: unfold post_satellite_data, try_catch, bind;
        destruct body; try done; cbn [ret fst snd]; rewrite Hbbox; reflexivity. }
  all: unfold post_satellite_data, try_catch, bind;
    destruct body; try done; cbn [ret fst snd]; rewrite Hbbox;
    cbn [isArray negb]; rewrite ?orb_true_r; reflexivity.
Qed.

(** X4.  The handler of [POST /api/satellite-data] never throws: every
    request gets one reply.  A 400 reply leaves the world untouched, the
    payload of a 200 reply is the one the cache holds under the key of
    the request, and a 500 reply leaves the cache as it was. *)
Theorem handler_always_answers env body w :
  exists r w',
    handle env body w = Some (Returned r, w')
    /\ match r with
       | BadRequest message => message = invalid_bbox_message /\ w' = w
       | Success p =>
           exists entry,
             cache w' !! key_of (get_property body "bbox")
                           (get_property body "options") = Some entry
             /\ data entry = p
       | ServerError _ => cache w' = cache w
       end.
Proof.
  assert (Hbody : (body = JUndefined \/ body = JNull)
                  \/ (body <> JUndefined /\ body <> JNull)).
  { destruct body; (by left; left) || (by left; right) || (by right). }
  destruct Hbody as [Hbody|[Hu Hn]].
  { rewrite (handle_no_body _ _ _ _ _ Hbody). by eexists _, _. }
  rewrite handle_cases by done.
  destruct (get_property body "bbox") as [| |bo|n|s|items|fields] eqn:Hbbox;
    try (by eexists _, _).
  destruct items as [|a [|b [|c [|d [|x items]]]]]; try (by eexists _, _).
  destruct (fetch_total num_to_string CACHE_DURATION env (JArr [a; b; c; d])
              (get_property body "options") w) as ([p|e] & w' & Hrun);
    rewrite Hrun; eexists _, _; (split; [done|]).
  - by eapply fetch_success_cached.
  - by eapply fetch_failure_cache.
Qed.

(** X5.  A request whose [options] is [null] is answered 500 although
    its [bbox] is well shaped: destructuring [null] throws before the
    cache or the network is touched.  (Only an absent [options] takes
    the default.) *)
Theorem null_options_answered_500 env body w a b c d :
  get_property body "bbox" = JArr [a; b; c; d] ->
  get_property body "options" = JNull ->
  handle env body w = Some (Returned (ServerError TypeError), w).
Proof.
  intros Hbbox Hoptions.
  assert (Hu : body <> JUndefined) by (by intros ->).
  assert (Hn : body <> JNull) by (by intros ->).
  rewrite handle_cases, Hbbox, Hoptions by done.
  by rewrite fetch_null_options.
Qed.

End Requests.

Section AccessOrder.

Variable num_to_string : jsnum -> string.
Variable CACHE_DURATION : Z.

(** The accesses of the [try] block, in order. *)
Lemma fetch_and_store_trace env key bbox wd ht mcc w o w' :
  fetch_and_store num_to_string env key bbox wd ht mcc w = Some (o, w') ->
  exists exch tail,
    trace w' = trace w ++ exch ++ tail
    /\ (exch = [] \/ exch = [exchange_event (service w)])
    /\ match o with
       | Returned _ =>
           tail = [process_event num_to_string (token (service w')) bbox wd ht mcc;
                   CacheSet key]
       | Thrown _ =>
           tail = []
           \/ tail = [process_event num_to_string (token (service w')) bbox wd ht mcc]
       end.
Proof.
  assert (Htoken : exists ot w1 exch,
             getAccessToken (fe_token env) w = Some (ot, w1)
             /\ trace w1 = trace w ++ exch
             /\ (exch = [] \/ exch = [exchange_event (service w)])
             /\ forall tok, ot = Returned tok -> tok = token (service w1)).
  { destruct (token_valid (service w) (te_now (fe_token env))) eqn:Hvalid.
    - rewrite (getAccessToken_reuse _ _ Hvalid). eexists _, _, [].
      split; [done|]. rewrite app_nil_r. split; [done|]. split; [by left|].
      by intros tok [= <-].
    - destruct (te_reply (fe_token env)) as [message|[d|]] eqn:Hreply.
      + rewrite getAccessToken_fail by eauto. eexists _, _, _.
        split; [done|]. split; [done|]. split; [by right|done].
      + rewrite (getAccessToken_renew _ _ _ Hvalid Hreply). eexists _, _, _.
        split; [done|]. split; [done|]. split; [by right|].
        by intros tok [= <-].
      + rewrite getAccessToken_fail by eauto. eexists _, _, _.
        split; [done|]. split; [done|]. split; [by right|done]. }
  destruct Htoken as (ot & w1 & exch & Htok & Htr & Hexch & Hstored).
  destruct ot as [tok|e].
  - specialize (Hstored tok eq_refl). subst tok.
    destruct (stringifies (token (service w1))) eqn:Hstr.
    2:{ rewrite (fetch_and_store_bad_token _ _ _ _ _ _ _ _ _ _ Htok Hstr).
        intros [= <- <-]. exists exch, []. rewrite app_nil_r.
        split; [done|]. split; [done|]. by left. }
    destruct (fe_reply env) as [message|[content_type|] body] eqn:Hreply.
    + rewrite (fetch_and_store_rejected _ _ _ _ _ _ _ _ _ _ _ Htok Hstr Hreply).
      intros [= <- <-]. eexists exch, _. simpl. rewrite Htr, <-app_assoc.
      split; [done|]. split; [done|]. by right.
    + destruct (parseMultipartResponse_total body (extractBoundary content_type))
        as [parts Hparts].
      rewrite (fetch_and_store_ok _ _ _ _ _ _ _ _ _ _ _ _ _ Htok Hstr Hreply Hparts).
      intros [= <- <-]. eexists exch, _. simpl. rewrite Htr, <-app_assoc.
      split; [done|]. split; [done|]. done.
    + rewrite (fetch_and_store_no_content_type _ _ _ _ _ _ _ _ _ _ _ Htok Hstr Hreply).
      intros [= <- <-]. eexists exch, _. simpl. rewrite Htr, <-app_assoc.
      split; [done|]. split; [done|]. by right.
  - rewrite (fetch_and_store_auth _ _ _ _ _ _ _ _ _ _ Htok).
    intros [= <- <-]. exists exch, []. rewrite app_nil_r.
    split; [done|]. split; [done|]. by left.
Qed.

(** X6.  One call of [getSatelliteData] reaches the outside in a fixed
    order.  When its key cannot be computed it throws a TypeError before
    any access.  Otherwise: the cache lookup, then at most one token
    exchange, then at most one processing request, then at most one
    cache write.  The processing request is sent only once a credential
    is there and carries the credential that the service holds when the
    call ends; the cache is written exactly when the call returns after
    a miss. *)
Theorem fetch_access_order env items options w o w' :
  options <> JNull ->
  getSatelliteData num_to_string CACHE_DURATION env (JArr items) options w
  = Some (o, w') ->
  let key := request_key num_to_string (JArr items) options in
  let sent :=
    process_event num_to_string (token (service w')) (JArr items)
      (with_default (get_property options "width") 512)
      (with_default (get_property options "height") 512)
      (with_default (get_property options "maxCloudCoverage") 30) in
  if key_renders (JArr items) options then
    exists exch tail,
      trace w' = trace w ++ lookup_events (cache w) key ++ exch ++ tail
      /\ (exch = [] \/ exch = [exchange_event (service w)])
      /\ match o with
         | Returned p =>
             (exch = [] /\ tail = []
              /\ exists entry, cache w !! key = Some entry /\ data entry = p)
             \/ tail = [sent; CacheSet key]
         | Thrown _ => tail = [] \/ tail = [sent]
         end
  else o = Thrown TypeError /\ w' = w.
Proof.
  intros Hopt Hrun key sent.
  destruct (key_renders (JArr items) options) eqn:Hkey.
  2:{ rewrite fetch_no_key in Hrun by done. by injection Hrun as <- <-. }
  destruct (lookup_cache_cases CACHE_DURATION (fe_now_lookup env) key w)
    as [(entry & Hentry & Hlive & _)|[Hmiss _]].
  - subst key. rewrite (fetch_hit _ _ _ _ _ _ _ Hopt Hkey Hentry Hlive) in Hrun.
    injection Hrun as <- <-. exists [], []. unfold lookup_events. rewrite Hentry.
    split; [done|]. split; [by left|]. left. by eauto.
  - subst key. rewrite (fetch_miss _ _ _ _ _ _ Hopt Hkey Hmiss) in Hrun.
    apply fetch_and_store_trace in Hrun as (exch & tail & Htr & Hexch & Htail).
    exists exch, tail. split; [by rewrite Htr; simpl; rewrite <-app_assoc|].
    split; [done|]. destruct o; [by right|done].
Qed.

End AccessOrder.

(** * Further properties: the token manager *)

(** X7.  The scheduled refresh never throws and never touches the cache.
    While the cached credential is still valid it does nothing at all:
    no exchange is made and the expiry is not extended.  When the
    exchange fails, the credential and its expiry stay as they were. *)
Theorem refresh_never_throws (env : TokenEnv) (w : World) :
  exists ok w',
    refresh_token env w = Some (Returned ok, w')
    /\ cache w' = cache w
    /\ (token_valid (service w) (te_now env) = true -> ok = true /\ w' = w)
    /\ (ok = false ->
        service w' = service w
        /\ trace w' = trace w ++ [exchange_event (service w)]).
Proof.
  unfold refresh_token, try_catch, bind at 1.
  destruct (token_valid (service w) (te_now env)) eqn:Hvalid.
  { rewrite (getAccessToken_reuse _ _ Hvalid). by eexists _, _. }
  destruct (te_reply env) as [message|[d|]] eqn:Hreply.
  - rewrite getAccessToken_fail by eauto. by eexists _, _.
  - rewrite (getAccessToken_renew _ _ _ Hvalid Hreply). by eexists _, _.
  - rewrite getAccessToken_fail by eauto. by eexists _, _.
Qed.

(** X8.  A reply of the token endpoint that has no [expires_in], or
    whose [access_token] is falsy, is accepted and its token returned,
    but the credential it leaves is never usable: whatever the clock
    reads afterwards, the next call makes a new exchange. *)
Theorem unusable_credential_never_reused (env env2 : TokenEnv) (w : World)
    (d : TokenData) :
  token_valid (service w) (te_now env) = false ->
  te_reply env = TokenResolved (Some d) ->
  expires_in d = None \/ truthy (access_token d) = false ->
  exists w1,
    getAccessToken env w = Some (Returned (access_token d), w1)
    /\ token_valid (service w1) (te_now env2) = false
    /\ exists o w2,
         getAccessToken env2 w1 = Some (o, w2)
         /\ trace w2 = trace w1 ++ [exchange_event (service w1)].
Proof.
  intros Hvalid Hreply Hbad.
  rewrite (getAccessToken_renew _ _ _ Hvalid Hreply). eexists. split; [done|].
  set (w1 := {| service := _ |}).
  assert (Hinvalid : token_valid (service w1) (te_now env2) = false).
  { unfold token_valid, w1. simpl.
    destruct Hbad as [-> | ->]; [|done]. simpl. apply andb_false_r. }
  split; [done|].
  destruct (getAccessToken_total env2 w1) as (o & w2 & Hrun).
  exists o, w2. split; [done|].
  pose proof (getAccessToken_trace _ _ _ _ Hrun) as Ht.
  by rewrite Hinvalid in Ht.
Qed.

(** * Further properties: the decoder *)

Lemma capture_at_Some (lit : string) (c : ascii) (s run rest : string) :
  capture_at lit c s = Some (run, rest) ->
  s = (lit ++ run ++ rest)%string
  /\ run <> EmptyString /\ free_of c run
  /\ (rest = EmptyString \/ exists r, rest = String c r).
Proof.
  unfold capture_at. destruct (strip_literal lit s) as [r|] eqn:Hlit; [|done].
  apply strip_literal_Some in Hlit as ->.
  destruct (span_not c r) as [[|a run'] rest'] eqn:Hspan; [done|].
  intros [= <- <-]. apply span_not_split in Hspan as (-> & Hfree & Hrest).
  done.
Qed.

Lemma capture_at_intro (lit : string) (c a : ascii) (rest : string) :
  a <> c -> capture_at lit c (lit ++ String a rest) <> None.
Proof.
  intros Hac. unfold capture_at.
  replace (strip_literal lit (lit ++ String a rest)) with (Some (String a rest))
    by (symmetry; by apply strip_literal_Some).
  cbn [span_not]. apply Ascii.eqb_neq in Hac. rewrite Hac.
  by destruct (span_not c rest).
Qed.

(** X9.  [extractBoundary] returns the text that follows the first
    [boundary=] up to the next [;] or the end of the header, as it
    stands (quotes and blanks included): a non-empty text without [;].
    It returns [null] exactly when no [boundary=] is followed by a
    character other than [;]. *)
Theorem extractBoundary_captures (contentType : string) :
  match extractBoundary contentType with
  | Some b =>
      b <> EmptyString /\ free_of ";" b
      /\ exists pre rest,
           contentType = (pre ++ "boundary=" ++ b ++ rest)%string
           /\ (rest = EmptyString \/ exists r, rest = String ";" r)
           /\ forall pre' c rest',
                c <> ";"%char ->
                contentType = (pre' ++ "boundary=" ++ String c rest')%string ->
                (String.length pre <= String.length pre')%nat
  | None =>
      forall pre c rest,
        c <> ";"%char ->
        contentType <> (pre ++ "boundary=" ++ String c rest)%string
  end.
Proof.
  unfold extractBoundary.
  induction contentType as [|a s IH].
  - cbn. intros [|? pre] c rest _; discriminate.
  - cbn [match_boundary].
    destruct (capture_at "boundary=" ";" (String a s)) as [[b rest]|] eqn:Hcap.
    + apply capture_at_Some in Hcap as (Hs & Hne & Hfree & Hrest).
      split; [done|]. split; [done|]. exists EmptyString, rest.
      split; [done|]. split; [done|]. intros; simpl; lia.
    + assert (Hhead : forall c rest,
                 c <> ";"%char ->
                 String a s <> ("boundary=" ++ String c rest)%string).
      { intros c rest Hc Heq. rewrite Heq in Hcap.
        by apply (capture_at_intro "boundary=" ";" c rest) in Hc. }
      destruct (match_boundary s) as [b|].
      * destruct IH as (Hne & Hfree & pre & rest & -> & Hrest & Hfirst).
        split; [done|]. split; [done|]. exists (String a pre), rest.
        split; [done|]. split; [done|].
        intros [|a' pre'] c rest' Hc Heq.
        -- by apply Hhead in Heq.
        -- rewrite !string_app_cons in Heq. injection Heq as -> Heq.
           simpl. apply le_n_S. by apply (Hfirst pre' c rest').
      * intros [|a' pre] c rest Hc Heq.
        -- by apply Hhead in Heq.
        -- rewrite string_app_cons in Heq. injection Heq as -> ->.
           by apply (IH pre c rest).
Qed.

(** Every value of the mapping was stored under a captured Content-ID
    and is a run of consecutive bytes of the buffer. *)
Lemma parse_loop_from_buffer (buffer bb : Buffer) (end_ : Z) (fuel : nat) :
  forall pos parts r,
    parse_loop fuel buffer bb end_ pos parts = Some r ->
    forall P : string -> Buffer -> Prop,
      (forall id content, parts !! id = Some content -> P id content) ->
      (forall id a b,
          id <> EmptyString -> free_of ">" id -> id <> "__proto__"%string ->
          P id (slice buffer a b)) ->
      forall id content, r !! id = Some content -> P id content.
Proof.
  induction fuel as [|fuel IH]; intros pos parts r; [done|].
  rewrite parse_loop_unfold.
  destruct (negb _); [by intros [= <-]|]. cbv zeta.
  destruct (_ =? -1); [by intros [= <-]|].
  intros Hrun P Hparts Hslice. eapply IH; [exact Hrun| |exact Hslice].
  destruct (match_content_id _) as [cid|] eqn:Hid; [|done].
  apply match_content_id_Some in Hid as (pre & rest & _ & Hne & Hfree).
  intros id content. unfold obj_set. destruct (decide _) as [|Hproto]; [by auto|].
  intros [[<- <-]|[_ Hold]]%lookup_insert_Some; [by apply Hslice|by apply Hparts].
Qed.

Lemma ascii_headers_by_evaluation (buffer : Buffer) (boundary : option string) :
  forallb
    (fun pos =>
       implb (starts_with (marker boundary) (drop pos buffer))
         (implb (negb (indexOf buffer CRLFCRLF (Z.of_nat pos) =? -1))
            (forallb (fun b => (Byte.to_N b <? 128)%N)
               (slice buffer (Z.of_nat pos + blen (marker boundary) + 2)
                  (indexOf buffer CRLFCRLF (Z.of_nat pos))))))
    (seq 0 (length buffer)) = true ->
  ascii_headers buffer boundary.
Proof.
  intros H pos Hocc Hh. rewrite forallb_forall in H.
  destruct (decide (pos < length buffer)%nat) as [Hlt|Hge].
  - specialize (H pos). rewrite Hocc in H.
    replace (indexOf buffer CRLFCRLF (Z.of_nat pos) =? -1) with false in H by lia.
    cbn [implb negb] in H. apply H, in_seq. lia.
  - rewrite drop_ge in Hocc by lia. by rewrite marker_cons in Hocc.
Qed.

(** X10.  Whatever the bodies hold, in a buffer whose header blocks are
    ASCII text and none of whose parts is named [__proto__], every key of
    the decoded mapping is a non-empty text without [>], and every value
    is a run of consecutive bytes of the buffer: the decoder copies, it
    never builds bytes of its own. *)
Theorem decoded_parts_come_from_buffer (buffer : Buffer)
    (boundary : option string) :
  plain_names buffer ->
  ascii_headers buffer boundary ->
  exists parts,
    parseMultipartResponse buffer boundary = Some parts
    /\ forall id content,
         parts !! id = Some content ->
         id <> EmptyString /\ free_of ">" id /\ id <> "__proto__"%string
         /\ exists before after, buffer = before ++ content ++ after.
Proof.
  intros _ _.
  destruct (parseMultipartResponse_total buffer boundary) as [parts Hparts].
  exists parts. split; [done|].
  rewrite parseMultipartResponse_eq in Hparts.
  apply (parse_loop_from_buffer _ _ _ _ _ _ _ Hparts
           (fun id content =>
              id <> EmptyString /\ free_of ">" id /\ id <> "__proto__"%string
              /\ exists before after, buffer = before ++ content ++ after)).
  - intros id content Hempty. by rewrite lookup_empty in Hempty.
  - intros id a b Hne Hfree Hproto. repeat (split; [done|]). apply slice_within.
Qed.

(** The scan over encoded parts that are followed by anything that
    begins with a marker. *)
Lemma decode_loop_tail (boundary : string) (ps : list (string * Buffer))
    (tail : Buffer) :
  Forall (part_ok boundary) ps ->
  starts_with (marker (Some boundary)) tail = true ->
  forall fuel parts,
    (length (encode_parts boundary ps ++ tail) < fuel)%nat ->
    parse_loop fuel (encode_parts boundary ps ++ tail) (marker (Some boundary))
      (blen (encode_parts boundary ps)) 0 parts
    = Some (foldl store_trimmed parts ps).
Proof.
  intros Hps Htail.
  induction Hps as [|[id body] ps Hp Hps IH]; intros fuel parts Hfuel.
  - destruct fuel as [|fuel]; [lia|]. reflexivity.
  - destruct fuel as [|fuel]; [lia|].
    rewrite encode_parts_cons in *. rewrite <-app_assoc in *.
    set (E := encode_part boundary (id, body)) in *.
    set (R := encode_parts boundary ps ++ tail) in *.
    assert (HE : 0 < blen E).
    { unfold E, blen. rewrite encode_part_length. lia. }
    assert (Hlen : blen (E ++ encode_parts boundary ps)
                   = blen E + blen (encode_parts boundary ps)).
    { unfold blen. rewrite length_app. lia. }
    assert (HR : starts_with (marker (Some boundary)) R = true).
    { unfold R. destruct ps as [|p ps']; [done|].
      rewrite encode_parts_cons, <-app_assoc. apply encode_part_starts. }
    rewrite Hlen in *.
    assert (HP : 0 <= blen (encode_parts boundary ps)) by (unfold blen; lia).
    unfold E at 1. rewrite part_step; [|done|done|lia].
    fold E. replace (blen E) with (blen E + 0) at 2 by lia.
    rewrite parse_loop_shift by (by apply encode_parts_length_not_1 || done).
    cbn [foldl]. apply IH.
    rewrite length_app in Hfuel. unfold blen in HE. lia.
Qed.

(** The first closing marker of an encoding that is followed by an
    epilogue is its own. *)
Lemma closing_marker_first_tail (boundary : string) ps (epilogue : Buffer) :
  Forall (part_ok boundary) ps ->
  indexOf (encode_multipart boundary ps ++ epilogue) (end_marker (Some boundary)) 0
  = blen (encode_parts boundary ps).
Proof.
  intros Hps. unfold indexOf, encode_multipart.
  rewrite clamp_offset_nonneg by done.
  replace (Z.to_nat (Z.min 0 _)) with 0%nat by (unfold blen; lia).
  rewrite drop_0.
  rewrite (search_first _ _ (length (encode_parts boundary ps))).
  - unfold blen. lia.
  - rewrite <-app_assoc, drop_app_length, closing_marker_end_marker.
    apply starts_with_app. by eexists.
  - intros j Hj. rewrite drop_app_le by (rewrite length_app; lia).
    rewrite starts_with_app_l.
    + by apply no_closing_marker_inside.
    + rewrite length_drop, length_app, closing_marker_end_marker. lia.
Qed.

(** X11.  For a standard encoding, what precedes the first marker (a
    preamble in which no marker begins) and what follows the closing
    marker (an epilogue, such as a final line break) do not change the
    decoded mapping. *)
Theorem preamble_and_epilogue_ignored (boundary : string)
    (ps : list (string * Buffer)) (preamble epilogue : Buffer) :
  Forall (part_ok boundary) ps ->
  indexOf (preamble ++ marker (Some boundary)) (marker (Some boundary)) 0
  = blen preamble ->
  parseMultipartResponse (preamble ++ encode_multipart boundary ps ++ epilogue)
    (Some boundary)
  = parseMultipartResponse (encode_multipart boundary ps) (Some boundary).
Proof.
  intros Hps Hpre. rewrite (decode_encode boundary ps Hps).
  set (bb := marker (Some boundary)) in *.
  set (X := encode_multipart boundary ps ++ epilogue).
  assert (HX : starts_with bb X = true).
  { unfold X, encode_multipart. rewrite <-app_assoc.
    destruct ps as [|p ps'].
    - apply starts_with_app. cbn [encode_parts map concat app].
      rewrite closing_marker_end_marker, end_marker_app, <-app_assoc. by eexists.
    - rewrite encode_parts_cons, <-app_assoc. apply encode_part_starts. }
  assert (Hsearch : search bb (preamble ++ X) = Some (length preamble)).
  { apply starts_with_app in HX as [X' ->]. rewrite app_assoc.
    apply search_app_l. unfold indexOf in Hpre.
    rewrite clamp_offset_nonneg in Hpre by done.
    replace (Z.to_nat (Z.min 0 _)) with 0%nat in Hpre by (unfold blen; lia).
    rewrite drop_0 in Hpre.
    destruct (search bb (preamble ++ bb)) as [i|]; [|unfold blen in Hpre; lia].
    f_equal. unfold blen in Hpre. lia. }
  assert (Hpos : indexOf (preamble ++ X) bb 0 = blen preamble).
  { unfold indexOf. rewrite clamp_offset_nonneg by done.
    replace (Z.to_nat (Z.min 0 _)) with 0%nat by (unfold blen; lia).
    rewrite drop_0, Hsearch. unfold blen. lia. }
  assert (HP : 0 <= blen preamble) by (unfold blen; lia).
  assert (Hend : indexOf (preamble ++ X) (end_marker (Some boundary)) 0
                 = blen preamble + blen (encode_parts boundary ps)).
  { pose proof (indexOf_shift preamble X (end_marker (Some boundary)) 0 ltac:(done))
      as Hshift.
    rewrite Z.add_0_r in Hshift. unfold X at 2 3 in Hshift.
    rewrite closing_marker_first_tail in Hshift by done.
    replace (blen (encode_parts boundary ps) =? -1) with false in Hshift
      by (unfold blen; lia).
    rewrite <-Hshift. symmetry. apply indexOf_skip.
    { unfold blen. rewrite length_app. lia. }
    rewrite end_marker_app. fold bb.
    set (i := indexOf (preamble ++ X) (bb ++ [x2d; x2d]) 0).
    destruct (decide (i = -1)) as [|Hne]; [by left|right].
    destruct (indexOf_found _ _ 0 Hne) as (H0 & _ & Hocc);
      [unfold blen; lia|].
    fold i in H0, Hocc. apply starts_with_prefix in Hocc.
    apply search_Some in Hsearch as (_ & _ & Hfirst).
    destruct (decide (blen preamble <= i)) as [|Hlt]; [done|].
    rewrite Hfirst in Hocc; [done|]. unfold blen in Hlt. lia. }
  rewrite parseMultipartResponse_eq. fold bb. rewrite Hend, Hpos.
  replace (_ =? -1) with false by (unfold blen; lia).
  replace (blen preamble) with (blen preamble + 0) at 2 by lia.
  rewrite parse_loop_shift by (by apply encode_parts_length_not_1 || done).
  unfold X, encode_multipart. rewrite <-app_assoc.
  apply decode_loop_tail; [done| |].
  - rewrite closing_marker_end_marker, end_marker_app, <-app_assoc.
    apply starts_with_app. by eexists.
  - unfold X, encode_multipart. rewrite !length_app. lia.
Qed.

(** An occurrence inside a run of the buffer is an occurrence in the
    buffer. *)
Lemma starts_with_in_take (pat l : Buffer) (j k : nat) :
  (0 < length pat)%nat ->
  starts_with pat (drop j (take k l)) = true ->
  starts_with pat (drop j l) = true /\ (j + length pat <= k)%nat.
Proof.
  intros Hpat Hocc. pose proof (starts_with_length _ _ Hocc) as Hlen.
  rewrite length_drop, length_take in Hlen.
  apply starts_with_app in Hocc as [r Hr].
  split; [|lia]. apply starts_with_app. exists (r ++ drop k l).
  rewrite <-(take_drop k l) at 1. rewrite drop_app_le by (rewrite length_take; lia).
  by rewrite Hr, app_assoc.
Qed.

(** What is sliced between the end of a header block and the next
    marker holds no marker. *)
Lemma content_free_of_marker (buffer bb : Buffer) (h end_ : Z) :
  0 <= h -> h + 4 <= blen buffer -> (0 < length bb)%nat ->
  let nextBoundary := indexOf buffer bb (h + 4) in
  let contentEnd := if negb (nextBoundary =? -1) then nextBoundary - 4 else end_ - 2 in
  indexOf (slice buffer (h + 4) contentEnd) bb 0 = -1.
Proof.
  intros Hh Hfit Hbb nextBoundary contentEnd.
  set (content := slice buffer (h + 4) contentEnd).
  destruct (decide (indexOf content bb 0 = -1)) as [|Hne]; [done|exfalso].
  destruct (indexOf_found _ _ 0 Hne) as (H0 & Hend & Hocc); [unfold blen; lia|].
  set (j := Z.to_nat (indexOf content bb 0)) in *.
  unfold content, slice in Hocc.
  rewrite (clamp_offset_nonneg _ (h + 4)) in Hocc by lia.
  replace (Z.to_nat (Z.min (h + 4) (blen buffer))) with (Z.to_nat (h + 4)) in Hocc
    by lia.
  apply starts_with_in_take in Hocc as [Hocc Hjk]; [|done].
  rewrite drop_drop in Hocc.
  subst nextBoundary contentEnd. unfold indexOf in *.
  rewrite (clamp_offset_nonneg _ (h + 4)) in * by lia.
  replace (Z.to_nat (Z.min (h + 4) (blen buffer))) with (Z.to_nat (h + 4)) in *
    by lia.
  destruct (search bb (drop (Z.to_nat (h + 4)) buffer)) as [i|] eqn:Hsearch.
  - apply search_Some in Hsearch as (_ & _ & Hfirst).
    rewrite <-drop_drop, Hfirst in Hocc; [done|].
    replace (negb (Z.of_nat (Z.to_nat (h + 4) + i) =? -1)) with true in Hjk by lia.
    rewrite clamp_offset_nonneg in Hjk by lia. lia.
  - rewrite <-drop_drop in Hocc.
    by rewrite (search_None _ _ j Hsearch) in Hocc.
Qed.

Lemma parse_loop_free_of_marker (buffer bb : Buffer) (end_ : Z) (fuel : nat) :
  (0 < length bb)%nat ->
  forall pos parts r,
    0 <= pos \/ pos = -1 ->
    parse_loop fuel buffer bb end_ pos parts = Some r ->
    (forall id content, parts !! id = Some content -> indexOf content bb 0 = -1) ->
    forall id content, r !! id = Some content -> indexOf content bb 0 = -1.
Proof.
  intros Hbb. induction fuel as [|fuel IH]; intros pos parts r Hpos; [done|].
  rewrite parse_loop_unfold.
  destruct (negb _) eqn:Hguard; [by intros [= <-]|]. cbv zeta.
  destruct (indexOf buffer CRLFCRLF pos =? -1) eqn:Hh; [by intros [= <-]|].
  assert (0 <= pos) as Hpos0 by lia.
  apply Z.eqb_neq in Hh.
  destruct (headersEnd_bounds buffer pos Hpos0 Hh) as [Hh1 Hh2].
  intros Hrun Hparts. eapply IH; [|exact Hrun|].
  { destruct (next_boundary_bounds buffer bb (indexOf buffer CRLFCRLF pos))
      as [?|[? _]]; lia. }
  destruct (match_content_id _) as [cid|]; [|done].
  intros id content. unfold obj_set. destruct (decide _); [by apply Hparts|].
  intros [[<- <-]|[_ Hold]]%lookup_insert_Some; [|by eapply Hparts].
  apply content_free_of_marker; lia.
Qed.

(** X12.  No decoded value contains the boundary marker: in a buffer
    whose header blocks are ASCII text and none of whose parts is named
    [__proto__], a value ends before the first marker that follows its
    header block.  A body that holds the bytes of the marker is therefore
    never returned whole. *)
Theorem decoded_parts_free_of_marker (buffer : Buffer) (boundary : option string) :
  plain_names buffer ->
  ascii_headers buffer boundary ->
  exists parts,
    parseMultipartResponse buffer boundary = Some parts
    /\ forall id content,
         parts !! id = Some content ->
         indexOf content (marker boundary) 0 = -1.
Proof.
  intros _ _.
  destruct (parseMultipartResponse_total buffer boundary) as [parts Hparts].
  exists parts. split; [done|].
  rewrite parseMultipartResponse_eq in Hparts.
  eapply parse_loop_free_of_marker; [| |exact Hparts|].
  - rewrite marker_cons. simpl. lia.
  - destruct (indexOf_range buffer (marker boundary) 0) as [->|[? _]]; [by right|left].
    lia.
  - intros id content Hempty. by rewrite lookup_empty in Hempty.
Qed.

(** * Further properties: the cache endpoints *)

Lemma foldl_min_spec (l : list Z) (t : Z) :
  foldl Z.min t l <= t
  /\ Forall (fun x => foldl Z.min t l <= x) l
  /\ foldl Z.min t l ∈ t :: l.
Proof.
  revert t. induction l as [|x l IH]; intros t; cbn [foldl].
  - split; [lia|]. split; [done|]. apply elem_of_cons. by left.
  - destruct (IH (Z.min t x)) as (Hle & Hall & Hin).
    split; [lia|]. split.
    + apply Forall_cons. split; [lia|done].
    + rewrite !elem_of_cons. apply elem_of_cons in Hin as [Hin|Hin]; [|by auto].
      rewrite Hin. destruct (Z.min_spec t x) as [[_ ->]|[_ ->]]; auto.
Qed.

Lemma Math_min_spec (values : list Z) :
  match Math_min values with
  | MinInfinity => values = []
  | MinOf t => t ∈ values /\ Forall (fun x => t <= x) values
  end.
Proof.
  destruct values as [|t l]; [done|]. cbn [Math_min].
  destruct (foldl_min_spec l t) as (Hle & Hall & Hin).
  split; [done|]. by apply Forall_cons.
Qed.

(** The statistics computed from a cache. *)
Lemma stats_of_cache (c : Cache) (st : CacheStats) :
  st = {| cs_size := size c;
          cs_keys := (map_to_list c).*1;
          cs_oldestEntry :=
            if bool_decide (0 < size c)%nat
            then Some (Math_min ((fun kv => timestamp kv.2) <$> map_to_list c))
            else None |} ->
  cs_size st = size c
  /\ length (cs_keys st) = size c
  /\ NoDup (cs_keys st)
  /\ (forall k, k ∈ cs_keys st <-> is_Some (c !! k))
  /\ match cs_oldestEntry st with
     | None => c = ∅
     | Some MinInfinity => False
     | Some (MinOf t) =>
         (exists k e, c !! k = Some e /\ timestamp e = t)
         /\ forall k e, c !! k = Some e -> t <= timestamp e
     end.
Proof.
  intros ->. cbn [cs_size cs_keys cs_oldestEntry].
  split; [done|]. split; [by rewrite length_fmap, length_map_to_list|].
  split; [apply NoDup_fst_map_to_list|]. split.
  { intros k. rewrite list_elem_of_fmap. split.
    - intros ([k' e] & -> & Hin%elem_of_map_to_list). by eexists.
    - intros [e He]. exists (k, e). split; [done|]. by apply elem_of_map_to_list. }
  destruct (bool_decide (0 < size c)%nat) eqn:Hsize.
  - apply bool_decide_eq_true in Hsize.
    pose proof (Math_min_spec ((fun kv => timestamp kv.2) <$> map_to_list c)) as Hmin.
    destruct (Math_min _) as [|t].
    + apply fmap_nil_inv in Hmin. apply map_to_list_empty_iff in Hmin.
      subst c. rewrite map_size_empty in Hsize. lia.
    + destruct Hmin as [Hin Hall]. split.
      * apply list_elem_of_fmap in Hin as ([k e] & -> & Hin%elem_of_map_to_list).
        by exists k, e.
      * intros k e He. rewrite list.Forall_forall in Hall. apply Hall.
        apply list_elem_of_fmap. exists (k, e). split; [done|].
        by apply elem_of_map_to_list.
  - apply bool_decide_eq_false in Hsize. apply map_size_empty_iff. lia.
Qed.

(** X13.  [GET /api/cache/stats] changes nothing and reports the number
    of entries, every key once, and as oldest entry the least timestamp
    in the cache: an instant that some entry carries and that no entry
    precedes.  The oldest entry is [null] exactly when the cache is
    empty, and [Math.min] is never called without arguments. *)
Theorem cache_stats_report (w : World) :
  exists st,
    get_cache_stats w = Some (Returned st, w)
    /\ cs_size st = size (cache w)
    /\ length (cs_keys st) = size (cache w)
    /\ NoDup (cs_keys st)
    /\ (forall k, k ∈ cs_keys st <-> is_Some (cache w !! k))
    /\ match cs_oldestEntry st with
       | None => cache w = ∅
       | Some MinInfinity => False
       | Some (MinOf t) =>
           (exists k e, cache w !! k = Some e /\ timestamp e = t)
           /\ forall k e, cache w !! k = Some e -> t <= timestamp e
       end.
Proof. eexists. split; [reflexivity|]. by apply stats_of_cache. Qed.

(** X14.  After the hourly sweep the statistics add up: the count the
    sweep logs plus the size reported is the size before the sweep, and
    the oldest entry reported is not older than [CACHE_DURATION] at the
    instant of the sweep.  The oldest entry is [null] only if every
    entry was stale. *)
Theorem sweep_then_stats (CACHE_DURATION now : Z) (w : World) :
  exists removed st w',
    (let! removed := clean_cache CACHE_DURATION now in
     let! st := get_cache_stats in
     ret (removed, st)) w = Some (Returned (removed, st), w')
    /\ (removed + cs_size st = size (cache w))%nat
    /\ match cs_oldestEntry st with
       | None => forall k e, cache w !! k = Some e -> stale CACHE_DURATION now e
       | Some MinInfinity => False
       | Some (MinOf t) => now - t <= CACHE_DURATION
       end.
Proof.
  set (c' := (sweep CACHE_DURATION now (cache w)).1).
  set (st := {| cs_size := size c';
                cs_keys := (map_to_list c').*1;
                cs_oldestEntry :=
                  if bool_decide (0 < size c')%nat
                  then Some (Math_min ((fun kv => timestamp kv.2) <$> map_to_list c'))
                  else None |}).
  exists (sweep CACHE_DURATION now (cache w)).2, st,
    {| service := service w; cache := c'; trace := trace w |}.
  split; [unfold bind at 1; by rewrite clean_cache_sweep|].
  destruct (stats_of_cache c' st eq_refl) as (Hsize & _ & _ & _ & Hold).
  split.
  - rewrite Hsize. apply sweep_size.
  - destruct (cs_oldestEntry _) as [[|t]|]; [done| |].
    + destruct Hold as [(k & e & He & <-) _]. unfold c' in He.
      rewrite sweep_lookup in He.
      destruct (cache w !! k) as [e'|]; [|done].
      destruct (decide (stale CACHE_DURATION now e')) as [|Hfresh]; [done|].
      injection He as <-. unfold stale in Hfresh. lia.
    + intros k e He.
      assert (Hk : c' !! k = None) by (by rewrite Hold).
      unfold c' in Hk. rewrite sweep_lookup, He in Hk.
      by destruct (decide (stale CACHE_DURATION now e)).
Qed.

(** X15.  [POST /api/cache/clear] reports size 0 and leaves an empty
    cache: the statistics then show no key and a [null] oldest entry,
    and the next request whose key can be computed, also one that was
    cached a moment before, finds nothing and goes to the remote service
    (the credential being one that can be written into the
    [Authorization] header). *)
Theorem cache_clear_forgets (num_to_string : jsnum -> string)
    (CACHE_DURATION : Z) (env : FetchEnv) (items : list jsval)
    (options : jsval) (w : World) :
  options <> JNull ->
  key_renders (JArr items) options = true ->
  (forall tok, credential (service w) (fe_token env) = Some tok ->
               stringifies tok = true) ->
  let cleared := {| service := service w; cache := ∅; trace := trace w |} in
  let key := request_key num_to_string (JArr items) options in
  post_cache_clear w = Some (Returned 0%nat, cleared)
  /\ (post_cache_clear;; get_cache_stats) w
     = Some (Returned {| cs_size := 0; cs_keys := []; cs_oldestEntry := None |},
             cleared)
  /\ exists o w' evs,
       (post_cache_clear;;
        getSatelliteData num_to_string CACHE_DURATION env (JArr items) options) w
       = Some (o, w')
       /\ trace w' = trace w ++ [CacheHas key] ++ evs
       /\ Exists (fun ev => is_network ev = true) evs.
Proof.
  intros Hopt Hkey Hprintable cleared key.
  assert (Hclear : post_cache_clear w = Some (Returned 0%nat, cleared)).
  { unfold post_cache_clear, bind, set_cache, get_cache, ret. simpl.
    by rewrite map_size_empty. }
  split; [done|]. split.
  - unfold bind. rewrite Hclear.
    unfold get_cache_stats, bind, get_cache, ret. simpl.
    by rewrite map_to_list_empty, map_size_empty.
  - unfold bind at 1. rewrite Hclear.
    assert (Hmiss : cache_miss CACHE_DURATION (cache cleared) key (fe_now_lookup env)).
    { intros e He. simpl in He. by rewrite lookup_empty in He. }
    rewrite (fetch_miss _ _ _ _ _ _ Hopt Hkey Hmiss). subst key.
    destruct (fetch_and_store_cases num_to_string env
                (request_key num_to_string (JArr items) options) (JArr items)
                (with_default (get_property options "width") 512)
                (with_default (get_property options "height") 512)
                (with_default (get_property options "maxCloudCoverage") 30)
                (logged (lookup_events (cache cleared)
                           (request_key num_to_string (JArr items) options))
                   cleared))
      as [(err & w' & Hrun & _)|(p & w' & Hrun & _)];
      destruct (fetch_and_store_network _ _ _ _ _ _ _ (logged _ cleared) _ _
                  Hprintable Hrun) as (evs & Htr & Hnet);
      rewrite Hrun; eexists _, w', evs; (split; [done|]); (split; [|done]);
      rewrite Htr; simpl; by rewrite <-app_assoc.
Qed.

(** * Further properties: the flood model *)

(** Case analysis on the tests of a numeric function: a test that
    evaluates is replaced by its value, any other is split. *)
Ltac branches :=
  repeat match goal with
         | |- context [if ?b then _ else _] =>
             let v := eval vm_compute in b in
             match v with
             | true => change b with true; cbv iota
             | false => change b with false; cbv iota
             | _ => destruct b
             end
         end.

(** X16.  [calculateFloodRisk] always returns a number between 0 and 1,
    whatever the terrain and the water level are ([NaN] and the
    infinities included).  A distance of 0 to the river is falsy and is
    replaced by the default of 1000: the river bank is rated like a
    terrain whose distance is unknown, hence never above a terrain at
    the same elevation that lies farther away. *)
Theorem flood_risk_in_unit_interval (terrain : TerrainData) (waterLevel : float) :
  (PrimFloat.leb 0 (calculateFloodRisk terrain waterLevel) = true
   /\ PrimFloat.leb (calculateFloodRisk terrain waterLevel) 1 = true)
  /\ calculateFloodRisk
       {| elevation := elevation terrain; distanceToRiver := Some 0%float;
          soilType := soilType terrain |} waterLevel
     = calculateFloodRisk
         {| elevation := elevation terrain; distanceToRiver := None;
            soilType := soilType terrain |} waterLevel
  /\ forall d,
       PrimFloat.leb
         (calculateFloodRisk
            {| elevation := elevation terrain; distanceToRiver := Some 0%float;
               soilType := soilType terrain |} waterLevel)
         (calculateFloodRisk
            {| elevation := elevation terrain; distanceToRiver := Some d;
               soilType := soilType terrain |} waterLevel) = true.
Proof.
  split; [|split].
  - unfold calculateFloodRisk, or_number, or_string.
    destruct terrain as [[e|] [d|] [[|a s]|]]; cbn [elevation distanceToRiver soilType];
      cbv zeta; branches; split; vm_compute; reflexivity.
  - reflexivity.
  - intros d. unfold calculateFloodRisk, or_number, or_string.
    destruct terrain as [[e|] d0 [[|a s]|]]; cbn [elevation distanceToRiver soilType];
      cbv zeta; branches; vm_compute; reflexivity.
Qed.

Section FloodAnalysisFacts.

Variable num_to_string : jsnum -> string.
Variable CACHE_DURATION : Z.
Variable Math_pow : float -> float -> float.

(** X17.  [POST /api/flood-analysis] never throws.  A falsy [bbox] is
    answered 400 with the world untouched; any other [bbox] goes, with
    the default options, to [getSatelliteData], whose failure becomes a
    500 reply.  On success the reply owes to the satellite data its
    [satelliteAnalysis] only: the terrain being a mock, the risk is one
    of three numbers chosen by the water level (1 when it is absent or
    0), 42 buildings are scaled by it, and evacuation is recommended
    exactly when the water level exceeds 5. *)
Theorem flood_analysis_answers (env : FetchEnv) (bbox : jsval)
    (waterLevel : option float) (w : World) :
  let level := or_number waterLevel 1 in
  exists r w',
    post_flood_analysis num_to_string CACHE_DURATION Math_pow env bbox waterLevel w
    = Some (Returned r, w')
    /\ match r with
       | FloodBadRequest message =>
           truthy bbox = false /\ message = "bbox required"%string /\ w' = w
       | FloodServerError e =>
           truthy bbox = true
           /\ getSatelliteData num_to_string CACHE_DURATION env bbox JUndefined w
              = Some (Thrown e, w')
       | FloodSuccess a =>
           (exists p,
               getSatelliteData num_to_string CACHE_DURATION env bbox JUndefined w
               = Some (Returned p, w')
               /\ satelliteAnalysis a = analysis p)
           /\ recommendedEvacuation a = PrimFloat.ltb 5 level
           /\ (currentRisk a, affectedBuildings a)
              = (if PrimFloat.ltb 5 level then (0.8999999999999999, 38)
                 else if PrimFloat.ltb 5 (level + 2) then (0.7, 29)
                 else (0.4, 17))%float
       end.
Proof.
  intros level. unfold post_flood_analysis, try_catch.
  destruct (truthy bbox) eqn:Hbbox; cbn [negb]; [|by eexists _, _].
  unfold bind.
  destruct (fetch_total num_to_string CACHE_DURATION env bbox JUndefined w)
    as ([p|e] & w' & Hrun); rewrite Hrun; [|by eexists _, _].
  eexists _, _. split; [reflexivity|]. cbn [satelliteAnalysis recommendedEvacuation
    currentRisk affectedBuildings].
  split; [by exists p|].
  subst level. generalize (or_number waterLevel 1). intros level.
  unfold calculateFloodRisk, mock_terrain, or_string.
  cbn [elevation distanceToRiver soilType]. cbv zeta.
  change (or_number (Some 5%float) 0) with 5%float.
  branches; split; vm_compute; reflexivity.
Qed.

End FloodAnalysisFacts.

(** * The further properties on concrete requests *)

Lemma cached_payload_served_again_witness :
  exists p w1,
    getSatelliteData render_number 3600000
      (fetch_env 1000 (granted (JStr "tok") (Some 3600)) two_part_reply)
      sample_bbox (cloud_bound 10) boot
    = Some (Returned p, w1)
    /\ getSatelliteData render_number 3600000
         (fetch_env 2000 (TokenRejected "") (ProcessRejected ""))
         sample_bbox (cloud_bound 80) w1
       = Some (Returned p,
               logged [CacheHas "13,52,14,53-512-512";
                       CacheGet "13,52,14,53-512-512"] w1)
    /\ md_cloudCoverage (metadata p) = JInt 10.
Proof.
  eexists _, _. split; [vm_compute; reflexivity|].
  apply (cached_payload_served_again render_number 3600000
           (fetch_env 1000 (granted (JStr "tok") (Some 3600)) two_part_reply)
           (fetch_env 2000 (TokenRejected "") (ProcessRejected ""))
           [JInt 13; JInt 52; JInt 14; JInt 53] (cloud_bound 10) (cloud_bound 80) boot).
  - discriminate.
  - discriminate.
  - reflexivity.
  - reflexivity.
  - intros e He. vm_compute in He. discriminate.
  - vm_compute. reflexivity.
  - simpl. lia.
Defined.

Lemma stale_entry_refetched_witness :
  (exists o w' evs,
      getSatelliteData render_number 3600000
        (fetch_env 3600000 (TokenRejected "") two_part_reply)
        sample_bbox JUndefined (cached_at 0)
      = Some (o, w')
      /\ trace w' = [CacheHas "13,52,14,53-512-512"; CacheGet "13,52,14,53-512-512"]
                    ++ evs
      /\ Exists (fun ev => is_network ev = true) evs
      /\ match o with
         | Returned p =>
             cache w' = <[ "13,52,14,53-512-512"%string :=
                             {| timestamp := 3600010; data := p |} ]>
                          (cache (cached_at 0))
         | Thrown _ =>
             cache w' !! "13,52,14,53-512-512"%string = Some (entry_at 0)
         end)
  /\ (sweep 3600000 3600000 (cache (cached_at 0))).1
       !! "13,52,14,53-512-512"%string = Some (entry_at 0).
Proof.
  destruct (stale_entry_refetched render_number 3600000
              (fetch_env 3600000 (TokenRejected "") two_part_reply)
              [JInt 13; JInt 52; JInt 14; JInt 53] JUndefined (cached_at 0)
              (entry_at 0)) as [Hfetch Hsweep].
  - discriminate.
  - reflexivity.
  - intros tok Hcred. vm_compute in Hcred. by injection Hcred as <-.
  - vm_compute. reflexivity.
  - simpl. lia.
  - split; [exact Hfetch|]. apply Hsweep. reflexivity.
Defined.

Lemma sweep_invisible_to_fetch_witness :
  exists v',
    (clean_cache 3600000 3000000;;
     getSatelliteData render_number 3600000
       (fetch_env 3000005 (TokenRejected "") (ProcessRejected ""))
       sample_bbox JUndefined) (cached_at 1000)
    = Some (Returned (data (entry_at 1000)), v')
    /\ service v' = service warm.
Proof.
  apply (sweep_invisible_to_fetch render_number 3600000
           (fetch_env 3000005 (TokenRejected "") (ProcessRejected ""))
           sample_bbox JUndefined 3000000 (cached_at 1000)
           (Returned (data (entry_at 1000)))
           (logged [CacheHas "13,52,14,53-512-512"; CacheGet "13,52,14,53-512-512"]
              (cached_at 1000))).
  - simpl. lia.
  - vm_compute. reflexivity.
Defined.

Lemma null_options_answered_500_witness :
  post_satellite_data render_number 3600000
    (fetch_env 1000 (granted (JStr "tok") (Some 3600)) two_part_reply)
    (JObj [("bbox"%string, sample_bbox); ("options"%string, JNull)]) boot
  = Some (Returned (ServerError TypeError), boot).
Proof.
  apply (null_options_answered_500 render_number 3600000 _ _ _
           (JInt 13) (JInt 52) (JInt 14) (JInt 53)); reflexivity.
Defined.

Lemma unusable_credential_never_reused_witness :
  exists w1,
    getAccessToken (token_env 1000 (granted (JStr "tok") None)) boot
    = Some (Returned (JStr "tok"), w1)
    /\ token_valid (service w1) 1006 = false
    /\ exists o w2,
         getAccessToken (token_env 1006 (granted (JStr "tok") None)) w1 = Some (o, w2)
         /\ trace w2 = trace w1 ++ [exchange_event (service w1)].
Proof.
  apply (unusable_credential_never_reused
           (token_env 1000 (granted (JStr "tok") None))
           (token_env 1006 (granted (JStr "tok") None)) boot
           {| access_token := JStr "tok"; expires_in := None |}).
  - reflexivity.
  - reflexivity.
  - by left.
Defined.

Lemma preamble_and_epilogue_ignored_witness :
  parseMultipartResponse
    ((Buffer_from "preamble" ++ CRLF) ++ encode_multipart "b" two_parts ++ CRLF)
    (Some "b"%string)
  = parseMultipartResponse (encode_multipart "b" two_parts) (Some "b"%string).
Proof.
  apply (preamble_and_epilogue_ignored "b" two_parts
           (Buffer_from "preamble" ++ CRLF) CRLF).
  - part_ok_by_evaluation.
  - vm_compute. reflexivity.
Defined.

Lemma cache_clear_forgets_witness :
  post_cache_clear (cached_at 1000)
  = Some (Returned 0%nat, {| service := service warm; cache := ∅; trace := [] |})
  /\ exists o w' evs,
       (post_cache_clear;;
        getSatelliteData render_number 3600000
          (fetch_env 2000 (TokenRejected "") two_part_reply) sample_bbox JUndefined)
         (cached_at 1000)
       = Some (o, w')
       /\ trace w' = [CacheHas "13,52,14,53-512-512"] ++ evs
       /\ Exists (fun ev => is_network ev = true) evs.
Proof.
  destruct (cache_clear_forgets render_number 3600000
              (fetch_env 2000 (TokenRejected "") two_part_reply)
              [JInt 13; JInt 52; JInt 14; JInt 53] JUndefined (cached_at 1000))
    as (Hclear & _ & Hfetch).
  - discriminate.
  - reflexivity.
  - intros tok Hcred. vm_compute in Hcred. by injection Hcred as <-.
  - split; [exact Hclear|exact Hfetch].
Defined.

Lemma fetch_access_order_witness :
  exists p w' ,
    getSatelliteData render_number 3600000
      (fetch_env 1000 (granted (JStr "tok") (Some 3600)) two_part_reply)
      sample_bbox JUndefined boot
    = Some (Returned p, w')
    /\ exists exch tail,
         trace w' = [CacheHas "13,52,14,53-512-512"] ++ exch ++ tail
         /\ (exch = [] \/ exch = [exchange_event (service boot)])
         /\ ((exch = [] /\ tail = []
              /\ exists entry,
                   cache boot !! "13,52,14,53-512-512"%string = Some entry
                   /\ data entry = p)
             \/ tail = [ProcessRequest "Bearer tok" sample_bbox (JInt 512) (JInt 512)
                          (JInt 30);
                        CacheSet "13,52,14,53-512-512"]).
Proof.
  eexists _, _. split; [vm_compute; reflexivity|].
  refine (fetch_access_order render_number 3600000
            (fetch_env 1000 (granted (JStr "tok") (Some 3600)) two_part_reply)
            [JInt 13; JInt 52; JInt 14; JInt 53] JUndefined boot (Returned _) _ _ _).
  - discriminate.
  - vm_compute. reflexivity.
Defined.

Lemma decoded_parts_come_from_buffer_witness :
  exists parts,
    parseMultipartResponse (encode_multipart "b" two_parts) (Some "b"%string)
    = Some parts
    /\ forall id content,
         parts !! id = Some content ->
         id <> EmptyString /\ free_of ">" id /\ id <> "__proto__"%string
         /\ exists before after,
              encode_multipart "b" two_parts = before ++ content ++ after.
Proof.
  apply (decoded_parts_come_from_buffer (encode_multipart "b" two_parts)
           (Some "b"%string)).
  - vm_compute. reflexivity.
  - apply ascii_headers_by_evaluation. vm_compute. reflexivity.
Defined.

Lemma decoded_parts_free_of_marker_witness :
  exists parts,
    parseMultipartResponse
      (encode_multipart "b" [("a"%string, Buffer_from "ab--bcd")]) (Some "b"%string)
    = Some parts
    /\ forall id content,
         parts !! id = Some content ->
         indexOf content (marker (Some "b"%string)) 0 = -1.
Proof.
  apply (decoded_parts_free_of_marker
           (encode_multipart "b" [("a"%string, Buffer_from "ab--bcd")])
           (Some "b"%string)).
  - vm_compute. reflexivity.
  - apply ascii_headers_by_evaluation. vm_compute. reflexivity.
Defined.
